(** * Scoring engine of [torch_ecg.databases.physionet_databases.cinc2021]

    A shallow embedding of the metric functions at the end of [cinc2021.py]
    ([_compute_accuracy], [_compute_confusion_matrices], [_compute_f_measure],
    [_compute_beta_measures], [_compute_auc],
    [_compute_modified_confusion_matrix], [compute_challenge_metric]) and the
    properties of them that the specification states, followed by the two
    functions that call them ([compute_all_metrics_detailed],
    [compute_all_metrics]), the two methods of the reader that prepare the
    labels of a record ([_parse_diagnosis], [get_labels]) and further
    properties of all of these.

    Number model.  A [float64] is either NaN or a finite value; finite values
    are exact rationals ([Qc]), so rounding and overflow are not modelled.
    Arrays that the source fills with whole numbers only (the counters of the
    threshold sweep) are kept in [Z] and converted where the source calls
    [float(...)].  Labels and binary predictions are integers ([Z]), tested
    as the source tests them ([== 1], [== 0] or by truth value); scalar
    predictions are finite rationals.  A 2-D array is the list of its rows.
    Exceptions are values of [result].

    Where the outcome depends on the rounding of the doubles (the test
    [correct_score != inactive_score] of the challenge metric), the function
    is modelled a second time over an arbitrary arithmetic ([Float64],
    [Doubles]), of which the exact numbers and the binary64 numbers are two
    instances.  Statements about exact values carry the hypotheses
    ([beta_in_range], [weights_in_range]) under which the doubles of the
    code do not overflow. *)

From Stdlib Require Import QArith Qcanon ZArith Lia.
From Stdlib Require PrimFloat.
From stdpp Require Import list numbers sorting strings gmap.

Local Open Scope Z_scope.

(** ** Floats *)

Inductive float : Type :=
| NaN
| Fin (q : Qc).

Global Instance float_eq_dec : EqDecision float.
Proof. solve_decision. Defined.

Global Instance float_inhabited : Inhabited float := populate (Fin 0%Qc).

Definition float_of_Z (n : Z) : float := Fin (Qc_of_Z n).

Definition lift2 (op : Qc → Qc → Qc) (x y : float) : float :=
  match x, y with
  | Fin a, Fin b => Fin (op a b)
  | _, _ => NaN
  end.

Definition fadd : float → float → float := lift2 Qcplus.
Definition fsub : float → float → float := lift2 Qcminus.
Definition fmul : float → float → float := lift2 Qcmult.

(** Division.  [0/0] is NaN, as in [np.nanmean] of an array without finite
    entries; every other division of the modelled code sits under a test
    that its divisor is not zero, or raises before it is reached. *)
Definition fdiv (x y : float) : float :=
  match x, y with
  | Fin a, Fin b => if decide (b = 0%Qc) then NaN else Fin (a / b)%Qc
  | _, _ => NaN
  end.

(** [np.isnan], [np.isfinite]. *)
Definition isnan (x : float) : bool :=
  match x with NaN => true | Fin _ => false end.
Definition isfinite (x : float) : bool := negb (isnan x).

(** Truth value of a float in [if x:]: false for zero only (NaN is true). *)
Definition float_truth (x : float) : bool :=
  match x with NaN => true | Fin q => bool_decide (q ≠ 0%Qc) end.

(** [x != y] on floats: NaN differs from everything, itself included. *)
Definition fne (x y : float) : bool :=
  match x, y with
  | Fin a, Fin b => bool_decide (a ≠ b)
  | _, _ => true
  end.

Declare Scope float_scope.
Delimit Scope float_scope with F.
Bind Scope float_scope with float.
Infix "+" := fadd : float_scope.
Infix "-" := fsub : float_scope.
Infix "*" := fmul : float_scope.
Infix "/" := fdiv : float_scope.

Definition f0 : float := Fin 0%Qc.
Definition f1 : float := Fin 1%Qc.
Definition fhalf : float := Fin (Qc_of_Z 1 / Qc_of_Z 2)%Qc.

(** Truth value of an integer array entry in [if labels[i, j]:]. *)
Definition truth (x : Z) : bool := negb (x =? 0).

(** ** Errors *)

Inductive exn : Type :=
| ValueError (msg : string)
| IndexError
| ZeroDivisionError.

Inductive result (A : Type) : Type :=
| Ok (a : A)
| Raise (e : exn).
Arguments Ok {A} a.
Arguments Raise {A} e.

Global Instance result_ret : MRet result := fun _ a => Ok a.
Global Instance result_bind : MBind result := fun _ _ f m =>
  match m with
  | Ok a => f a
  | Raise e => Raise e
  end.

(** A [for x in l:] loop whose body may raise. *)
Fixpoint for_each {A B} (l : list B) (body : A → B → result A) (a : A)
    : result A :=
  match l with
  | [] => Ok a
  | x :: l => a' ← body a x; for_each l body a'
  end.

(** ** Arrays *)

Abbreviation matrix A := (list (list A)).

(** [np.shape(a)] of a 2-D array with at least one row. *)
Definition shape {A} (a : matrix A) : nat * nat :=
  (length a, length (nth 0 a [])).

(** [a[i, j]] for indices inside the shape. *)
Definition at2 {A} (d : A) (a : matrix A) (i j : nat) : A :=
  nth j (nth i a []) d.

(** [a[:, k]]. *)
Definition column {A} (d : A) (a : matrix A) (k : nat) : list A :=
  map (fun row => nth k row d) a.

(** [np.zeros((n, m))]. *)
Definition zeros (n m : nat) : matrix float := replicate n (replicate m f0).

(** [A[j, k] += v]. *)
Definition add_at (A : matrix float) (j k : nat) (v : float) : matrix float :=
  alter (alter (fun x => fadd x v) k) j A.

(** A matrix of [r] rows of [c] entries each. *)
Definition has_shape {A} (r c : nat) (a : matrix A) : Prop :=
  length a = r ∧ Forall (fun row => length row = c) a.

(** Every entry is 0 or 1. *)
Definition binary (a : matrix Z) : Prop :=
  Forall (Forall (fun x => x = 0 ∨ x = 1)) a.

(** ** [_compute_modified_confusion_matrix] *)

(** [np.sum(np.any((lrow, orow), axis=0))]: the number of columns in which
    one of the two rows is true. *)
Definition count_any (lrow orow : list Z) : Z :=
  Z.of_nat (length (filter (fun b => b = true)
                      (zip_with (fun l o => truth l || truth o) lrow orow))).

Definition mcm_recording (num_classes : nat) (lrow orow : list Z)
    (A : matrix float) : matrix float :=
  let normalization := float_of_Z (Z.max (count_any lrow orow) 1) in
  foldl (fun A j =>
           if truth (nth j lrow 0) then
             foldl (fun A k =>
                      if truth (nth k orow 0)
                      then add_at A j k (f1 / normalization)%F
                      else A)
                   A (seq 0 num_classes)
           else A)
        A (seq 0 num_classes).

Definition _compute_modified_confusion_matrix
    (labels outputs : matrix Z) : matrix float :=
  let '(num_recordings, num_classes) := shape labels in
  foldl (fun A i => mcm_recording num_classes (nth i labels []) (nth i outputs []) A)
        (zeros num_classes num_classes) (seq 0 num_recordings).


(** ** [compute_challenge_metric] *)

(** [np.nansum]: NaN entries count as zero. *)
Definition nansum (a : list float) : float :=
  foldl (fun acc x => (acc + (if isnan x then f0 else x))%F) f0 a.

(** [weights * A], elementwise, flattened for the sum over all entries. *)
Definition mul_entries (weights A : matrix float) : list float :=
  concat (zip_with (zip_with fmul) weights A).

(** Calls of [_compute_modified_confusion_matrix] are logged, so that the
    order of the membership test and of the computations can be stated. *)
Inductive event : Type :=
| ModifiedConfusion (labels outputs : matrix Z).

Definition logged (A : Type) : Type := (list event * result A)%type.

Definition log_ret {A} (a : A) : logged A := ([], Ok a).
Definition log_raise {A} (e : exn) : logged A := ([], Raise e).
Definition log_bind {A B} (m : logged A) (f : A → logged B) : logged B :=
  match m with
  | (t, Ok a) => let '(t', r) := f a in (t ++ t', r)
  | (t, Raise e) => (t, Raise e)
  end.

Definition call_modified_confusion (labels outputs : matrix Z)
    : logged (matrix float) :=
  ([ModifiedConfusion labels outputs],
   Ok (_compute_modified_confusion_matrix labels outputs)).

(** [classes.index(x)] when [x in classes]. *)
Definition index_of (x : string) (classes : list string) : option nat :=
  fst <$> list_find (fun c => c = x) classes.

(** [np.zeros((r, c), dtype=bool)] followed by [a[:, k] = 1]. *)
Definition inactive (r c k : nat) : matrix Z :=
  replicate r (<[k := 1]> (replicate c 0)).

Definition compute_challenge_metric (weights : matrix float)
    (labels outputs : matrix Z) (classes : list string)
    (sinus_rhythm : string) : logged float :=
  let '(num_recordings, num_classes) := shape labels in
  log_bind
    (match index_of sinus_rhythm classes with
     | Some i => log_ret i
     | None => log_raise (ValueError "The sinus rhythm class is not available.")
     end)
    (fun sinus_rhythm_index =>
  log_bind (call_modified_confusion labels outputs) (fun A =>
  let observed_score := nansum (mul_entries weights A) in
  let correct_outputs := labels in
  log_bind (call_modified_confusion labels correct_outputs) (fun A =>
  let correct_score := nansum (mul_entries weights A) in
  log_bind
    (if decide (sinus_rhythm_index < num_classes)%nat
     then log_ret (inactive num_recordings num_classes sinus_rhythm_index)
     else log_raise IndexError)
    (fun inactive_outputs =>
  log_bind (call_modified_confusion labels inactive_outputs) (fun A =>
  let inactive_score := nansum (mul_entries weights A) in
  log_ret
    (if fne correct_score inactive_score
     then ((observed_score - inactive_score) / (correct_score - inactive_score))%F
     else f0)))))).

(** ** [_compute_accuracy] *)

(** [np.all(lrow == orow)] for rows of one length. *)
Definition rows_equal (lrow orow : list Z) : bool :=
  forallb (fun b : bool => b) (zip_with Z.eqb lrow orow).

Definition _compute_accuracy (labels outputs : matrix Z) : result float :=
  let '(num_recordings, num_classes) := shape labels in
  let num_correct_recordings :=
    foldl (fun n i =>
             if rows_equal (nth i labels []) (nth i outputs [])
             then n + 1 else n)
          0 (seq 0 num_recordings) in
  if decide (num_recordings = 0%nat) then Raise ZeroDivisionError
  else Ok (float_of_Z num_correct_recordings
           / float_of_Z (Z.of_nat num_recordings))%F.

(** ** [_compute_confusion_matrices] *)

(** A [(n, 2, 2)] array is the list of its [n] matrices. *)
Definition zeros3 (n : nat) : list (matrix float) := replicate n (zeros 2 2).

(** [A[j, a, b] += v]. *)
Definition add_at3 (A : list (matrix float)) (j a b : nat) (v : float)
    : list (matrix float) :=
  alter (fun M => add_at M a b v) j A.

Definition at3 (A : list (matrix float)) (j a b : nat) : float :=
  at2 f0 (nth j A []) a b.

(** The [if]/[elif] chain of one (recording, class) pair. *)
Definition confusion_cell (l o : Z) (A : list (matrix float)) (j : nat)
    (v : float) : result (list (matrix float)) :=
  if (l =? 1) && (o =? 1) then Ok (add_at3 A j 1 1 v)
  else if (l =? 0) && (o =? 1) then Ok (add_at3 A j 1 0 v)
  else if (l =? 1) && (o =? 0) then Ok (add_at3 A j 0 1 v)
  else if (l =? 0) && (o =? 0) then Ok (add_at3 A j 0 0 v)
  else Raise (ValueError "Error in computing the confusion matrix.").

(** [np.sum(labels[i, :])]. *)
Definition row_sum (lrow : list Z) : Z := foldl Z.add 0 lrow.

Definition _compute_confusion_matrices (labels outputs : matrix Z)
    (normalize : bool) : result (list (matrix float)) :=
  let '(num_recordings, num_classes) := shape labels in
  if negb normalize then
    for_each (seq 0 num_recordings) (fun A i =>
      for_each (seq 0 num_classes) (fun A j =>
        confusion_cell (at2 0 labels i j) (at2 0 outputs i j) A j f1) A)
      (zeros3 num_classes)
  else
    for_each (seq 0 num_recordings) (fun A i =>
      let normalization := float_of_Z (Z.max (row_sum (nth i labels [])) 1) in
      for_each (seq 0 num_classes) (fun A j =>
        confusion_cell (at2 0 labels i j) (at2 0 outputs i j) A j
          (f1 / normalization)%F) A)
      (zeros3 num_classes).

(** ** [np.nanmean] *)

(** The mean over the entries that are not NaN: their sum divided by their
    number, which is 0/0 = NaN when there is none. *)
Definition nanmean (a : list float) : float :=
  (nansum a
   / float_of_Z (Z.of_nat (length (filter (fun x => isnan x = false) a))))%F.

(** ** [_compute_f_measure] and [_compute_beta_measures] *)

Definition f2 : float := float_of_Z 2.

Definition f_measure_class (A : list (matrix float)) (k : nat) : float :=
  let '(tp, fp, fn, tn) := (at3 A k 1 1, at3 A k 1 0, at3 A k 0 1, at3 A k 0 0) in
  if float_truth (f2 * tp + fp + fn)%F
  then ((f2 * tp) / (f2 * tp + fp + fn))%F
  else NaN.

Definition _compute_f_measure (labels outputs : matrix Z)
    : result (float * list float) :=
  let '(num_recordings, num_classes) := shape labels in
  A ← _compute_confusion_matrices labels outputs false;
  let f_measure := map (f_measure_class A) (seq 0 num_classes) in
  let macro_f_measure :=
    if existsb isfinite f_measure then nanmean f_measure else NaN in
  Ok (macro_f_measure, f_measure).

Definition f_beta_class (beta : float) (A : list (matrix float)) (k : nat)
    : float :=
  let '(tp, fp, fn, tn) := (at3 A k 1 1, at3 A k 1 0, at3 A k 0 1, at3 A k 0 0) in
  if float_truth ((f1 + beta * beta) * tp + fp + beta * beta * fn)%F
  then (((f1 + beta * beta) * tp)
        / ((f1 + beta * beta) * tp + fp + beta * beta * fn))%F
  else NaN.

Definition g_beta_class (beta : float) (A : list (matrix float)) (k : nat)
    : float :=
  let '(tp, fp, fn, tn) := (at3 A k 1 1, at3 A k 1 0, at3 A k 0 1, at3 A k 0 0) in
  if float_truth (tp + fp + beta * fn)%F
  then (tp / (tp + fp + beta * fn))%F
  else NaN.

(** The per-class arrays are local to the source function; the model
    returns them next to the two macro values it returns. *)
Definition beta_measures_classes (labels outputs : matrix Z) (beta : float)
    : result (list float * list float) :=
  let '(num_recordings, num_classes) := shape labels in
  A ← _compute_confusion_matrices labels outputs true;
  Ok (map (f_beta_class beta A) (seq 0 num_classes),
      map (g_beta_class beta A) (seq 0 num_classes)).

Definition _compute_beta_measures (labels outputs : matrix Z) (beta : float)
    : result (float * float) :=
  '(f_beta_measure, g_beta_measure) ← beta_measures_classes labels outputs beta;
  Ok (nanmean f_beta_measure, nanmean g_beta_measure).

(** ** [_compute_auc] *)

Local Open Scope Qc_scope.

(** [np.unique(a)]: the distinct values of [a], ascending. *)
Definition np_unique (a : list Qc) : list Qc :=
  merge_sort Qcle (remove_dups a).

(** The order in which [np.argsort(a)] compares two positions. *)
Definition key_le (a : list Qc) (i j : nat) : Prop :=
  nth i a 0 ≤ nth j a 0.

Global Instance key_le_dec a : RelDecision (key_le a).
Proof. intros i j. unfold key_le. apply _. Defined.

(** [np.argsort(a)]: positions of [a] in ascending order of their values.
    numpy leaves the order of equal values open; the sweep below is proved
    for every order of them. *)
Definition np_argsort (a : list Qc) : list nat :=
  merge_sort (key_le a) (seq 0 (length a)).

(** The four counters at one threshold index. *)
Record counts : Type := Counts { tp : Z; fp : Z; fn : Z; tn : Z }.

Section sweep.
Variables (labels_k : list Z) (outputs_k : list Qc) (idx : list nat).
Variable num_recordings : nat.

(** The test of the [while] loop at cursor [i] for threshold [thr]. *)
Definition absorbing (thr : Qc) (i : nat) : bool :=
  bool_decide (i < num_recordings)%nat
  && bool_decide (thr ≤ nth (nth i idx 0%nat) outputs_k 0).

(** One pass through the body of the [while] loop. *)
Definition absorb_one (i : nat) (c : counts) : counts :=
  if truth (nth (nth i idx 0%nat) labels_k 0%Z)
  then {| tp := tp c + 1; fp := fp c; fn := fn c - 1; tn := tn c |}
  else {| tp := tp c; fp := fp c + 1; fn := fn c; tn := tn c - 1 |}.

(** The [while] loop; [fuel] bounds the number of passes. *)
Fixpoint absorb (fuel : nat) (thr : Qc) (i : nat) (c : counts)
    : nat * counts :=
  match fuel with
  | O => (i, c)
  | S fuel =>
      if absorbing thr i
      then absorb fuel thr (S i) (absorb_one i c)
      else (i, c)
  end.

(** The [for j in range(1, num_thresholds)] loop: the cursor and the
    counters after each threshold, starting from those of index [j - 1].
    The cursor never exceeds [num_recordings], which is fuel enough. *)
Fixpoint sweep (thresholds : list Qc) (i : nat) (c : counts)
    : list (nat * counts) :=
  match thresholds with
  | [] => []
  | thr :: thresholds =>
      let '(i', c') := absorb num_recordings thr i c in
      (i', c') :: sweep thresholds i' c'
  end.
End sweep.

Definition tpr_of (c : counts) : float :=
  if truth (tp c + fn c)
  then (float_of_Z (tp c) / float_of_Z (tp c + fn c))%F else NaN.
Definition tnr_of (c : counts) : float :=
  if truth (fp c + tn c)
  then (float_of_Z (tn c) / float_of_Z (fp c + tn c))%F else NaN.
Definition ppv_of (c : counts) : float :=
  if truth (tp c + fp c)
  then (float_of_Z (tp c) / float_of_Z (tp c + fp c))%F else NaN.

(** The two sums over [j in range(num_thresholds - 1)]. *)
Definition auroc_sum (tpr tnr : list float) : float :=
  foldl (fun acc j =>
           (acc + fhalf * (nth (j + 1) tpr f0 - nth j tpr f0)
                  * (nth (j + 1) tnr f0 + nth j tnr f0))%F)
        f0 (seq 0 (length tpr - 1)).
Definition auprc_sum (tpr ppv : list float) : float :=
  foldl (fun acc j =>
           (acc + (nth (j + 1) tpr f0 - nth j tpr f0) * nth (j + 1) ppv f0)%F)
        f0 (seq 0 (length tpr - 1)).

(** [thresholds] of class [k]: the distinct outputs, one more than the
    largest appended, reversed.  [thresholds[-1]] of an empty array raises. *)
Definition thresholds_of (outputs_k : list Qc) : result (list Qc) :=
  let thresholds := np_unique outputs_k in
  match last thresholds with
  | None => Raise IndexError
  | Some m => Ok (reverse (thresholds ++ [m + 1]))
  end.

(** The counters (with the cursor) at every threshold index for one class,
    given the order [idx] of the recordings. *)
Definition sweep_table (labels_k : list Z) (outputs_k : list Qc)
    (idx : list nat) (thresholds : list Qc) : list (nat * counts) :=
  let num_recordings := length labels_k in
  let c0 := {| tp := 0; fp := 0;
               fn := Z.of_nat (length (filter (fun l => l = 1%Z) labels_k));
               tn := Z.of_nat (length (filter (fun l => l = 0%Z) labels_k)) |} in
  (0%nat, c0) :: sweep labels_k outputs_k idx num_recordings (tail thresholds) 0 c0.

(** The body of the loop over the classes, for the columns of class [k]. *)
Definition auc_class_with (argsort : list Qc → list nat)
    (labels_k : list Z) (outputs_k : list Qc) : result (float * float) :=
  thresholds ← thresholds_of outputs_k;
  let idx := reverse (argsort outputs_k) in
  let table := (sweep_table labels_k outputs_k idx thresholds).*2 in
  let tpr := map tpr_of table in
  let tnr := map tnr_of table in
  let ppv := map ppv_of table in
  Ok (auroc_sum tpr tnr, auprc_sum tpr ppv).

Definition auc_class := auc_class_with np_argsort.

Definition _compute_auc (labels : matrix Z) (outputs : matrix Qc)
    : result (float * float * list float * list float) :=
  let '(num_recordings, num_classes) := shape labels in
  per_class ← mapM (fun k => auc_class (column 0%Z labels k) (column 0 outputs k))
                   (seq 0 num_classes);
  let auroc := per_class.*1 in
  let auprc := per_class.*2 in
  let macro_auroc := if existsb isfinite auroc then nanmean auroc else NaN in
  let macro_auprc := if existsb isfinite auprc then nanmean auprc else NaN in
  Ok (macro_auroc, macro_auprc, auroc, auprc).

Local Close Scope Qc_scope.

(** ** [compute_all_metrics_detailed] and [compute_all_metrics] *)

Section all_metrics.

(** [load_weights] is imported from the auxiliary data of the challenge;
    it is a parameter here.  The calls of [print] are left out, and
    [np.array] is the identity on arrays. *)
Variable load_weights : list string → result (matrix float).

Definition compute_all_metrics_detailed (classes : list string)
    (truth binary_pred : matrix Z) (scalar_pred : matrix Qc)
    : result (float * float * list float * list float * float * float
              * list float * float * float * float) :=
  let sinus_rhythm := "NSR" in
  weights ← load_weights classes;
  '(auroc, auprc, auroc_classes, auprc_classes) ← _compute_auc truth scalar_pred;
  accuracy ← _compute_accuracy truth binary_pred;
  '(f_measure, f_measure_classes) ← _compute_f_measure truth binary_pred;
  '(f_beta_measure, g_beta_measure) ← _compute_beta_measures truth binary_pred f2;
  challenge_metric ←
    (compute_challenge_metric weights truth binary_pred classes sinus_rhythm).2;
  Ok (auroc, auprc, auroc_classes, auprc_classes, accuracy, f_measure,
      f_measure_classes, f_beta_measure, g_beta_measure, challenge_metric).

Definition compute_all_metrics (classes : list string)
    (truth binary_pred : matrix Z) (scalar_pred : matrix Qc)
    : result (float * float * float * float * float * float * float) :=
  '(auroc, auprc, _, _, accuracy, f_measure, _, f_beta_measure, g_beta_measure,
    challenge_metric) ←
    compute_all_metrics_detailed classes truth binary_pred scalar_pred;
  Ok (auroc, auprc, accuracy, f_measure, f_beta_measure, g_beta_measure,
      challenge_metric).

End all_metrics.

(** ** Diagnoses of a record: [_parse_diagnosis] and [get_labels] *)

(** A row of the tables [dx_mapping_all] and [dx_mapping_scored], with the
    columns that the class reads. *)
Record dx_row : Type := DxRow {
  SNOMEDCTCode : string;
  Abbreviation : string;
  Dx : string
}.

(** The dictionaries [diag_dict] and [diag_scored_dict]: both are built
    with the same three keys. *)
Record diag_dict : Type := DiagDict {
  diagnosis_code : list string;
  diagnosis_abbr : list string;
  diagnosis_fullname : list string
}.

(** The two entries of the annotations of a record that [get_labels]
    reads. *)
Record ann_dict : Type := AnnDict {
  diagnosis : diag_dict;
  diagnosis_scored : diag_dict
}.

(** [[item for idx, item in enumerate(l) if scored_indices[idx]]]. *)
Definition select_scored {A} (scored_indices : list bool) (l : list A)
    : result (list A) :=
  picked ← mapM (fun '(idx, item) =>
                   match scored_indices !! idx with
                   | Some b => Ok (if b : bool then [item] else [])
                   | None => Raise IndexError
                   end)
                (imap pair l);
  Ok (concat picked).

Section diagnoses.

(** The two tables are imported from the auxiliary data of the challenge;
    they are parameters here, as the lists of their rows. *)
Variable dx_mapping_all : list dx_row.
Variable dx_mapping_scored : list dx_row.

(** The first row of
    [dx_mapping_all[dx_mapping_all["SNOMEDCTCode"] == dc]]. *)
Definition row_of (dc : string) : option dx_row :=
  head (filter (fun r => SNOMEDCTCode r = dc) dx_mapping_all).

(** [dx_mapping_all[dx_mapping_all["SNOMEDCTCode"] == dc][column].values[0]]. *)
Definition first_value (column : dx_row → string) (dc : string)
    : result string :=
  match row_of dc with
  | Some r => Ok (column r)
  | None => Raise IndexError
  end.

(** The value that [first_value] finds for a code of the table. *)
Definition value_of (column : dx_row → string) (dc : string) : string :=
  from_option column dc (row_of dc).

Definition _parse_diagnosis (l_Dx : list string)
    : result (diag_dict * diag_dict) :=
  let all_codes := map SNOMEDCTCode dx_mapping_all in
  let code := filter (fun item => item ∈ all_codes) l_Dx in
  let left := filter (fun item => item ∉ all_codes) l_Dx in
  abbr ← mapM (first_value Abbreviation) code;
  fullname ← mapM (first_value Dx) code;
  let diag :=
    {| diagnosis_code := code ++ left;
       diagnosis_abbr := abbr ++ left;
       diagnosis_fullname := fullname ++ left |} in
  let scored_indices :=
    map (fun c => bool_decide (c ∈ map SNOMEDCTCode dx_mapping_scored))
        (diagnosis_code diag) in
  scored_code ← select_scored scored_indices (diagnosis_code diag);
  scored_abbr ← select_scored scored_indices (diagnosis_abbr diag);
  scored_fullname ← select_scored scored_indices (diagnosis_fullname diag);
  Ok (diag,
      {| diagnosis_code := scored_code;
         diagnosis_abbr := scored_abbr;
         diagnosis_fullname := scored_fullname |}).

End diagnoses.

(** [str.lower], on the letters A to Z. *)
Definition ascii_lower (c : Ascii.ascii) : Ascii.ascii :=
  let n := Ascii.nat_of_ascii c in
  if (65 <=? n)%nat && (n <=? 90)%nat then Ascii.ascii_of_nat (n + 32) else c.

Fixpoint lower (s : string) : string :=
  match s with
  | EmptyString => EmptyString
  | String c s => String (ascii_lower c) (lower s)
  end.

Section get_labels.

(** The attributes of the reader that [get_labels] uses: the loader of the
    annotations of a record and the dictionary of the equivalent classes.
    A record is given by its name; the branch that first turns an index
    into a name is not part of the model. *)
Variable load_ann : string → result ann_dict.
Variable label_trans_dict : gmap string string.

(** The loop that translates the labels and drops the repetitions. *)
Definition normalize_labels (_labels : list string) : list string :=
  foldl (fun labels item =>
           let new_item := default item (label_trans_dict !! item) in
           if decide (new_item ∈ labels) then labels else labels ++ [new_item])
        [] _labels.

Definition get_labels (rec : string) (scored_only : bool) (fmt : string)
    (normalize : bool) : result (list string) :=
  ann_dict ← load_ann rec;
  let _labels := if scored_only then diagnosis_scored ann_dict
                 else diagnosis ann_dict in
  _labels ←
    (if decide (lower fmt = "a") then Ok (diagnosis_abbr _labels)
     else if decide (lower fmt = "f") then Ok (diagnosis_fullname _labels)
     else if decide (lower fmt = "s") then Ok (diagnosis_code _labels)
     else Raise (ValueError
                   ("`fmt` should be one of `a`, `f`, `s`, but got `"
                    +:+ fmt +:+ "`")));
  if normalize then Ok (normalize_labels _labels) else Ok _labels.

End get_labels.

(** * What the specification says, in its own words

    Definitions that follow the wording of the specification; the theorems
    below compare them with the functions above. *)

(** A sum, taken from left to right. *)
Definition fsum (a : list float) : float := foldl fadd f0 a.

(** The number of classes that are true or predicted for a recording. *)
Definition union_size (num_classes : nat) (lrow orow : list Z) : nat :=
  length (filter (fun k => nth k lrow 0 = 1 ∨ nth k orow 0 = 1)
                 (seq 0 num_classes)).

(** [norm_i = max(|{k : L[i,k]=1 or B[i,k]=1}|, 1)]. *)
Definition norm_spec (C : nat) (L B : matrix Z) (i : nat) : float :=
  float_of_Z (Z.max (Z.of_nat (union_size C (nth i L []) (nth i B []))) 1).

(** [M[j,k]]: the sum of [1/norm_i] over the recordings [i] with
    [L[i,j] = 1] and [B[i,k] = 1]. *)
Definition modified_confusion_spec (R C : nat) (L B : matrix Z) (j k : nat)
    : float :=
  fsum (map (fun i => (f1 / norm_spec C L B i)%F)
            (filter (fun i => at2 0 L i j = 1 ∧ at2 0 B i k = 1) (seq 0 R))).

(** The sum of [W[j,k] * M[j,k]] over all [j], [k], ignoring NaN. *)
Definition weighted_nansum (C : nat) (W : matrix float)
    (M : nat → nat → float) : float :=
  fsum (filter (fun x => isnan x = false)
          (j ← seq 0 C; k ← seq 0 C; [(at2 f0 W j k * M j k)%F])).

(** [D]: only the default class is predicted, for every recording. *)
Definition default_only (R : nat) (classes : list string) (default : string)
    : matrix Z :=
  replicate R (map (fun c => if decide (c = default) then 1 else 0) classes).

(** The number of recordings whose predicted row equals the true row. *)
Definition exact_matches (R : nat) (L B : matrix Z) : nat :=
  length (filter (fun i => nth i L [] = nth i B []) (seq 0 R)).

(** The mean of the entries that are not NaN; NaN when there is none. *)
Definition mean_ignoring_nan (a : list float) : float :=
  match filter (fun x => x ≠ NaN) a with
  | [] => NaN
  | present => (fsum present / float_of_Z (Z.of_nat (length present)))%F
  end.

(** The four cases of a (label, prediction) pair. *)
Inductive confusion_case : Type := TP | FP | FN | TN.

Definition in_case (c : confusion_case) (l o : Z) : Prop :=
  match c with
  | TP => l = 1 ∧ o = 1
  | FP => l = 0 ∧ o = 1
  | FN => l = 1 ∧ o = 0
  | TN => l = 0 ∧ o = 0
  end.

(** The number of positions below [R] with property [P]. *)
Definition count_where (P : nat → Prop) `{!∀ i, Decision (P i)} (R : nat) : Z :=
  Z.of_nat (length (filter P (seq 0 R))).

(** The counters once the recordings with a score of at least [thr] are
    absorbed: those that are truly positive have moved from FN to TP, those
    that are truly negative from TN to FP. *)
Definition counts_spec (labels_k : list Z) (outputs_k : list Qc) (thr : Qc)
    : counts :=
  let R := length labels_k in
  let absorbed_pos :=
    count_where (fun i => (thr ≤ nth i outputs_k 0)%Qc ∧ nth i labels_k 0 = 1) R in
  let absorbed_neg :=
    count_where (fun i => (thr ≤ nth i outputs_k 0)%Qc ∧ nth i labels_k 0 = 0) R in
  {| tp := absorbed_pos;
     fp := absorbed_neg;
     fn := count_where (fun i => nth i labels_k 0 = 1) R - absorbed_pos;
     tn := count_where (fun i => nth i labels_k 0 = 0) R - absorbed_neg |}.

(** [a / b], NaN when [b] is zero. *)
Definition ratio (a b : Z) : float :=
  if decide (b = 0) then NaN else Fin (Qc_of_Z a / Qc_of_Z b)%Qc.

Definition TPR (c : counts) : float := ratio (tp c) (tp c + fn c).
Definition TNR (c : counts) : float := ratio (tn c) (fp c + tn c).
Definition PPV (c : counts) : float := ratio (tp c) (tp c + fp c).

Definition counts_zero : counts := Counts 0 0 0 0.

(** The sum over the consecutive pairs of thresholds of
    [0.5 * (TPR[j+1] - TPR[j]) * (TNR[j+1] + TNR[j])]. *)
Definition auroc_spec (cs : list counts) : float :=
  fsum (map (fun j =>
               (fhalf * (TPR (nth (j + 1) cs counts_zero) - TPR (nth j cs counts_zero))
                * (TNR (nth (j + 1) cs counts_zero) + TNR (nth j cs counts_zero)))%F)
            (seq 0 (length cs - 1))).

(** The sum over the consecutive pairs of thresholds of
    [(TPR[j+1] - TPR[j]) * PPV[j+1]]. *)
Definition auprc_spec (cs : list counts) : float :=
  fsum (map (fun j =>
               ((TPR (nth (j + 1) cs counts_zero) - TPR (nth j cs counts_zero))
                * PPV (nth (j + 1) cs counts_zero))%F)
            (seq 0 (length cs - 1))).

(** The counters in terms of the truth value that the loop tests, for
    labels of any value. *)
Definition counts_at (labels_k : list Z) (outputs_k : list Qc) (thr : Qc)
    : counts :=
  let R := length labels_k in
  let absorbed_pos :=
    count_where (fun i => (thr ≤ nth i outputs_k 0)%Qc
                          ∧ truth (nth i labels_k 0) = true) R in
  let absorbed_neg :=
    count_where (fun i => (thr ≤ nth i outputs_k 0)%Qc
                          ∧ truth (nth i labels_k 0) = false) R in
  {| tp := absorbed_pos;
     fp := absorbed_neg;
     fn := Z.of_nat (length (filter (fun l => l = 1) labels_k)) - absorbed_pos;
     tn := Z.of_nat (length (filter (fun l => l = 0) labels_k)) - absorbed_neg |}.

(** An order of the recordings that [np.argsort(outputs_k)[::-1]] may
    return: every recording once, the scores not increasing. *)
Definition descending_order (outputs_k : list Qc) (idx : list nat) : Prop :=
  idx ≡ₚ seq 0 (length outputs_k)
  ∧ StronglySorted (flip (key_le outputs_k)) idx.

(** The rows of [a] in the order [p] of the record indices. *)
Definition permute_rows {A} (p : list nat) (a : matrix A) : matrix A :=
  (fun i => nth i a []) <$> p.

(** Equality of floats as a test, for evaluating closed terms. *)
Definition float_eqb (x y : float) : bool :=
  match x, y with
  | NaN, NaN => true
  | Fin a, Fin b => Qeq_bool a b
  | _, _ => false
  end.

(** The weight with which recording [i] enters the confusion matrices:
    [1] without normalisation, [1.0 / max(np.sum(labels[i, :]), 1)] with
    it. *)
Definition recording_weight (normalize : bool) (L : matrix Z) (i : nat)
    : float :=
  if normalize then (f1 / float_of_Z (Z.max (row_sum (nth i L [])) 1))%F
  else f1.

(** The recordings below [R] whose prediction of class [k] is [o] and whose
    label of class [k] is [l]. *)
Definition cell_recordings (R : nat) (L B : matrix Z) (k : nat) (o l : Z)
    : list nat :=
  filter (fun i => at2 0 B i k = o ∧ at2 0 L i k = l) (seq 0 R).

(** The [(C, 2, 2)] array [A] holds the values [val]. *)
Definition cells_ok (C : nat) (A : list (matrix float))
    (val : nat → nat → nat → float) : Prop :=
  length A = C ∧ Forall (has_shape 2 2) A
  ∧ ∀ k a b, (k < C)%nat → (a < 2)%nat → (b < 2)%nat → at3 A k a b = val k a b.

Global Instance in_case_dec c l o : Decision (in_case c l o).
Proof. destruct c; apply _. Defined.

(** The number of recordings below [R] in case [c] for class [k]. *)
Definition case_count (R : nat) (L B : matrix Z) (k : nat) (c : confusion_case)
    : Z :=
  count_where (fun i => in_case c (at2 0 L i k) (at2 0 B i k)) R.

(** The entries of [l] at the positions where [flags] is true. *)
Definition pick {A} (flags : list bool) (l : list A) : list A :=
  (filter (fun p => p.2 = true) (zip l flags)).*1.

(** The values of [beta] at which the doubles of the code neither overflow
    nor underflow in [beta**2] and in the products of [beta] and [beta**2]
    with the counters: 0.0 and the numbers from [2^-256] to [2^256].
    Overflow and underflow are not part of the number model.  NaN is a
    value of [beta] like another. *)
Definition beta_in_range (beta : float) : Prop :=
  match beta with
  | NaN => True
  | Fin b =>
      b = 0%Qc
      ∨ (Qc_of_Z 1 ≤ b * Qc_of_Z (2 ^ 256))%Qc ∧ (b ≤ Qc_of_Z (2 ^ 256))%Qc
  end.

(** Weights whose sums of products with the entries of a modified
    confusion matrix stay inside the range of doubles. *)
Definition weight_in_range (w : float) : Prop :=
  match w with
  | NaN => True
  | Fin q => (- Qc_of_Z (2 ^ 512) ≤ q)%Qc ∧ (q ≤ Qc_of_Z (2 ^ 512))%Qc
  end.

Global Instance weight_in_range_dec w : Decision (weight_in_range w).
Proof. destruct w; apply _. Defined.

Definition weights_in_range (W : matrix float) : Prop :=
  Forall (Forall weight_in_range) W.

(** The entries of a list in the order of their first occurrences, each
    one once. *)
Fixpoint first_occurrences (l : list string) : list string :=
  match l with
  | [] => []
  | x :: l => x :: filter (fun y => y ≠ x) (first_occurrences l)
  end.

(** ** The challenge metric over the arithmetic of doubles

    The value of the challenge metric depends on a test for equality of two
    sums of doubles, which rounding decides.  This part models
    [_compute_modified_confusion_matrix] and [compute_challenge_metric]
    once more, over an arithmetic that is left open: a type of doubles with
    the operations that the two functions use.  What is proved of it holds
    for the doubles of the machine, with their rounding and their infinite
    values, as for the exact numbers of the rest of this file. *)

Class Float64 (F : Type) : Type := {
  (** [float(n)] of an integer, and the literals [0.0] and [1.0] *)
  float_of_int : Z → F;
  (** [x + y], [x - y], [x * y], [x / y] *)
  dadd : F → F → F;
  dsub : F → F → F;
  dmul : F → F → F;
  ddiv : F → F → F;
  (** [np.isnan(x)] *)
  is_nan : F → bool;
  (** [x != y] *)
  not_equal : F → F → bool;
  (** [np.sum] of the entries of an array, given in the order of its rows;
      the order in which numpy adds them is not fixed here *)
  np_sum : list F → F
}.

Module Doubles.
Section arithmetic.
Context {F : Type} `{!Float64 F}.

(** [np.zeros((n, m))]. *)
Definition zeros (n m : nat) : matrix F :=
  replicate n (replicate m (float_of_int 0)).

(** [A[j, k] += v]. *)
Definition add_at (A : matrix F) (j k : nat) (v : F) : matrix F :=
  alter (alter (fun x => dadd x v) k) j A.

Definition mcm_recording (num_classes : nat) (lrow orow : list Z)
    (A : matrix F) : matrix F :=
  let normalization := float_of_int (Z.max (count_any lrow orow) 1) in
  foldl (fun A j =>
           if truth (nth j lrow 0) then
             foldl (fun A k =>
                      if truth (nth k orow 0)
                      then add_at A j k (ddiv (float_of_int 1) normalization)
                      else A)
                   A (seq 0 num_classes)
           else A)
        A (seq 0 num_classes).

Definition _compute_modified_confusion_matrix
    (labels outputs : matrix Z) : matrix F :=
  let '(num_recordings, num_classes) := shape labels in
  foldl (fun A i => mcm_recording num_classes (nth i labels []) (nth i outputs []) A)
        (zeros num_classes num_classes) (seq 0 num_recordings).

(** [np.nansum]: the sum of the entries, with 0.0 in the place of every
    NaN. *)
Definition nansum (a : list F) : F :=
  np_sum (map (fun x => if is_nan x then float_of_int 0 else x) a).

(** [weights * A], elementwise, as the list of its entries row by row. *)
Definition mul_entries (weights A : matrix F) : list F :=
  concat (zip_with (zip_with dmul) weights A).

Definition compute_challenge_metric (weights : matrix F)
    (labels outputs : matrix Z) (classes : list string)
    (sinus_rhythm : string) : result F :=
  let '(num_recordings, num_classes) := shape labels in
  sinus_rhythm_index ←
    match index_of sinus_rhythm classes with
    | Some i => Ok i
    | None => Raise (ValueError "The sinus rhythm class is not available.")
    end;
  let A := _compute_modified_confusion_matrix labels outputs in
  let observed_score := nansum (mul_entries weights A) in
  let correct_outputs := labels in
  let A := _compute_modified_confusion_matrix labels correct_outputs in
  let correct_score := nansum (mul_entries weights A) in
  inactive_outputs ←
    (if decide (sinus_rhythm_index < num_classes)%nat
     then Ok (inactive num_recordings num_classes sinus_rhythm_index)
     else Raise IndexError);
  let A := _compute_modified_confusion_matrix labels inactive_outputs in
  let inactive_score := nansum (mul_entries weights A) in
  if not_equal correct_score inactive_score
  then
    (* the division is the one of Python's floats, which raises for a
       divisor that is zero *)
    let divisor := dsub correct_score inactive_score in
    if not_equal divisor (float_of_int 0)
    then Ok (ddiv (dsub observed_score inactive_score) divisor)
    else Raise ZeroDivisionError
  else Ok (float_of_int 0).

(** *** What the specification says of the challenge metric *)

(** [norm_i = max(|{k : L[i,k]=1 or B[i,k]=1}|, 1)], as a double. *)
Definition norm_spec (C : nat) (L B : matrix Z) (i : nat) : F :=
  float_of_int (Z.max (Z.of_nat (union_size C (nth i L []) (nth i B []))) 1).

(** [M[j,k]]: the sum, taken from 0.0 in the order of the recordings, of
    [1/norm_i] over the recordings [i] with [L[i,j] = 1] and
    [B[i,k] = 1]. *)
Definition modified_confusion_spec (R C : nat) (L B : matrix Z) (j k : nat)
    : F :=
  foldl dadd (float_of_int 0)
        (map (fun i => ddiv (float_of_int 1) (norm_spec C L B i))
             (filter (fun i => at2 0 L i j = 1 ∧ at2 0 B i k = 1) (seq 0 R))).

(** The NaN-ignoring sum of [W[j,k] * M[j,k]] over all [j], [k]. *)
Definition weighted_nansum (C : nat) (W : matrix F) (M : nat → nat → F) : F :=
  nansum (j ← seq 0 C; k ← seq 0 C; [dmul (at2 (float_of_int 0) W j k) (M j k)]).

(** [(observed - baseline) / (perfect - baseline)], and 0.0 when the test
    [perfect != baseline] of the doubles fails. *)
Definition challenge_score_spec (R C : nat) (W : matrix F)
    (L B : matrix Z) (classes : list string) (default : string) : F :=
  let observed := weighted_nansum C W (modified_confusion_spec R C L B) in
  let perfect := weighted_nansum C W (modified_confusion_spec R C L L) in
  let baseline :=
    weighted_nansum C W
      (modified_confusion_spec R C L (default_only R classes default)) in
  if not_equal perfect baseline
  then ddiv (dsub observed baseline) (dsub perfect baseline)
  else float_of_int 0.

End arithmetic.
End Doubles.

(** The exact numbers of this file are one such arithmetic, with the sum
    taken from left to right. *)
Global Instance exact_arithmetic : Float64 float := {|
  float_of_int := float_of_Z;
  dadd := fadd;
  dsub := fsub;
  dmul := fmul;
  ddiv := fdiv;
  is_nan := isnan;
  not_equal := fne;
  np_sum := fsum
|}.

(** The doubles of the machine are another: IEEE 754 binary64 with
    rounding to nearest even.  [float(n)] of an integer is built from its
    binary digits, which is exact below [2^53]; the sum is taken from left
    to right. *)
Fixpoint double_of_positive (p : positive) : PrimFloat.float :=
  match p with
  | xH => PrimFloat.one
  | xO p => PrimFloat.mul PrimFloat.two (double_of_positive p)
  | xI p =>
      PrimFloat.add (PrimFloat.mul PrimFloat.two (double_of_positive p))
                    PrimFloat.one
  end.

Definition double_of_int (n : Z) : PrimFloat.float :=
  match n with
  | Z0 => PrimFloat.zero
  | Zpos p => double_of_positive p
  | Zneg p => PrimFloat.opp (double_of_positive p)
  end.

Definition binary64 : Float64 PrimFloat.float := {|
  float_of_int := double_of_int;
  dadd := PrimFloat.add;
  dsub := PrimFloat.sub;
  dmul := PrimFloat.mul;
  ddiv := PrimFloat.div;
  is_nan := fun x => negb (PrimFloat.eqb x x);
  not_equal := fun x y => negb (PrimFloat.eqb x y);
  np_sum := foldl PrimFloat.add PrimFloat.zero
|}.

(** * Properties *)

(** ** Float arithmetic *)

Lemma fadd_0_r x : (x + f0)%F = x.
Proof. destruct x as [|a]; [done|]. cbn. by rewrite Qcplus_0_r. Qed.

Lemma nansum_acc_filter acc a :
  foldl (fun acc x => (acc + (if isnan x then f0 else x))%F) acc a
  = foldl fadd acc (filter (fun x => isnan x = false) a).
Proof.
  revert acc. induction a as [|x a IH]; intros acc; [done|].
  cbn [foldl]. rewrite IH. destruct x as [|q]; cbn [isnan].
  - rewrite fadd_0_r. by rewrite filter_cons_False.
  - by rewrite filter_cons_True.
Qed.

Lemma nansum_fsum a : nansum a = fsum (filter (fun x => isnan x = false) a).
Proof. apply nansum_acc_filter. Qed.

Lemma foldl_fadd_fin q a :
  Forall (fun x => isnan x = false) a → ∃ q', foldl fadd (Fin q) a = Fin q'.
Proof.
  revert q. induction a as [|x a IH]; intros q Ha; [by eexists|].
  inversion_clear Ha as [|?? Hx Ha']. destruct x as [|b]; [done|].
  cbn. by apply IH.
Qed.

Lemma nansum_fin a : ∃ q, nansum a = Fin q.
Proof.
  rewrite nansum_fsum. apply foldl_fadd_fin.
  apply Forall_forall. intros x Hx. by apply list_elem_of_filter in Hx as [? _].
Qed.

(** ** The membership test of [compute_challenge_metric] *)

Lemma index_of_Some x classes :
  x ∈ classes → ∃ i, index_of x classes = Some i ∧ classes !! i = Some x
                     ∧ (i < length classes)%nat.
Proof.
  intros Hx. unfold index_of.
  destruct (list_find_elem_of (fun c => c = x) classes x Hx eq_refl) as [[i y] Hf].
  rewrite Hf. exists i. apply list_find_Some in Hf as (Hi & -> & _).
  split_and!; [done|done|]. by eapply lookup_lt_Some.
Qed.

Lemma index_of_None x classes : x ∉ classes → index_of x classes = None.
Proof.
  intros Hx. unfold index_of.
  destruct (list_find _ classes) as [[i y]|] eqn:Hf; [|done].
  apply list_find_Some in Hf as (Hi & -> & _).
  destruct Hx. by eapply list_elem_of_lookup_2.
Qed.

(** C6.  For a C×C weight matrix and arrays [L] and [B] of shape R×C with
    at least one recording, [compute_challenge_metric] raises a
    [ValueError] exactly when the sinus rhythm class is not in the class
    list; it is the error with the message of that test, and no modified
    confusion matrix has been computed then (the log is empty); with the
    class in the list no [ValueError] is raised. *)
Theorem challenge_metric_value_error R C
    (W : matrix float) (L B : matrix Z) (classes : list string) (sr : string) :
  (0 < R)%nat → has_shape R C L → has_shape R C B → has_shape C C W →
  ((∃ msg, (compute_challenge_metric W L B classes sr).2 = Raise (ValueError msg))
   ↔ sr ∉ classes)
  ∧ (sr ∉ classes →
     compute_challenge_metric W L B classes sr
     = ([], Raise (ValueError "The sinus rhythm class is not available.")))
  ∧ (sr ∈ classes →
     ∀ msg, (compute_challenge_metric W L B classes sr).2 ≠ Raise (ValueError msg)).
Proof.
  intros _ _ _ _.
  assert (Hin : sr ∈ classes →
     ∀ msg, (compute_challenge_metric W L B classes sr).2 ≠ Raise (ValueError msg)).
  { intros Hx msg. unfold compute_challenge_metric.
    destruct (shape L) as [R' C'].
    destruct (index_of_Some _ _ Hx) as (i & -> & _).
    cbn. destruct (decide (i < C')%nat); cbn; [|done].
    by destruct (fne _ _). }
  assert (Hout : sr ∉ classes →
     compute_challenge_metric W L B classes sr
     = ([], Raise (ValueError "The sinus rhythm class is not available."))).
  { intros Hx. unfold compute_challenge_metric.
    destruct (shape L) as [R' C']. by rewrite (index_of_None _ _ Hx). }
  split_and!; [|done|done].
  split.
  - intros [msg Hmsg] Hx. by eapply Hin.
  - intros Hx. rewrite (Hout Hx). by eexists.
Qed.

Lemma challenge_metric_value_error_witness :
  compute_challenge_metric [[f1]] [[1]] [[1]] ["NSR"] "SB"
  = ([], Raise (ValueError "The sinus rhythm class is not available."))
  ∧ ∀ msg, (compute_challenge_metric [[f1]] [[1]] [[1]] ["NSR"] "NSR").2
           ≠ Raise (ValueError msg).
Proof.
  destruct (challenge_metric_value_error 1 1 [[f1]] [[1]] [[1]] ["NSR"] "SB")
    as (_ & Hout & _); [lia|unfold has_shape; apply (bool_decide_unpack _); by vm_compute..|].
  destruct (challenge_metric_value_error 1 1 [[f1]] [[1]] [[1]] ["NSR"] "NSR")
    as (_ & _ & Hin); [lia|unfold has_shape; apply (bool_decide_unpack _); by vm_compute..|].
  split; [apply Hout|apply Hin]; apply (bool_decide_unpack _); by vm_compute.
Defined.

(** ** Matrices *)

Lemma has_shape_zeros n m : has_shape n m (zeros n m).
Proof.
  split; [apply length_replicate|].
  apply Forall_replicate, length_replicate.
Qed.

Lemma at2_zeros n m j k : at2 f0 (zeros n m) j k = f0.
Proof.
  unfold at2, zeros. rewrite !nth_lookup.
  destruct (replicate n _ !! j) as [row|] eqn:Hrow; cbn.
  - apply lookup_replicate in Hrow as [-> _].
    destruct (replicate m f0 !! k) as [x|] eqn:Hx; cbn; [|done].
    by apply lookup_replicate in Hx as [-> _].
  - by destruct k.
Qed.

Lemma has_shape_add_at r c A j k v :
  has_shape r c A → has_shape r c (add_at A j k v).
Proof.
  intros [Hr Hc]. split; unfold add_at.
  - by rewrite length_alter.
  - apply Forall_alter; [done|]. intros row _ Hrow. by rewrite length_alter.
Qed.

Lemma has_shape_row {A} r c (a : matrix A) i :
  has_shape r c a → (i < r)%nat → length (nth i a []) = c.
Proof.
  intros [Hr Hc] Hi. rewrite Forall_nth in Hc. apply Hc. lia.
Qed.

Lemma at2_add_at r c A j k v j' k' :
  has_shape r c A → (j < r)%nat → (k < c)%nat →
  at2 f0 (add_at A j k v) j' k'
  = if decide (j' = j ∧ k' = k) then (at2 f0 A j k + v)%F else at2 f0 A j' k'.
Proof.
  intros HA Hj Hk. pose proof (has_shape_row _ _ _ j HA Hj) as Hrow.
  destruct HA as [Hr Hc]. unfold at2, add_at. rewrite !nth_lookup.
  rewrite list_lookup_alter.
  destruct (lookup_lt_is_Some_2 A j) as [row Hj']; [lia|].
  rewrite nth_lookup, Hj' in Hrow. cbn in Hrow.
  destruct (decide (j = j')) as [<-|Hne].
  - rewrite Hj'. cbn. rewrite list_lookup_alter.
    destruct (decide (k = k')) as [<-|Hne].
    + destruct (lookup_lt_is_Some_2 row k) as [x ->]; [lia|].
      by rewrite decide_True.
    + rewrite decide_False; [done|]. by intros [_ ->].
  - rewrite decide_False; [done|]. by intros [-> _].
Qed.

(** ** The modified confusion matrix *)

(** Settles a decidable statement about concrete data by evaluating it. *)
Local Ltac by_compute := apply (bool_decide_unpack _); by vm_compute.

(** Compares the conditions under which two loops have touched a cell. *)
Local Ltac cell_cases :=
  repeat case_decide; rewrite ?elem_of_cons in *;
  first [ by (destruct_and?; subst)
        | exfalso; destruct_and?; subst; intuition (subst; congruence) ].

Section mcm_recording.
Variables (C : nat) (lrow orow : list Z) (v : float).

Let inner (j : nat) (A : matrix float) (ks : list nat) : matrix float :=
  foldl (fun A k => if truth (nth k orow 0) then add_at A j k v else A) A ks.

Let outer (A : matrix float) (js ks : list nat) : matrix float :=
  foldl (fun A j => if truth (nth j lrow 0) then inner j A ks else A) A js.

Lemma mcm_inner_shape j A ks : has_shape C C A → has_shape C C (inner j A ks).
Proof.
  revert A. induction ks as [|k ks IH]; intros A HA; [done|].
  cbn. apply IH. destruct (truth _); [|done]. by apply has_shape_add_at.
Qed.

Lemma mcm_inner_at j A ks j' k' :
  has_shape C C A → (j < C)%nat → Forall (fun k => (k < C)%nat) ks → NoDup ks →
  at2 f0 (inner j A ks) j' k'
  = if decide (j' = j ∧ k' ∈ ks ∧ truth (nth k' orow 0) = true)
    then (at2 f0 A j' k' + v)%F else at2 f0 A j' k'.
Proof.
  intros HA Hj. revert A HA.
  induction ks as [|k ks IH]; intros A HA Hks Hnd.
  { cbn. rewrite decide_False; [done|]. intros (_ & []%elem_of_nil & _). }
  inversion_clear Hks as [|?? Hk Hks']. inversion_clear Hnd as [|?? Hnk Hnd'].
  assert (has_shape C C (if truth (nth k orow 0) then add_at A j k v else A)) as HA'.
  { destruct (truth (nth k orow 0)); [|done]. by apply has_shape_add_at. }
  unfold inner in IH |- *. cbn [foldl]. rewrite (IH _ HA' Hks' Hnd').
  destruct (truth (nth k orow 0)) eqn:Hto.
  - rewrite (at2_add_at C C) by done.
    cell_cases.
  - cell_cases.
Qed.

Lemma mcm_outer_shape A js ks : has_shape C C A → has_shape C C (outer A js ks).
Proof.
  revert A. induction js as [|j js IH]; intros A HA; [done|].
  cbn. apply IH. destruct (truth _); [|done]. by apply mcm_inner_shape.
Qed.

Lemma mcm_outer_at A js ks j' k' :
  has_shape C C A →
  Forall (fun j => (j < C)%nat) js → NoDup js →
  Forall (fun k => (k < C)%nat) ks → NoDup ks →
  at2 f0 (outer A js ks) j' k'
  = if decide (j' ∈ js ∧ truth (nth j' lrow 0) = true
               ∧ k' ∈ ks ∧ truth (nth k' orow 0) = true)
    then (at2 f0 A j' k' + v)%F else at2 f0 A j' k'.
Proof.
  intros HA Hjs Hnd Hks Hndk. revert A HA.
  induction js as [|j js IH]; intros A HA.
  { cbn. rewrite decide_False; [done|]. intros ([]%elem_of_nil & _). }
  inversion_clear Hjs as [|?? Hj Hjs']. inversion_clear Hnd as [|?? Hnj Hnd'].
  unfold outer in IH |- *. cbn [foldl].
  assert (has_shape C C (if truth (nth j lrow 0) then inner j A ks else A)) as HA'.
  { destruct (truth (nth j lrow 0)); [|done]. by apply mcm_inner_shape. }
  rewrite (IH Hjs' Hnd' _ HA').
  destruct (truth (nth j lrow 0)) eqn:Htl.
  - rewrite mcm_inner_at by done.
    cell_cases.
  - cell_cases.
Qed.
End mcm_recording.

Lemma mcm_recording_shape C lrow orow A :
  has_shape C C A → has_shape C C (mcm_recording C lrow orow A).
Proof. apply mcm_outer_shape. Qed.

Lemma mcm_recording_at C lrow orow A j k :
  has_shape C C A → (j < C)%nat → (k < C)%nat →
  at2 f0 (mcm_recording C lrow orow A) j k
  = if decide (truth (nth j lrow 0) = true ∧ truth (nth k orow 0) = true)
    then (at2 f0 A j k
          + f1 / float_of_Z (Z.max (count_any lrow orow) 1))%F
    else at2 f0 A j k.
Proof.
  intros HA Hj Hk. unfold mcm_recording.
  rewrite (mcm_outer_at C)
    by first [done | apply NoDup_seq | apply Forall_seq; lia].
  assert (j ∈ seq 0 C ∧ k ∈ seq 0 C) as [??] by (rewrite !elem_of_seq; lia).
  repeat case_decide; first [done | exfalso; tauto].
Qed.

Lemma mcm_records_shape C (labels outputs : matrix Z) A (recs : list nat) :
  has_shape C C A →
  has_shape C C
    (foldl (fun A i => mcm_recording C (nth i labels []) (nth i outputs []) A)
           A recs).
Proof.
  revert A. induction recs as [|i recs IH]; intros A HA; [done|].
  cbn. by apply IH, mcm_recording_shape.
Qed.

Lemma mcm_records_at C (labels outputs : matrix Z) A (recs : list nat) j k :
  has_shape C C A → (j < C)%nat → (k < C)%nat →
  at2 f0
    (foldl (fun A i => mcm_recording C (nth i labels []) (nth i outputs []) A)
           A recs) j k
  = foldl fadd (at2 f0 A j k)
      (map (fun i => (f1 / float_of_Z
                        (Z.max (count_any (nth i labels []) (nth i outputs [])) 1))%F)
           (filter (fun i => truth (at2 0 labels i j) = true
                             ∧ truth (at2 0 outputs i k) = true) recs)).
Proof.
  intros HA Hj Hk. revert A HA.
  induction recs as [|i recs IH]; intros A HA; [done|].
  cbn [foldl]. rewrite IH by by apply mcm_recording_shape.
  rewrite mcm_recording_at by done. unfold at2 at 2 3.
  case_decide.
  - by rewrite filter_cons_True.
  - by rewrite filter_cons_False.
Qed.

(** *** Counting by position *)

Lemma filter_ext_elem {A} (P Q : A → Prop) `{!∀ x, Decision (P x)}
    `{!∀ x, Decision (Q x)} (l : list A) :
  (∀ x, x ∈ l → P x ↔ Q x) → filter P l = filter Q l.
Proof.
  induction l as [|x l IH]; intros Hl; [done|].
  rewrite !filter_cons, IH by (intros; apply Hl; by right).
  destruct (decide (P x)) as [HP|HP], (decide (Q x)) as [HQ|HQ]; try done;
    exfalso; apply (Hl x) in HP || apply (Hl x) in HQ; done || by left.
Qed.

Lemma filter_none {A} (P : A → Prop) `{!∀ x, Decision (P x)} (l : list A) :
  Forall (fun x => ¬ P x) l → filter P l = [].
Proof.
  induction 1 as [|x l Hx _ IH]; [done|]. by rewrite filter_cons_False.
Qed.

Lemma filter_all {A} (P : A → Prop) `{!∀ x, Decision (P x)} (l : list A) :
  Forall P l → filter P l = l.
Proof.
  induction 1 as [|x l Hx _ IH]; [done|]. by rewrite filter_cons_True, IH.
Qed.

Lemma length_filter_positions {A} (d : A) (P : A → Prop)
    `{!∀ x, Decision (P x)} (l : list A) :
  length (filter P l)
  = length (filter (fun k => P (nth k l d)) (seq 0 (length l))).
Proof.
  induction l as [|x l IH] using rev_ind; [done|].
  rewrite length_app, Nat.add_1_r, seq_S, !filter_app, !length_app. cbn [length].
  rewrite IH. f_equal.
  - f_equal. apply filter_ext_elem. intros k Hk%elem_of_seq.
    by rewrite app_nth1 by lia.
  - rewrite !filter_cons, !filter_nil. cbn.
    rewrite app_nth2, Nat.sub_diag by lia. cbn.
    by destruct (decide (P x)).
Qed.

Lemma binary_at (a : matrix Z) i j :
  binary a → at2 0 a i j = 0 ∨ at2 0 a i j = 1.
Proof.
  intros Ha. unfold at2. rewrite !nth_lookup.
  destruct (a !! i) as [row|] eqn:Hrow; cbn.
  - eapply Forall_lookup_1 in Ha; [|done].
    destruct (row !! j) as [x|] eqn:Hx; cbn; [|by left].
    by eapply Forall_lookup_1 in Ha.
  - destruct j; by left.
Qed.

Lemma truth_binary x : x = 0 ∨ x = 1 → truth x = true ↔ x = 1.
Proof. by intros [-> | ->]. Qed.

Lemma count_any_union_size C lrow orow :
  length lrow = C → length orow = C →
  Forall (fun x => x = 0 ∨ x = 1) lrow → Forall (fun x => x = 0 ∨ x = 1) orow →
  count_any lrow orow = Z.of_nat (union_size C lrow orow).
Proof.
  intros Hl Ho Hbl Hbo. unfold count_any, union_size. f_equal.
  rewrite (length_filter_positions false), length_zip_with_l_eq, Hl by lia.
  f_equal. apply filter_ext_elem. intros k Hk%elem_of_seq.
  rewrite nth_lookup, lookup_zip_with.
  destruct (lookup_lt_is_Some_2 lrow k) as [l Hlk]; [lia|].
  destruct (lookup_lt_is_Some_2 orow k) as [o Hok]; [lia|].
  rewrite !(nth_lookup_Some _ _ _ _ Hlk), !(nth_lookup_Some _ _ _ _ Hok), Hlk, Hok.
  cbn. rewrite orb_true_iff, !truth_binary; [done|..].
  - by eapply Forall_lookup_1 in Hbo.
  - by eapply Forall_lookup_1 in Hbl.
Qed.

Lemma shape_has_shape {A} R C (a : matrix A) :
  (0 < R)%nat → has_shape R C a → shape a = (R, C).
Proof.
  intros HR Ha. unfold shape. rewrite (has_shape_row R C a 0 Ha HR).
  by destruct Ha as [-> _].
Qed.

Lemma binary_row (a : matrix Z) i :
  binary a → Forall (fun x => x = 0 ∨ x = 1) (nth i a []).
Proof.
  intros Ha. rewrite nth_lookup. destruct (a !! i) as [row|] eqn:Hrow; cbn.
  - by eapply Forall_lookup_1 in Ha.
  - constructor.
Qed.

Lemma modified_confusion_shape R C L B :
  (0 < R)%nat → has_shape R C L →
  has_shape C C (_compute_modified_confusion_matrix L B).
Proof.
  intros HR HL. unfold _compute_modified_confusion_matrix.
  rewrite (shape_has_shape R C) by done.
  apply mcm_records_shape, has_shape_zeros.
Qed.

Lemma modified_confusion_at R C L B j k :
  (0 < R)%nat → has_shape R C L → has_shape R C B → binary L → binary B →
  (j < C)%nat → (k < C)%nat →
  at2 f0 (_compute_modified_confusion_matrix L B) j k
  = modified_confusion_spec R C L B j k.
Proof.
  intros HR HL HB HbL HbB Hj Hk.
  unfold _compute_modified_confusion_matrix, modified_confusion_spec, fsum.
  rewrite (shape_has_shape R C) by done.
  rewrite mcm_records_at by (done || apply has_shape_zeros).
  rewrite at2_zeros.
  rewrite (filter_ext_elem _ (fun i => at2 0 L i j = 1 ∧ at2 0 B i k = 1)).
  2:{ intros i _. by rewrite !truth_binary by by apply binary_at. }
  f_equal. apply map_ext_in. intros i [_ Hi%elem_of_seq]%list_elem_of_In%list_elem_of_filter.
  unfold norm_spec. rewrite (count_any_union_size C); [done|..].
  - apply (has_shape_row R C); [done|lia].
  - apply (has_shape_row R C); [done|lia].
  - by apply binary_row.
  - by apply binary_row.
Qed.

(** C3.  For 0/1 arrays [L] and [B] of shape R×C the result of
    [_compute_modified_confusion_matrix] is the C×C matrix whose entry
    [(j, k)] (row: true class, column: predicted class) is the sum of
    [1/norm_i] over the recordings [i] with [L[i,j] = 1] and [B[i,k] = 1],
    [norm_i] being the size of the union of the true and the predicted
    classes of recording [i], at least 1.  The matrix need not be symmetric:
    for one recording of true class 0 and predicted class 1 the entry (0, 1)
    differs from the entry (1, 0). *)
Theorem modified_confusion_matrix_entries :
  (∀ R C L B,
     (0 < R)%nat → has_shape R C L → has_shape R C B → binary L → binary B →
     has_shape C C (_compute_modified_confusion_matrix L B)
     ∧ ∀ j k, (j < C)%nat → (k < C)%nat →
         at2 f0 (_compute_modified_confusion_matrix L B) j k
         = modified_confusion_spec R C L B j k)
  ∧ (∃ L B, has_shape 1 2 L ∧ has_shape 1 2 B ∧ binary L ∧ binary B
       ∧ at2 f0 (_compute_modified_confusion_matrix L B) 0 1
         ≠ at2 f0 (_compute_modified_confusion_matrix L B) 1 0).
Proof.
  split.
  - intros R C L B HR HL HB HbL HbB. split.
    + by eapply modified_confusion_shape.
    + intros j k Hj Hk. by apply modified_confusion_at.
  - exists [[1; 0]], [[0; 1]]. unfold has_shape, binary.
    split_and!; try by repeat constructor.
Qed.

Lemma modified_confusion_matrix_entries_witness :
  let L := [[1; 1]; [0; 1]] in
  let B := [[1; 0]; [1; 1]] in
  has_shape 2 2 (_compute_modified_confusion_matrix L B)
  ∧ ∀ j k, (j < 2)%nat → (k < 2)%nat →
      at2 f0 (_compute_modified_confusion_matrix L B) j k
      = modified_confusion_spec 2 2 L B j k.
Proof.
  intros L B.
  apply (proj1 modified_confusion_matrix_entries 2%nat 2%nat L B);
    unfold has_shape, binary; by_compute.
Defined.

(** ** The challenge metric *)

Lemma zip_with_positions {A B D} (f : A → B → D) d1 d2 n l1 l2 :
  length l1 = n → length l2 = n →
  zip_with f l1 l2 = map (fun i => f (nth i l1 d1) (nth i l2 d2)) (seq 0 n).
Proof.
  intros H1 H2. apply list_eq. intros i.
  rewrite lookup_zip_with, list_lookup_fmap.
  destruct (decide (i < n)%nat) as [Hi|Hi].
  - rewrite lookup_seq_lt by done. cbn. rewrite !nth_lookup.
    destruct (lookup_lt_is_Some_2 l1 i) as [x ->]; [lia|].
    destruct (lookup_lt_is_Some_2 l2 i) as [y ->]; [lia|]. done.
  - rewrite lookup_seq_ge by lia.
    by rewrite (lookup_ge_None_2 l1) by lia.
Qed.

Lemma list_bind_concat {A B} (f : A → list B) (l : list A) :
  l ≫= f = concat (f <$> l).
Proof. induction l as [|x l IH]; [done|]. cbn. by rewrite IH. Qed.

Lemma list_bind_singleton {A B} (g : A → B) (l : list A) :
  (k ← l; [g k]) = g <$> l.
Proof. induction l as [|x l IH]; [done|]. cbn. by rewrite IH. Qed.

Lemma mul_entries_positions C W A :
  has_shape C C W → has_shape C C A →
  mul_entries W A
  = (j ← seq 0 C; k ← seq 0 C; [(at2 f0 W j k * at2 f0 A j k)%F]).
Proof.
  intros HW HA. unfold mul_entries.
  rewrite (zip_with_positions _ [] [] C) by (by destruct HW, HA).
  rewrite list_bind_concat. f_equal. apply map_ext_in.
  intros j Hj%list_elem_of_In%elem_of_seq.
  rewrite list_bind_singleton.
  apply (zip_with_positions _ f0 f0 C); apply (has_shape_row C C); done || lia.
Qed.

Lemma weighted_nansum_ext C W M M' :
  (∀ j k, (j < C)%nat → (k < C)%nat → M j k = M' j k) →
  weighted_nansum C W M = weighted_nansum C W M'.
Proof.
  intros HM. unfold weighted_nansum. do 2 f_equal.
  rewrite !list_bind_concat. f_equal. apply map_ext_in.
  intros j Hj%list_elem_of_In%elem_of_seq.
  rewrite !list_bind_singleton. apply map_ext_in.
  intros k Hk%list_elem_of_In%elem_of_seq. rewrite HM; [done|lia..].
Qed.

Lemma nansum_weighted R C W L B :
  (0 < R)%nat → has_shape R C L → has_shape R C B → binary L → binary B →
  has_shape C C W →
  nansum (mul_entries W (_compute_modified_confusion_matrix L B))
  = weighted_nansum C W (modified_confusion_spec R C L B).
Proof.
  intros HR HL HB HbL HbB HW.
  rewrite nansum_fsum, (mul_entries_positions C)
    by (done || by eapply modified_confusion_shape).
  apply (weighted_nansum_ext C W (at2 f0 _)).
  intros j k Hj Hk. by apply modified_confusion_at.
Qed.

Lemma inactive_default_only R classes sr i :
  NoDup classes → classes !! i = Some sr →
  inactive R (length classes) i = default_only R classes sr.
Proof.
  intros Hnd Hi. unfold inactive, default_only. f_equal.
  apply list_eq. intros k.
  rewrite list_lookup_insert, length_replicate, list_lookup_fmap.
  pose proof (lookup_lt_Some _ _ _ Hi) as Hlt.
  destruct (decide (i = k)) as [<-|Hne].
  - rewrite decide_True, Hi by done. cbn. by rewrite decide_True.
  - rewrite decide_False by (by intros [? _]).
    destruct (classes !! k) as [c|] eqn:Hk; cbn.
    + rewrite lookup_replicate_2 by (by eapply lookup_lt_Some).
      rewrite decide_False; [done|]. intros ->.
      by destruct Hne; eapply NoDup_lookup.
    + apply lookup_replicate_None. by apply lookup_ge_None.
Qed.

Lemma default_only_shape R classes sr :
  has_shape R (length classes) (default_only R classes sr).
Proof.
  split; [apply length_replicate|].
  apply Forall_replicate. by rewrite length_map.
Qed.

Lemma default_only_binary R classes sr : binary (default_only R classes sr).
Proof.
  apply Forall_replicate, Forall_fmap, Forall_forall. intros c _. cbn.
  case_decide; [by right|by left].
Qed.

Lemma fne_decide x y :
  isnan x = false → isnan y = false →
  fne x y = negb (bool_decide (x = y)).
Proof.
  destruct x as [|a], y as [|b]; try done. intros _ _. cbn.
  destruct (decide (a = b)) as [->|Hne].
  - rewrite bool_decide_eq_false_2 by (by intros []).
    by rewrite bool_decide_eq_true_2.
  - rewrite bool_decide_eq_true_2 by done.
    rewrite bool_decide_eq_false_2; [done|]. by intros [= ->].
Qed.

Local Arguments _compute_modified_confusion_matrix : simpl never.
Local Arguments nansum : simpl never.
Local Arguments inactive : simpl never.

(** ** The challenge metric over the arithmetic of doubles *)

Section doubles.
Context {F : Type} `{!Float64 F}.

Lemma doubles_has_shape_zeros n m : has_shape n m (Doubles.zeros (F := F) n m).
Proof.
  split; [apply length_replicate|].
  apply Forall_replicate, length_replicate.
Qed.

Lemma doubles_at2_zeros n m j k :
  at2 (float_of_int 0) (Doubles.zeros (F := F) n m) j k = float_of_int 0.
Proof.
  unfold at2, Doubles.zeros. rewrite !nth_lookup.
  destruct (replicate n _ !! j) as [row|] eqn:Hrow; cbn.
  - apply lookup_replicate in Hrow as [-> _].
    destruct (replicate m _ !! k) as [x|] eqn:Hx; cbn; [|done].
    by apply lookup_replicate in Hx as [-> _].
  - by destruct k.
Qed.

Lemma doubles_has_shape_add_at r c (A : matrix F) j k v :
  has_shape r c A → has_shape r c (Doubles.add_at A j k v).
Proof.
  intros [Hr Hc]. split; unfold Doubles.add_at.
  - by rewrite length_alter.
  - apply Forall_alter; [done|]. intros row _ Hrow. by rewrite length_alter.
Qed.

Lemma doubles_at2_add_at r c (A : matrix F) j k v j' k' d :
  has_shape r c A → (j < r)%nat → (k < c)%nat →
  at2 d (Doubles.add_at A j k v) j' k'
  = if decide (j' = j ∧ k' = k) then dadd (at2 d A j k) v else at2 d A j' k'.
Proof.
  intros HA Hj Hk. pose proof (has_shape_row _ _ _ j HA Hj) as Hrow.
  destruct HA as [Hr Hc]. unfold at2, Doubles.add_at. rewrite !nth_lookup.
  rewrite list_lookup_alter.
  destruct (lookup_lt_is_Some_2 A j) as [row Hj']; [lia|].
  rewrite nth_lookup, Hj' in Hrow. cbn in Hrow.
  destruct (decide (j = j')) as [<-|Hne].
  - rewrite Hj'. cbn. rewrite list_lookup_alter.
    destruct (decide (k = k')) as [<-|Hne].
    + destruct (lookup_lt_is_Some_2 row k) as [x ->]; [lia|].
      by rewrite decide_True.
    + rewrite decide_False; [done|]. by intros [_ ->].
  - rewrite decide_False; [done|]. by intros [-> _].
Qed.

Section recording.
Variables (C : nat) (lrow orow : list Z) (v d : F).

Let inner (j : nat) (A : matrix F) (ks : list nat) : matrix F :=
  foldl (fun A k => if truth (nth k orow 0) then Doubles.add_at A j k v else A)
        A ks.

Let outer (A : matrix F) (js ks : list nat) : matrix F :=
  foldl (fun A j => if truth (nth j lrow 0) then inner j A ks else A) A js.

Lemma doubles_inner_shape j A ks :
  has_shape C C A → has_shape C C (inner j A ks).
Proof.
  revert A. induction ks as [|k ks IH]; intros A HA; [done|].
  cbn. apply IH. destruct (truth _); [|done]. by apply doubles_has_shape_add_at.
Qed.

Lemma doubles_inner_at j A ks j' k' :
  has_shape C C A → (j < C)%nat → Forall (fun k => (k < C)%nat) ks → NoDup ks →
  at2 d (inner j A ks) j' k'
  = if decide (j' = j ∧ k' ∈ ks ∧ truth (nth k' orow 0) = true)
    then dadd (at2 d A j' k') v else at2 d A j' k'.
Proof.
  intros HA Hj. revert A HA.
  induction ks as [|k ks IH]; intros A HA Hks Hnd.
  { cbn. rewrite decide_False; [done|]. intros (_ & []%elem_of_nil & _). }
  inversion_clear Hks as [|?? Hk Hks']. inversion_clear Hnd as [|?? Hnk Hnd'].
  assert (has_shape C C
            (if truth (nth k orow 0) then Doubles.add_at A j k v else A)) as HA'.
  { destruct (truth (nth k orow 0)); [|done]. by apply doubles_has_shape_add_at. }
  unfold inner in IH |- *. cbn [foldl]. rewrite (IH _ HA' Hks' Hnd').
  destruct (truth (nth k orow 0)) eqn:Hto.
  - rewrite (doubles_at2_add_at C C) by done.
    cell_cases.
  - cell_cases.
Qed.

Lemma doubles_outer_shape A js ks :
  has_shape C C A → has_shape C C (outer A js ks).
Proof.
  revert A. induction js as [|j js IH]; intros A HA; [done|].
  cbn. apply IH. destruct (truth _); [|done]. by apply doubles_inner_shape.
Qed.

Lemma doubles_outer_at A js ks j' k' :
  has_shape C C A →
  Forall (fun j => (j < C)%nat) js → NoDup js →
  Forall (fun k => (k < C)%nat) ks → NoDup ks →
  at2 d (outer A js ks) j' k'
  = if decide (j' ∈ js ∧ truth (nth j' lrow 0) = true
               ∧ k' ∈ ks ∧ truth (nth k' orow 0) = true)
    then dadd (at2 d A j' k') v else at2 d A j' k'.
Proof.
  intros HA Hjs Hnd Hks Hndk. revert A HA.
  induction js as [|j js IH]; intros A HA.
  { cbn. rewrite decide_False; [done|]. intros ([]%elem_of_nil & _). }
  inversion_clear Hjs as [|?? Hj Hjs']. inversion_clear Hnd as [|?? Hnj Hnd'].
  unfold outer in IH |- *. cbn [foldl].
  assert (has_shape C C (if truth (nth j lrow 0) then inner j A ks else A)) as HA'.
  { destruct (truth (nth j lrow 0)); [|done]. by apply doubles_inner_shape. }
  rewrite (IH Hjs' Hnd' _ HA').
  destruct (truth (nth j lrow 0)) eqn:Htl.
  - rewrite doubles_inner_at by done.
    cell_cases.
  - cell_cases.
Qed.
End recording.

Lemma doubles_recording_shape C lrow orow (A : matrix F) :
  has_shape C C A → has_shape C C (Doubles.mcm_recording C lrow orow A).
Proof. apply doubles_outer_shape. Qed.

Lemma doubles_recording_at C lrow orow (A : matrix F) j k d :
  has_shape C C A → (j < C)%nat → (k < C)%nat →
  at2 d (Doubles.mcm_recording C lrow orow A) j k
  = if decide (truth (nth j lrow 0) = true ∧ truth (nth k orow 0) = true)
    then dadd (at2 d A j k)
              (ddiv (float_of_int 1)
                    (float_of_int (Z.max (count_any lrow orow) 1)))
    else at2 d A j k.
Proof.
  intros HA Hj Hk. unfold Doubles.mcm_recording.
  rewrite (doubles_outer_at C)
    by first [done | apply NoDup_seq | apply Forall_seq; lia].
  assert (j ∈ seq 0 C ∧ k ∈ seq 0 C) as [??] by (rewrite !elem_of_seq; lia).
  repeat case_decide; first [done | exfalso; tauto].
Qed.

Lemma doubles_records_shape C (labels outputs : matrix Z) (A : matrix F)
    (recs : list nat) :
  has_shape C C A →
  has_shape C C
    (foldl (fun A i => Doubles.mcm_recording C (nth i labels [])
                         (nth i outputs []) A)
           A recs).
Proof.
  revert A. induction recs as [|i recs IH]; intros A HA; [done|].
  cbn. by apply IH, doubles_recording_shape.
Qed.

Lemma doubles_records_at C (labels outputs : matrix Z) (A : matrix F)
    (recs : list nat) j k d :
  has_shape C C A → (j < C)%nat → (k < C)%nat →
  at2 d
    (foldl (fun A i => Doubles.mcm_recording C (nth i labels [])
                         (nth i outputs []) A)
           A recs) j k
  = foldl dadd (at2 d A j k)
      (map (fun i => ddiv (float_of_int 1)
                       (float_of_int
                          (Z.max (count_any (nth i labels []) (nth i outputs [])) 1)))
           (filter (fun i => truth (at2 0 labels i j) = true
                             ∧ truth (at2 0 outputs i k) = true) recs)).
Proof.
  intros HA Hj Hk. revert A HA.
  induction recs as [|i recs IH]; intros A HA; [done|].
  cbn [foldl]. rewrite IH by by apply doubles_recording_shape.
  rewrite doubles_recording_at by done. unfold at2 at 2 3.
  case_decide.
  - by rewrite filter_cons_True.
  - by rewrite filter_cons_False.
Qed.

Lemma doubles_modified_confusion_shape R C L B :
  (0 < R)%nat → has_shape R C L →
  has_shape C C (Doubles._compute_modified_confusion_matrix (F := F) L B).
Proof.
  intros HR HL. unfold Doubles._compute_modified_confusion_matrix.
  rewrite (shape_has_shape R C) by done.
  apply doubles_records_shape, doubles_has_shape_zeros.
Qed.

(** The entries of the matrix that the loops build are the sums of the
    specification, added in the same order. *)
Lemma doubles_modified_confusion_at R C L B j k :
  (0 < R)%nat → has_shape R C L → has_shape R C B → binary L → binary B →
  (j < C)%nat → (k < C)%nat →
  at2 (float_of_int 0) (Doubles._compute_modified_confusion_matrix (F := F) L B) j k
  = Doubles.modified_confusion_spec R C L B j k.
Proof.
  intros HR HL HB HbL HbB Hj Hk.
  unfold Doubles._compute_modified_confusion_matrix, Doubles.modified_confusion_spec.
  rewrite (shape_has_shape R C) by done.
  rewrite doubles_records_at by (done || apply doubles_has_shape_zeros).
  rewrite doubles_at2_zeros.
  rewrite (filter_ext_elem _ (fun i => at2 0 L i j = 1 ∧ at2 0 B i k = 1)).
  2:{ intros i _. by rewrite !truth_binary by by apply binary_at. }
  f_equal. apply map_ext_in.
  intros i [_ Hi%elem_of_seq]%list_elem_of_In%list_elem_of_filter.
  unfold Doubles.norm_spec. rewrite (count_any_union_size C); [done|..].
  - apply (has_shape_row R C); [done|lia].
  - apply (has_shape_row R C); [done|lia].
  - by apply binary_row.
  - by apply binary_row.
Qed.

Lemma doubles_mul_entries_positions C (W A : matrix F) d :
  has_shape C C W → has_shape C C A →
  Doubles.mul_entries W A
  = (j ← seq 0 C; k ← seq 0 C; [dmul (at2 d W j k) (at2 d A j k)]).
Proof.
  intros HW HA. unfold Doubles.mul_entries.
  rewrite (zip_with_positions _ [] [] C) by (by destruct HW, HA).
  rewrite list_bind_concat. f_equal. apply map_ext_in.
  intros j Hj%list_elem_of_In%elem_of_seq.
  rewrite list_bind_singleton.
  apply (zip_with_positions _ d d C); apply (has_shape_row C C); done || lia.
Qed.

Lemma doubles_nansum_weighted R C (W : matrix F) L B :
  (0 < R)%nat → has_shape R C L → has_shape R C B → binary L → binary B →
  has_shape C C W →
  Doubles.nansum
    (Doubles.mul_entries W (Doubles._compute_modified_confusion_matrix L B))
  = Doubles.weighted_nansum C W (Doubles.modified_confusion_spec R C L B).
Proof.
  intros HR HL HB HbL HbB HW.
  rewrite (doubles_mul_entries_positions C _ _ (float_of_int 0))
    by (done || by eapply doubles_modified_confusion_shape).
  unfold Doubles.weighted_nansum. f_equal.
  rewrite !list_bind_concat. f_equal. apply map_ext_in.
  intros j Hj%list_elem_of_In%elem_of_seq.
  rewrite !list_bind_singleton. apply map_ext_in.
  intros k Hk%list_elem_of_In%elem_of_seq.
  rewrite (doubles_modified_confusion_at R C) by (done || lia). done.
Qed.

(** C1.  For every arithmetic of doubles in which the difference of two
    doubles that differ is not zero (IEEE 754 with gradual underflow, and
    the exact numbers), a C×C weight matrix, 0/1 arrays [L] and [B] of
    shape R×C and a list of C distinct classes that holds the default
    class, [compute_challenge_metric] returns
    [(observed - baseline) / (perfect - baseline)], the three scores being
    the NaN-ignoring sums of [W] times the modified confusion matrices of
    [(L, B)], [(L, L)] and [(L, D)], where [D] predicts the default class
    alone for every recording; when the test [perfect != baseline] of the
    two doubles fails it returns 0.0 and does not divide. *)
Theorem challenge_metric_formula R C (W : matrix F) L B classes default :
  (∀ x y : F, not_equal x y = true →
              not_equal (dsub x y) (float_of_int 0) = true) →
  (0 < R)%nat → has_shape R C L → has_shape R C B → binary L → binary B →
  has_shape C C W → length classes = C → NoDup classes → default ∈ classes →
  Doubles.compute_challenge_metric W L B classes default
  = Ok (Doubles.challenge_score_spec R C W L B classes default).
Proof.
  intros Hsub HR HL HB HbL HbB HW <- Hnd Hin.
  destruct (index_of_Some _ _ Hin) as (i & Hidx & Hi & Hlt).
  unfold Doubles.compute_challenge_metric, Doubles.challenge_score_spec.
  rewrite (shape_has_shape R (length classes)) by done. rewrite Hidx.
  cbn [mbind result_bind]. rewrite decide_True by lia. cbn [mbind result_bind].
  rewrite (inactive_default_only R classes default i) by done.
  rewrite !(doubles_nansum_weighted R (length classes))
    by first [done | apply default_only_shape | apply default_only_binary].
  destruct (not_equal _ _) eqn:Hne; [|done].
  by rewrite (Hsub _ _ Hne).
Qed.

End doubles.

(** Exact numbers that differ have a difference that is not zero. *)
Lemma fne_fsub x y :
  fne x y = true → fne (fsub x y) (float_of_Z 0) = true.
Proof.
  destruct x as [|a], y as [|b]; try done. cbn.
  intros Hab%bool_decide_eq_true. apply bool_decide_eq_true.
  intros Hz. apply Hab. rewrite Z2Qc_inj_0 in Hz.
  replace a with ((a - b) + b)%Qc by ring. rewrite Hz. ring.
Qed.

(** The challenge metric of the rest of this file is the one above, at the
    exact arithmetic. *)
Lemma compute_challenge_metric_exact W L B classes sinus_rhythm :
  Doubles.compute_challenge_metric (F := float) W L B classes sinus_rhythm
  = (compute_challenge_metric W L B classes sinus_rhythm).2.
Proof.
  assert (float_of_Z 0 = f0) as H0
    by (unfold float_of_Z, f0; by rewrite Z2Qc_inj_0).
  assert (float_of_Z 1 = f1) as H1
    by (unfold float_of_Z, f1; by rewrite Z2Qc_inj_1).
  assert (∀ L B, Doubles._compute_modified_confusion_matrix (F := float) L B
                 = _compute_modified_confusion_matrix L B) as Hmcm.
  { intros L' B'.
    unfold Doubles._compute_modified_confusion_matrix, Doubles.mcm_recording,
      Doubles.zeros, Doubles.add_at.
    cbn [float_of_int dadd ddiv exact_arithmetic]. by rewrite H0, H1. }
  assert (∀ a, Doubles.nansum (F := float) a = nansum a) as Hsum.
  { intros a. unfold Doubles.nansum, nansum.
    cbn [np_sum float_of_int is_nan exact_arithmetic]. rewrite H0.
    unfold fsum.
    assert (∀ acc,
              foldl fadd acc (map (fun x => if isnan x then f0 else x) a)
              = foldl (fun acc x => (acc + (if isnan x then f0 else x))%F) acc a)
      as Hfold; [|apply Hfold].
    induction a as [|x a IH]; intros acc; [done|]. cbn [map foldl]. apply IH. }
  unfold Doubles.compute_challenge_metric, compute_challenge_metric.
  destruct (shape L) as [R C].
  destruct (index_of sinus_rhythm classes) as [i|]; [|done].
  cbn [mbind result_bind log_bind log_ret call_modified_confusion fst snd].
  destruct (decide (i < C)%nat); [|done].
  cbn [mbind result_bind log_bind log_ret call_modified_confusion fst snd
       float_of_int dsub ddiv not_equal exact_arithmetic].
  rewrite !Hmcm, !Hsum.
  destruct (fne _ _) eqn:Hne; [|by rewrite H0].
  by rewrite (fne_fsub _ _ Hne).
Qed.

Lemma challenge_metric_formula_witness :
  let W := [[f1; fhalf]; [fhalf; f1]] in
  let L := [[1; 0]; [0; 1]] in
  let B := [[1; 0]; [1; 0]] in
  Doubles.compute_challenge_metric W L B ["N"; "A"] "N"
  = Ok (Doubles.challenge_score_spec 2 2 W L B ["N"; "A"] "N").
Proof.
  intros W L B.
  apply (challenge_metric_formula 2 2 W L B ["N"; "A"] "N");
    [apply fne_fsub|unfold has_shape, binary; try reflexivity; by_compute..].
Defined.

(** The test [correct_score != inactive_score] is the one of the arithmetic.
    Four recordings with the labels below are predicted without a mistake,
    and the weights give the row of the second class one point in the first
    and in the third column, so that one product alone is not zero in each
    sum.  The sum of the correct outputs is [1/2 + 1/2 + 1/2] and the one of
    the inactive outputs [1/3 + 1/3 + 1/2 + 1/3].  As exact numbers they are
    equal, and the result is 0.0; as doubles the second is
    [1.4999999999999998], and the result is 1.0. *)
Lemma challenge_metric_rounding :
  let L := [[0; 1; 1]; [0; 1; 1]; [0; 1; 0]; [0; 1; 1]] in
  let classes := ["N"; "A"; "B"] in
  @Doubles.compute_challenge_metric _ binary64
    (map (map double_of_int) [[0; 0; 0]; [1; 0; 1]; [0; 0; 0]]) L L classes "N"
  = Ok PrimFloat.one
  ∧ @Doubles.compute_challenge_metric _ exact_arithmetic
      (map (map float_of_Z) [[0; 0; 0]; [1; 0; 1]; [0; 0; 0]]) L L classes "N"
    = Ok f0.
Proof.
  split; [by vm_compute|].
  vm_compute. do 2 f_equal. by apply Qc_is_canon.
Qed.

(** ** Confusion matrices *)

Lemma for_each_ok {A B} (l : list B) (body : A → B → result A) a :
  (∀ a x, x ∈ l → ∃ a', body a x = Ok a') → ∃ a', for_each l body a = Ok a'.
Proof.
  revert a. induction l as [|x l IH]; intros a Hbody; [by eexists|].
  cbn. destruct (Hbody a x) as [a' ->]; [by left|]. cbn.
  apply IH. intros a0 y Hy. apply Hbody. by right.
Qed.

Lemma for_each_only {A B} (l : list B) (body : A → B → result A) e a :
  (∀ a x, (∃ a', body a x = Ok a') ∨ body a x = Raise e) →
  (∃ a', for_each l body a = Ok a') ∨ for_each l body a = Raise e.
Proof.
  intros Hbody. revert a. induction l as [|x l IH]; intros a; [left; by eexists|].
  cbn. destruct (Hbody a x) as [[a' ->] | ->]; cbn; [apply IH|by right].
Qed.

Lemma for_each_raise {A B} (l : list B) (body : A → B → result A) e a x :
  (∀ a x, (∃ a', body a x = Ok a') ∨ body a x = Raise e) →
  x ∈ l → (∀ a, body a x = Raise e) →
  for_each l body a = Raise e.
Proof.
  intros Hbody Hx Hraise. revert a.
  induction l as [|y l IH]; intros a; [by apply elem_of_nil in Hx|].
  cbn. destruct (Hbody a y) as [[a' Hy] | ->]; [|done]. rewrite Hy. cbn.
  apply elem_of_cons in Hx as [<- | Hx]; [|by apply IH].
  by rewrite Hraise in Hy.
Qed.

Lemma confusion_cell_only l o A j v :
  (∃ A', confusion_cell l o A j v = Ok A')
  ∨ confusion_cell l o A j v
    = Raise (ValueError "Error in computing the confusion matrix.").
Proof.
  unfold confusion_cell.
  repeat (destruct (_ && _); [left; by eexists|]). by right.
Qed.

Lemma confusion_cell_binary l o A j v :
  (l = 0 ∨ l = 1) → (o = 0 ∨ o = 1) → ∃ A', confusion_cell l o A j v = Ok A'.
Proof. intros [-> | ->] [-> | ->]; by eexists. Qed.

Lemma confusion_cell_raise l o A j v :
  ¬ (l = 0 ∨ l = 1) ∨ ¬ (o = 0 ∨ o = 1) →
  confusion_cell l o A j v
  = Raise (ValueError "Error in computing the confusion matrix.").
Proof.
  intros H. unfold confusion_cell.
  destruct (Z.eqb_spec l 1), (Z.eqb_spec o 1), (Z.eqb_spec l 0),
    (Z.eqb_spec o 0); cbn; try done; exfalso; lia.
Qed.

Lemma confusion_matrices_ok L B normalize :
  binary L → binary B → ∃ A, _compute_confusion_matrices L B normalize = Ok A.
Proof.
  intros HL HB. unfold _compute_confusion_matrices.
  destruct (shape L) as [R C].
  destruct normalize; cbn [negb]; apply for_each_ok; intros A i _;
    apply for_each_ok; intros A' j _;
    apply confusion_cell_binary; by apply binary_at.
Qed.

Lemma confusion_matrices_raise R C L B normalize i j :
  (0 < R)%nat → has_shape R C L → (i < R)%nat → (j < C)%nat →
  ¬ (at2 0 L i j = 0 ∨ at2 0 L i j = 1) ∨ ¬ (at2 0 B i j = 0 ∨ at2 0 B i j = 1) →
  _compute_confusion_matrices L B normalize
  = Raise (ValueError "Error in computing the confusion matrix.").
Proof.
  intros HR HL Hi Hj Hbad. unfold _compute_confusion_matrices.
  rewrite (shape_has_shape R C) by done.
  destruct normalize; cbn [negb].
  - apply for_each_raise with (x := i); [|apply elem_of_seq; lia|].
    + intros A i'. apply for_each_only. intros A' j'. apply confusion_cell_only.
    + intros A. apply for_each_raise with (x := j); [|apply elem_of_seq; lia|].
      * intros A' j'. apply confusion_cell_only.
      * intros A'. by apply confusion_cell_raise.
  - apply for_each_raise with (x := i); [|apply elem_of_seq; lia|].
    + intros A i'. apply for_each_only. intros A' j'. apply confusion_cell_only.
    + intros A. apply for_each_raise with (x := j); [|apply elem_of_seq; lia|].
      * intros A' j'. apply confusion_cell_only.
      * intros A'. by apply confusion_cell_raise.
Qed.

(** C7, as the code has it.  A pair of entries that are both 0 or 1 is in
    exactly one of the four cases, and on 0/1 arrays of one shape
    [_compute_confusion_matrices] returns (its [ValueError] branch is not
    reached), in both modes.  Conversely, on arrays of one shape,
    [_compute_confusion_matrices] raises that [ValueError] as soon as one
    entry of the labels or of the predictions is not 0 or 1.
    [_compute_modified_confusion_matrix] has no such test: it tests the
    entries for their truth value only, as the lemma after this one
    shows. *)
Theorem confusion_cases_and_value_error :
  (∀ l o, (l = 0 ∨ l = 1) → (o = 0 ∨ o = 1) →
     ∃ c, in_case c l o ∧ ∀ c', in_case c' l o → c' = c)
  ∧ (∀ R C L B normalize,
       (0 < R)%nat → has_shape R C L → has_shape R C B →
       binary L → binary B →
       ∃ A, _compute_confusion_matrices L B normalize = Ok A)
  ∧ (∀ R C L B normalize i j,
       (0 < R)%nat → has_shape R C L → has_shape R C B →
       (i < R)%nat → (j < C)%nat →
       ¬ (at2 0 L i j = 0 ∨ at2 0 L i j = 1)
       ∨ ¬ (at2 0 B i j = 0 ∨ at2 0 B i j = 1) →
       _compute_confusion_matrices L B normalize
       = Raise (ValueError "Error in computing the confusion matrix.")).
Proof.
  split_and!.
  - intros l o [-> | ->] [-> | ->];
      [exists TN | exists FP | exists FN | exists TP];
      (split; [done|]); by intros [] [??].
  - intros R C L B normalize _ _ _. apply confusion_matrices_ok.
  - intros R C L B normalize i j HR HL _. by apply confusion_matrices_raise.
Qed.

Lemma confusion_cases_and_value_error_witness :
  (∃ c, in_case c 1 0 ∧ ∀ c', in_case c' 1 0 → c' = c)
  ∧ (∃ A, _compute_confusion_matrices [[1; 0]; [0; 1]] [[1; 0]; [1; 0]] false = Ok A)
  ∧ _compute_confusion_matrices [[1; 0]; [0; 2]] [[1; 0]; [1; 0]] true
    = Raise (ValueError "Error in computing the confusion matrix.").
Proof.
  destruct confusion_cases_and_value_error as (Hcase & Hok & Hraise).
  split_and!.
  - apply Hcase; [by right|by left].
  - apply (Hok 2%nat 2%nat); unfold has_shape, binary; try lia; by_compute.
  - apply (Hraise 2%nat 2%nat _ _ _ 1%nat 1%nat);
      unfold has_shape; try lia; [by_compute|by_compute|].
    left. by intros [|].
Defined.

(** The claim of C7 as it is written fails for the modified confusion
    matrix: with the label 2, which is not 0 or 1, it returns a matrix, and
    [compute_challenge_metric], which consumes it, returns a score. *)
Lemma modified_confusion_accepts_other_values :
  ¬ binary [[2]]
  ∧ _compute_modified_confusion_matrix [[2]] [[1]] = [[f1]]
  ∧ (compute_challenge_metric [[f1]] [[2]] [[1]] ["NSR"] "NSR").2 = Ok f0.
Proof.
  split_and!.
  - unfold binary. by_compute.
  - by vm_compute.
  - by vm_compute.
Qed.

(** ** Accuracy *)

Lemma rows_equal_eq lrow orow :
  length lrow = length orow → rows_equal lrow orow = true ↔ lrow = orow.
Proof.
  unfold rows_equal. revert orow.
  induction lrow as [|l lrow IH]; intros [|o orow] Hlen; try done.
  cbn. rewrite andb_true_iff, IH, Z.eqb_eq by (cbn in Hlen; lia).
  split; [by intros [-> ->]|by intros [= -> ->]].
Qed.

Lemma count_correct_recordings (L B : matrix Z) n recs :
  foldl (fun n i => if rows_equal (nth i L []) (nth i B []) then n + 1 else n)
        n recs
  = n + Z.of_nat (length (filter
        (fun i => rows_equal (nth i L []) (nth i B []) = true) recs)).
Proof.
  revert n. induction recs as [|i recs IH]; intros n; [cbn; lia|].
  cbn [foldl]. rewrite IH, filter_cons.
  destruct (rows_equal _ _); cbn; [|done].
  rewrite decide_True by done. cbn [length]. lia.
Qed.

Lemma accuracy_exact_matches R C L B :
  (0 < R)%nat → has_shape R C L → has_shape R C B →
  _compute_accuracy L B
  = Ok (float_of_Z (Z.of_nat (exact_matches R L B))
        / float_of_Z (Z.of_nat R))%F.
Proof.
  intros HR HL HB. unfold _compute_accuracy, exact_matches.
  rewrite (shape_has_shape R C) by done.
  rewrite decide_False by lia. rewrite count_correct_recordings, Z.add_0_l.
  do 5 f_equal. apply filter_ext_elem. intros i Hi%elem_of_seq.
  apply rows_equal_eq.
  by rewrite (has_shape_row R C L), (has_shape_row R C B) by (done || lia).
Qed.

(** C5, as the code has it.  [_compute_accuracy] returns the number of
    recordings whose predicted row equals the true row, divided by the
    number of recordings.  For [L = [[1,0],[0,1]]] and [B = [[1,0],[1,0]]]
    the first class has TP = 1, FP = 1, FN = 0, TN = 0 and F1 = 2/3, the
    second class has TP = 0, FP = 0, FN = 1, TN = 1 and F1 = 0, and the
    accuracy is 1/2. *)
Theorem accuracy_and_scenario :
  (∀ R C L B,
     (0 < R)%nat → has_shape R C L → has_shape R C B →
     _compute_accuracy L B
     = Ok (float_of_Z (Z.of_nat (exact_matches R L B))
           / float_of_Z (Z.of_nat R))%F)
  ∧ (let L := [[1; 0]; [0; 1]] in
     let B := [[1; 0]; [1; 0]] in
     ∃ A macro f_measure,
       _compute_confusion_matrices L B false = Ok A
       ∧ _compute_f_measure L B = Ok (macro, f_measure)
       ∧ (at3 A 0 1 1, at3 A 0 1 0, at3 A 0 0 1, at3 A 0 0 0) = (f1, f1, f0, f0)
       ∧ nth 0 f_measure NaN = (float_of_Z 2 / float_of_Z 3)%F
       ∧ (at3 A 1 1 1, at3 A 1 1 0, at3 A 1 0 1, at3 A 1 0 0) = (f0, f0, f1, f1)
       ∧ nth 1 f_measure NaN = f0
       ∧ _compute_accuracy L B = Ok fhalf).
Proof.
  split; [apply accuracy_exact_matches|].
  intros L B. eexists _, _, _. split_and!; [by vm_compute..].
Qed.

Lemma accuracy_and_scenario_witness :
  _compute_accuracy [[1; 0]; [0; 1]] [[1; 0]; [1; 0]]
  = Ok (float_of_Z (Z.of_nat (exact_matches 2 [[1; 0]; [0; 1]] [[1; 0]; [1; 0]]))
        / float_of_Z (Z.of_nat 2))%F.
Proof.
  apply (proj1 accuracy_and_scenario 2%nat 2%nat); unfold has_shape;
    try lia; by_compute.
Defined.

(** The values that C5 gives for the scenario are not those of the code:
    the first class has one true positive, not two, and an F1 that is not
    1.0; the F1 of the second class is not NaN. *)
Lemma scenario_values_differ :
  let L := [[1; 0]; [0; 1]] in
  let B := [[1; 0]; [1; 0]] in
  ∃ A macro f_measure,
    _compute_confusion_matrices L B false = Ok A
    ∧ _compute_f_measure L B = Ok (macro, f_measure)
    ∧ at3 A 0 1 1 ≠ float_of_Z 2
    ∧ at3 A 0 1 0 ≠ f0
    ∧ nth 0 f_measure NaN ≠ f1
    ∧ nth 1 f_measure f1 ≠ NaN.
Proof.
  intros L B. eexists _, _, _.
  split_and!; [by vm_compute | by vm_compute | by vm_compute..].
Qed.

(** ** The threshold sweep *)

Lemma counts_eq c c' :
  tp c = tp c' → fp c = fp c' → fn c = fn c' → tn c = tn c' → c = c'.
Proof. destruct c, c'. cbn. by intros -> -> -> ->. Qed.

Section sweep_facts.
Variables (labels_k : list Z) (outputs_k : list Qc) (idx : list nat) (R : nat).

Let score (p : nat) : Qc := nth (nth p idx 0%nat) outputs_k 0%Qc.
Let label (p : nat) : Z := nth (nth p idx 0%nat) labels_k 0.
Let upto (c : counts) (i n : nat) : counts :=
  foldl (fun c p => absorb_one labels_k idx p c) c (seq i n).

(** The scores along [idx] do not increase. *)
Hypothesis descending : ∀ p q, (p ≤ q < R)%nat → (score q ≤ score p)%Qc.

Lemma absorb_spec fuel thr i c :
  (i ≤ R)%nat → (R - i ≤ fuel)%nat → (∀ p, (p < i)%nat → (thr ≤ score p)%Qc) →
  ∃ i', absorb labels_k outputs_k idx R fuel thr i c = (i', upto c i (i' - i))
        ∧ (i ≤ i' ≤ R)%nat
        ∧ (∀ p, (p < i')%nat → (thr ≤ score p)%Qc)
        ∧ (∀ p, (i' ≤ p < R)%nat → (score p < thr)%Qc).
Proof.
  revert i c. induction fuel as [|fuel IH]; intros i c Hi Hfuel Hbelow.
  { exists i. rewrite Nat.sub_diag. split_and!; [done|lia|lia|done|lia]. }
  cbn [absorb]. unfold absorbing.
  destruct (decide (i < R)%nat) as [Hlt|Hge].
  2:{ rewrite bool_decide_eq_false_2 by done. cbn.
      exists i. rewrite Nat.sub_diag. split_and!; [done|lia|lia|done|lia]. }
  rewrite bool_decide_eq_true_2 by done. cbn [andb].
  destruct (decide (thr ≤ score i)%Qc) as [Hle|Hnle].
  - rewrite bool_decide_eq_true_2 by done.
    destruct (IH (S i) (absorb_one labels_k idx i c)) as (i' & -> & Hi' & Hb & Ha);
      [lia|lia| |].
    { intros p Hp. destruct (decide (p = i)) as [->|]; [done|]. apply Hbelow. lia. }
    exists i'. split_and!; [|lia|lia|done|done].
    f_equal. unfold upto. replace (i' - i)%nat with (S (i' - S i)) by lia. done.
  - rewrite bool_decide_eq_false_2 by done.
    exists i. rewrite Nat.sub_diag. split_and!; [done|lia|lia|done|].
    intros p Hp. apply Qcnot_le_lt in Hnle.
    eapply Qcle_lt_trans; [|done]. apply descending. lia.
Qed.

(** What holds of the cursor and the counters after threshold [thr], the
    sweep having started from the counters [c0] at cursor 0. *)
Let after (c0 : counts) (thr : Qc) (ic : nat * counts) : Prop :=
  (ic.1 ≤ R)%nat
  ∧ (∀ p, (p < ic.1)%nat → (thr ≤ score p)%Qc)
  ∧ (∀ p, (ic.1 ≤ p < R)%nat → (score p < thr)%Qc)
  ∧ ic.2 = upto c0 0 ic.1.

Lemma upto_app c i n m : upto (upto c i n) (i + n) m = upto c i (n + m).
Proof. unfold upto. by rewrite seq_app, foldl_app. Qed.

Lemma sweep_spec c0 thrs thr0 i :
  Sorted (flip Qcle) (thr0 :: thrs) →
  after c0 thr0 (i, upto c0 0 i) →
  Forall2 (after c0) thrs
    (sweep labels_k outputs_k idx R thrs i (upto c0 0 i))
  ∧ Sorted le (i :: (sweep labels_k outputs_k idx R thrs i (upto c0 0 i)).*1).
Proof.
  revert thr0 i. induction thrs as [|thr thrs IH]; intros thr0 i Hs Hi.
  { split; repeat constructor. }
  apply Sorted_inv in Hs as [Hs Hhd]. apply HdRel_inv in Hhd. cbn in Hhd.
  destruct Hi as (Hi & Hbelow & _ & _). cbn in Hi, Hbelow.
  cbn [sweep].
  destruct (absorb_spec R thr i (upto c0 0 i)) as (i' & -> & Hi' & Hb & Ha);
    [done|lia| |].
  { intros p Hp. eapply Qcle_trans; [exact Hhd|]. by apply Hbelow. }
  replace (upto (upto c0 0 i) i (i' - i)) with (upto c0 0 i').
  2:{ rewrite (upto_app c0 0 i). f_equal. lia. }
  assert (after c0 thr (i', upto c0 0 i')) as Hafter by (split_and!; [cbn; lia|done..]).
  destruct (IH thr i' Hs Hafter) as [IH1 IH2].
  split; [by constructor|].
  cbn. constructor; [done|]. constructor. lia.
Qed.

Lemma upto_tp c n :
  tp (upto c 0 n)
  = tp c + Z.of_nat (length (filter (fun p => truth (label p) = true) (seq 0 n))).
Proof.
  induction n as [|n IH]; [cbn; lia|].
  unfold upto in *. rewrite seq_S, foldl_app, filter_app, length_app. cbn [foldl].
  unfold absorb_one at 1. fold (label (0 + n)).
  rewrite filter_cons, filter_nil.
  destruct (truth (label (0 + n)));
    [rewrite decide_True by done|rewrite decide_False by done];
    cbn; rewrite IH; lia.
Qed.

Lemma upto_fp c n :
  fp (upto c 0 n)
  = fp c + Z.of_nat (length (filter (fun p => truth (label p) = false) (seq 0 n))).
Proof.
  induction n as [|n IH]; [cbn; lia|].
  unfold upto in *. rewrite seq_S, foldl_app, filter_app, length_app. cbn [foldl].
  unfold absorb_one at 1. fold (label (0 + n)).
  rewrite filter_cons, filter_nil.
  destruct (truth (label (0 + n)));
    [rewrite decide_False by done|rewrite decide_True by done];
    cbn; rewrite IH; lia.
Qed.

Lemma upto_fn c n : fn (upto c 0 n) = fn c + tp c - tp (upto c 0 n).
Proof.
  induction n as [|n IH]; [cbn; lia|].
  unfold upto in *. rewrite seq_S, foldl_app. cbn [foldl].
  unfold absorb_one at 1 3. destruct (truth _); cbn; lia.
Qed.

Lemma upto_tn c n : tn (upto c 0 n) = tn c + fp c - fp (upto c 0 n).
Proof.
  induction n as [|n IH]; [cbn; lia|].
  unfold upto in *. rewrite seq_S, foldl_app. cbn [foldl].
  unfold absorb_one at 1 3. destruct (truth _); cbn; lia.
Qed.

(** Positions below the cursor are those whose score reaches the threshold. *)
Lemma after_filter c0 thr ic (Q : nat → Prop) `{!∀ p, Decision (Q p)} :
  after c0 thr ic →
  filter Q (seq 0 ic.1)
  = filter (fun p => (thr ≤ score p)%Qc ∧ Q p) (seq 0 R).
Proof.
  intros (Hi & Hb & Ha & _).
  replace R with (ic.1 + (R - ic.1))%nat at 1 by lia.
  rewrite seq_app, filter_app.
  rewrite (filter_ext_elem (fun p => (thr ≤ score p)%Qc ∧ Q p) Q (seq 0 ic.1)).
  2:{ intros p Hp%elem_of_seq. split; [by intros [_ ?]|]. split; [|done].
      apply Hb. lia. }
  rewrite (filter_none _ (seq (0 + ic.1) _)), app_nil_r; [done|].
  apply Forall_forall. intros p Hp%elem_of_seq [Hle _].
  eapply Qclt_not_le; [|exact Hle]. apply Ha. lia.
Qed.

(** [idx] lists every recording once, and the label column has [R] rows. *)
Hypothesis idx_perm : idx ≡ₚ seq 0 R.
Hypothesis labels_length : length labels_k = R.

Lemma positions_to_records (Q : nat → Prop) `{!∀ r, Decision (Q r)} :
  length (filter (fun p => Q (nth p idx 0%nat)) (seq 0 R))
  = length (filter Q (seq 0 R)).
Proof.
  assert (length idx = R) as Hlen by (by rewrite idx_perm, length_seq).
  rewrite <- Hlen at 1. rewrite <- (length_filter_positions 0%nat Q idx).
  by rewrite idx_perm.
Qed.

Let c0 : counts :=
  {| tp := 0; fp := 0;
     fn := Z.of_nat (length (filter (fun l => l = 1) labels_k));
     tn := Z.of_nat (length (filter (fun l => l = 0) labels_k)) |}.

Lemma after_counts thr ic :
  after c0 thr ic →
  ic.2 = counts_at labels_k outputs_k thr
  ∧ Z.of_nat ic.1 = count_where (fun r => (thr ≤ nth r outputs_k 0)%Qc) R.
Proof.
  intros Hafter. pose proof Hafter as (Hi & Hb & Ha & ->). split.
  - unfold counts_at, count_where. rewrite labels_length.
    apply counts_eq; cbn [tp fp fn tn].
    + rewrite upto_tp, (after_filter c0 thr ic _ Hafter). cbn [tp c0].
      rewrite <- (positions_to_records
                    (fun r => (thr ≤ nth r outputs_k 0)%Qc
                              ∧ truth (nth r labels_k 0) = true)). done.
    + rewrite upto_fp, (after_filter c0 thr ic _ Hafter). cbn [fp c0].
      rewrite <- (positions_to_records
                    (fun r => (thr ≤ nth r outputs_k 0)%Qc
                              ∧ truth (nth r labels_k 0) = false)). done.
    + rewrite upto_fn, upto_tp, (after_filter c0 thr ic _ Hafter). cbn [tp fn c0].
      rewrite <- (positions_to_records
                    (fun r => (thr ≤ nth r outputs_k 0)%Qc
                              ∧ truth (nth r labels_k 0) = true)).
      unfold score, label. lia.
    + rewrite upto_tn, upto_fp, (after_filter c0 thr ic _ Hafter). cbn [fp tn c0].
      rewrite <- (positions_to_records
                    (fun r => (thr ≤ nth r outputs_k 0)%Qc
                              ∧ truth (nth r labels_k 0) = false)).
      unfold score, label. lia.
  - unfold count_where. f_equal.
    rewrite <- (positions_to_records (fun r => (thr ≤ nth r outputs_k 0)%Qc)).
    pose proof (after_filter c0 thr ic (fun _ => True) Hafter) as Hcut.
    rewrite (filter_ext_elem _ (fun p => (thr ≤ score p)%Qc ∧ True)).
    2:{ intros p _. unfold score. tauto. }
    rewrite <- Hcut. clear Hcut.
    rewrite filter_all by (by apply Forall_forall). by rewrite length_seq.
Qed.

Lemma sweep_table_closed thr0 thrs :
  Sorted (flip Qcle) (thr0 :: thrs) →
  (∀ p, (p < R)%nat → (score p < thr0)%Qc) →
  Forall2 (fun thr ic =>
             ic.2 = counts_at labels_k outputs_k thr
             ∧ Z.of_nat ic.1 = count_where (fun r => (thr ≤ nth r outputs_k 0)%Qc) R)
          (thr0 :: thrs)
          (sweep_table labels_k outputs_k idx (thr0 :: thrs))
  ∧ Sorted le (sweep_table labels_k outputs_k idx (thr0 :: thrs)).*1.
Proof.
  intros Hsorted Habove. unfold sweep_table. rewrite labels_length. cbn [tail].
  fold c0. change c0 with (upto c0 0 0) at 2 4.
  assert (after c0 thr0 (0%nat, upto c0 0 0)) as H0.
  { split_and!; cbn; [lia|lia| |done]. intros p Hp. apply Habove. lia. }
  destruct (sweep_spec c0 thrs thr0 0 Hsorted H0) as [Hall Hcur].
  split; [|done].
  constructor; [by apply after_counts|].
  eapply Forall2_impl; [exact Hall|]. intros thr ic. apply after_counts.
Qed.

Lemma sweep_table_upto thr0 thrs :
  Sorted (flip Qcle) (thr0 :: thrs) →
  (∀ p, (p < R)%nat → (score p < thr0)%Qc) →
  Forall (fun ic => (ic.1 ≤ R)%nat ∧ ic.2 = upto c0 0 ic.1)
         (sweep_table labels_k outputs_k idx (thr0 :: thrs)).
Proof.
  intros Hsorted Habove. unfold sweep_table. rewrite labels_length. cbn [tail].
  fold c0. change c0 with (upto c0 0 0) at 2 3.
  assert (after c0 thr0 (0%nat, upto c0 0 0)) as H0.
  { split_and!; cbn; [lia|lia| |done]. intros p Hp. apply Habove. lia. }
  destruct (sweep_spec c0 thrs thr0 0 Hsorted H0) as [Hall _].
  constructor; [split; [cbn; lia|done]|].
  eapply Forall2_Forall_r; [exact Hall|].
  apply Forall_forall. intros thr _ ic (? & _ & _ & ?). done.
Qed.
End sweep_facts.

(** ** Sorting *)

Global Instance key_le_total a : Total (key_le a).
Proof. intros i j. unfold key_le. apply (total Qcle). Qed.

Global Instance key_le_trans a : Transitive (key_le a).
Proof. intros i j k. unfold key_le. apply Qcle_trans. Qed.

Lemma StronglySorted_reverse {A} (R : relation A) l :
  StronglySorted R l → StronglySorted (flip R) (reverse l).
Proof.
  induction 1 as [|x l _ IH Hx]; [constructor|].
  rewrite reverse_cons. apply StronglySorted_app_2; [|done|repeat constructor].
  intros x1 x2 Hx1 ->%list_elem_of_singleton. rewrite elem_of_reverse in Hx1.
  rewrite Forall_forall in Hx. by apply Hx.
Qed.

Lemma StronglySorted_lookup {A} (R : relation A) l p q x y :
  StronglySorted R l → (p < q)%nat → l !! p = Some x → l !! q = Some y → R x y.
Proof.
  intros Hl. revert p q. induction Hl as [|z l _ IH Hz]; intros p q Hpq Hp Hq.
  { by rewrite lookup_nil in Hp. }
  destruct q as [|q]; [lia|]. destruct p as [|p]; cbn in Hp, Hq.
  - injection Hp as ->. rewrite Forall_forall in Hz.
    by eapply Hz, list_elem_of_lookup_2.
  - eapply (IH p q); [lia|done..].
Qed.

Lemma StronglySorted_strict l :
  StronglySorted Qcle l → NoDup l → StronglySorted Qclt l.
Proof.
  induction 1 as [|x l _ IH Hx]; intros Hnd; [constructor|].
  apply NoDup_cons in Hnd as [Hx' Hnd]. constructor; [by apply IH|].
  rewrite Forall_forall in Hx |- *. intros y Hy.
  destruct (Qcle_lt_or_eq _ _ (Hx y Hy)) as [?| ->]; done.
Qed.

Lemma StronglySorted_weaken {A} (R R' : relation A) l :
  (∀ x y, R x y → R' x y) → StronglySorted R l → StronglySorted R' l.
Proof.
  intros HR. induction 1 as [|x l _ IH Hx]; constructor; [done|].
  eapply Forall_impl; [done|]. apply HR.
Qed.

Lemma np_argsort_descending outputs_k :
  descending_order outputs_k (reverse (np_argsort outputs_k)).
Proof.
  split.
  - unfold np_argsort. by rewrite reverse_Permutation, merge_sort_Permutation.
  - apply StronglySorted_reverse, StronglySorted_merge_sort; apply _.
Qed.

Lemma descending_order_scores outputs_k idx p q :
  descending_order outputs_k idx → (p ≤ q < length outputs_k)%nat →
  (nth (nth q idx 0%nat) outputs_k 0 ≤ nth (nth p idx 0%nat) outputs_k 0)%Qc.
Proof.
  intros [Hperm Hsorted] Hpq.
  destruct (decide (p = q)) as [->|Hne]; [apply Qcle_refl|].
  assert (length idx = length outputs_k) as Hlen by (by rewrite Hperm, length_seq).
  destruct (lookup_lt_is_Some_2 idx p) as [x Hx]; [lia|].
  destruct (lookup_lt_is_Some_2 idx q) as [y Hy]; [lia|].
  rewrite (nth_lookup_Some _ _ _ _ Hx), (nth_lookup_Some _ _ _ _ Hy).
  eapply (StronglySorted_lookup _ _ p q) in Hsorted; [exact Hsorted|lia|done..].
Qed.

(** The thresholds: one more than the largest score, then the distinct
    scores in strictly descending order. *)
Lemma thresholds_of_spec outputs_k :
  outputs_k ≠ [] →
  ∃ m ds,
    thresholds_of outputs_k = Ok ((m + 1)%Qc :: ds)
    ∧ StronglySorted (flip Qclt) ds
    ∧ (∀ x, x ∈ ds ↔ x ∈ outputs_k)
    ∧ m ∈ outputs_k ∧ (∀ x, x ∈ outputs_k → (x ≤ m)%Qc).
Proof.
  intros Hne. unfold thresholds_of.
  assert (np_unique outputs_k ≡ₚ remove_dups outputs_k) as Hperm
    by apply merge_sort_Permutation.
  assert (∀ x, x ∈ np_unique outputs_k ↔ x ∈ outputs_k) as Helem.
  { intros x. by rewrite Hperm, elem_of_remove_dups. }
  assert (StronglySorted Qcle (np_unique outputs_k)) as Hsorted.
  { apply StronglySorted_merge_sort; apply _. }
  assert (NoDup (np_unique outputs_k)) as Hnd.
  { rewrite Hperm. apply NoDup_remove_dups. }
  destruct (last (np_unique outputs_k)) as [m|] eqn:Hlast.
  2:{ apply last_None in Hlast. destruct outputs_k as [|x ?]; [done|].
      assert (x ∈ np_unique (x :: outputs_k)) as Hx by (apply Helem; by left).
      rewrite Hlast in Hx. by apply elem_of_nil in Hx. }
  exists m, (reverse (np_unique outputs_k)).
  rewrite reverse_app, reverse_singleton. split_and!; [done|..].
  - by apply StronglySorted_reverse, StronglySorted_strict.
  - intros x. by rewrite elem_of_reverse.
  - apply Helem. by eapply last_Some_elem_of.
  - intros x Hx%Helem. apply last_Some in Hlast as [u Hu]. rewrite Hu in Hx, Hsorted.
    apply elem_of_app in Hx as [Hx| ->%list_elem_of_singleton]; [|apply Qcle_refl].
    eapply StronglySorted_app_1_elem_of; [done..|by left].
Qed.

Lemma Qclt_succ (m : Qc) : (m < m + 1)%Qc.
Proof.
  rewrite <- (Qcplus_0_r m) at 1. by apply Qcplus_lt_mono_l.
Qed.

Lemma Forall2_counts_fmap {A} (f : A → counts) (g : A → Z) l
    (table : list (nat * counts)) :
  Forall2 (fun x ic => ic.2 = f x ∧ Z.of_nat ic.1 = g x) l table →
  table.*2 = map f l.
Proof.
  induction 1 as [|x ic l table [Heq _] _ IH]; [done|]. cbn. by rewrite Heq, IH.
Qed.

(** ** The sweep of one class in closed form *)

Lemma sweep_table_counts labels_k outputs_k idx :
  descending_order outputs_k idx → length outputs_k = length labels_k →
  outputs_k ≠ [] →
  ∃ m ds,
    thresholds_of outputs_k = Ok ((m + 1)%Qc :: ds)
    ∧ StronglySorted (flip Qclt) ds
    ∧ (∀ x, x ∈ ds ↔ x ∈ outputs_k)
    ∧ m ∈ outputs_k ∧ (∀ x, x ∈ outputs_k → (x ≤ m)%Qc)
    ∧ Forall2 (fun thr ic =>
                 ic.2 = counts_at labels_k outputs_k thr
                 ∧ Z.of_nat ic.1
                   = count_where (fun r => (thr ≤ nth r outputs_k 0)%Qc)
                                 (length labels_k))
              ((m + 1)%Qc :: ds)
              (sweep_table labels_k outputs_k idx ((m + 1)%Qc :: ds))
    ∧ Sorted le (sweep_table labels_k outputs_k idx ((m + 1)%Qc :: ds)).*1
    ∧ Forall (fun ic =>
                (ic.1 ≤ length labels_k)%nat
                ∧ ic.2 = foldl (fun c p => absorb_one labels_k idx p c)
                           {| tp := 0; fp := 0;
                              fn := Z.of_nat (length (filter (fun l => l = 1) labels_k));
                              tn := Z.of_nat (length (filter (fun l => l = 0) labels_k)) |}
                           (seq 0 ic.1))
             (sweep_table labels_k outputs_k idx ((m + 1)%Qc :: ds)).
Proof.
  intros Hidx Hlen Hne.
  destruct (thresholds_of_spec outputs_k Hne) as (m & ds & Hthr & Hds & Helem & Hm & Hmax).
  pose proof Hidx as [Hperm Hsorted]. rewrite Hlen in Hperm.
  assert (Sorted (flip Qcle) ((m + 1)%Qc :: ds)) as Hdesc.
  { apply StronglySorted_Sorted.
    apply (StronglySorted_weaken (flip Qclt)); [intros x y; apply Qclt_le_weak|].
    constructor; [done|]. apply Forall_forall. intros x Hx%Helem%Hmax.
    eapply Qcle_lt_trans; [done|apply Qclt_succ]. }
  assert (∀ p, (p < length labels_k)%nat →
            (nth (nth p idx 0%nat) outputs_k 0 < m + 1)%Qc) as Habove.
  { intros p Hp. eapply Qcle_lt_trans; [|apply Qclt_succ]. apply Hmax.
    assert (length idx = length labels_k) as Hl by (by rewrite Hperm, length_seq).
    destruct (lookup_lt_is_Some_2 idx p) as [r Hr]; [lia|].
    rewrite (nth_lookup_Some _ _ _ _ Hr).
    assert (r < length outputs_k)%nat as Hrlt.
    { apply list_elem_of_lookup_2 in Hr. rewrite Hperm in Hr.
      apply elem_of_seq in Hr. lia. }
    destruct (lookup_lt_is_Some_2 outputs_k r Hrlt) as [x Hx].
    rewrite (nth_lookup_Some _ _ _ _ Hx). by eapply list_elem_of_lookup_2. }
  assert (∀ p q, (p ≤ q < length labels_k)%nat →
            (nth (nth q idx 0%nat) outputs_k 0 ≤ nth (nth p idx 0%nat) outputs_k 0)%Qc)
    as Hscores.
  { intros p q Hpq. apply descending_order_scores; [done|lia]. }
  destruct (sweep_table_closed labels_k outputs_k idx (length labels_k))
    with (thr0 := (m + 1)%Qc) (thrs := ds) as [Hcounts Hcursor]; try done.
  pose proof (sweep_table_upto labels_k outputs_k idx (length labels_k)
                Hscores eq_refl (m + 1)%Qc ds Hdesc Habove) as Hupto.
  by exists m, ds.
Qed.

Lemma auc_class_with_closed argsort labels_k outputs_k :
  descending_order outputs_k (reverse (argsort outputs_k)) →
  length outputs_k = length labels_k → outputs_k ≠ [] →
  ∃ thresholds,
    thresholds_of outputs_k = Ok thresholds
    ∧ auc_class_with argsort labels_k outputs_k
      = Ok (let cs := map (counts_at labels_k outputs_k) thresholds in
            (auroc_sum (map tpr_of cs) (map tnr_of cs),
             auprc_sum (map tpr_of cs) (map ppv_of cs))).
Proof.
  intros Hidx Hlen Hne.
  destruct (sweep_table_counts labels_k outputs_k _ Hidx Hlen Hne)
    as (m & ds & Hthr & _ & _ & _ & _ & Htable & _ & _).
  exists ((m + 1)%Qc :: ds). split; [done|].
  unfold auc_class_with. rewrite Hthr. cbn [mbind result_bind].
  by rewrite (Forall2_counts_fmap _ _ _ _ Htable).
Qed.

(** The values of a class do not depend on how [np.argsort] orders
    recordings of equal score. *)
Lemma auc_class_any_order argsort labels_k outputs_k :
  descending_order outputs_k (reverse (argsort outputs_k)) →
  length outputs_k = length labels_k →
  auc_class_with argsort labels_k outputs_k = auc_class labels_k outputs_k.
Proof.
  intros Hidx Hlen. destruct (decide (outputs_k = [])) as [->|Hne]; [done|].
  destruct (auc_class_with_closed argsort labels_k outputs_k Hidx Hlen Hne)
    as (thrs & Hthr & ->).
  destruct (auc_class_with_closed np_argsort labels_k outputs_k
              (np_argsort_descending _) Hlen Hne) as (thrs' & Hthr' & Hclosed).
  unfold auc_class. rewrite Hclosed. congruence.
Qed.

(** ** Macro averages *)

Lemma filter_not_nan (a : list float) :
  filter (fun x => isnan x = false) a = filter (fun x => x ≠ NaN) a.
Proof. apply list_filter_iff. intros [|q]; cbn; split; done. Qed.

Lemma nanmean_mean_ignoring_nan (a : list float) : nanmean a = mean_ignoring_nan a.
Proof.
  unfold nanmean, mean_ignoring_nan. rewrite nansum_fsum, filter_not_nan.
  destruct (filter _ a) as [|x present]; [|done].
  unfold fsum, float_of_Z, f0, fdiv. cbn [foldl length].
  change (Z.of_nat 0) with 0. rewrite Z2Qc_inj_0. by rewrite decide_True.
Qed.

Lemma guarded_nanmean a :
  (if existsb isfinite a then nanmean a else NaN) = mean_ignoring_nan a.
Proof.
  destruct (existsb isfinite a) eqn:Hex; [apply nanmean_mean_ignoring_nan|].
  unfold mean_ignoring_nan. rewrite filter_none; [done|].
  apply Forall_forall. intros x Hx%list_elem_of_In Hnan.
  assert (existsb isfinite a = true); [|congruence].
  apply existsb_exists. exists x. split; [done|]. by destruct x.
Qed.

Lemma mean_ignoring_nan_all_nan a :
  Forall (fun x => x = NaN) a → mean_ignoring_nan a = NaN.
Proof.
  intros Ha. unfold mean_ignoring_nan. rewrite filter_none; [done|].
  eapply Forall_impl; [done|]. by intros x -> [].
Qed.

(** ** From the code's tests to the specification's ratios *)

Lemma ratio_fdiv a b :
  (if truth b then (float_of_Z a / float_of_Z b)%F else NaN) = ratio a b.
Proof.
  unfold truth, ratio. destruct (Z.eqb_spec b 0) as [->|Hb]; cbn [negb].
  - by rewrite decide_True.
  - rewrite decide_False by done. cbn.
    rewrite decide_False; [done|]. rewrite <- Z2Qc_inj_0. by intros ?%Z2Qc_inj.
Qed.

Lemma tpr_of_TPR c : tpr_of c = TPR c.
Proof. apply ratio_fdiv. Qed.
Lemma tnr_of_TNR c : tnr_of c = TNR c.
Proof. apply ratio_fdiv. Qed.
Lemma ppv_of_PPV c : ppv_of c = PPV c.
Proof. apply ratio_fdiv. Qed.

Lemma foldl_ext_elem {A B} (f g : A → B → A) a l :
  (∀ a x, x ∈ l → f a x = g a x) → foldl f a l = foldl g a l.
Proof.
  revert a. induction l as [|x l IH]; intros a Hfg; [done|].
  cbn. rewrite Hfg by (by left). apply IH. intros a' y Hy. apply Hfg. by right.
Qed.

Lemma nth_map_counts (f : counts → float) cs j :
  (j < length cs)%nat → nth j (map f cs) f0 = f (nth j cs counts_zero).
Proof.
  intros Hj. rewrite (nth_indep _ f0 (f counts_zero)) by (by rewrite length_map).
  apply map_nth.
Qed.

Lemma auroc_sum_spec cs :
  auroc_sum (map tpr_of cs) (map tnr_of cs) = auroc_spec cs.
Proof.
  unfold auroc_sum, auroc_spec, fsum. rewrite foldl_fmap, length_map.
  apply foldl_ext_elem. intros acc j Hj%elem_of_seq.
  rewrite !nth_map_counts by lia. by rewrite !tpr_of_TPR, !tnr_of_TNR.
Qed.

Lemma auprc_sum_spec cs :
  auprc_sum (map tpr_of cs) (map ppv_of cs) = auprc_spec cs.
Proof.
  unfold auprc_sum, auprc_spec, fsum. rewrite foldl_fmap, length_map.
  apply foldl_ext_elem. intros acc j Hj%elem_of_seq.
  rewrite !nth_map_counts by lia. by rewrite !tpr_of_TPR, !ppv_of_PPV.
Qed.

Lemma truth_binary_false x : x = 0 ∨ x = 1 → truth x = false ↔ x = 0.
Proof. by intros [-> | ->]. Qed.

Lemma counts_at_spec labels_k outputs_k thr :
  Forall (fun x => x = 0 ∨ x = 1) labels_k →
  counts_at labels_k outputs_k thr = counts_spec labels_k outputs_k thr.
Proof.
  intros Hb. unfold counts_at, counts_spec, count_where.
  rewrite !(length_filter_positions 0 _ labels_k).
  rewrite (filter_ext_elem
             (fun i => (thr ≤ nth i outputs_k 0)%Qc ∧ truth (nth i labels_k 0) = true)
             (fun i => (thr ≤ nth i outputs_k 0)%Qc ∧ nth i labels_k 0 = 1)).
  2:{ intros i Hi%elem_of_seq. rewrite truth_binary; [done|].
      rewrite Forall_nth in Hb. apply Hb. lia. }
  rewrite (filter_ext_elem
             (fun i => (thr ≤ nth i outputs_k 0)%Qc ∧ truth (nth i labels_k 0) = false)
             (fun i => (thr ≤ nth i outputs_k 0)%Qc ∧ nth i labels_k 0 = 0)).
  2:{ intros i Hi%elem_of_seq. rewrite truth_binary_false; [done|].
      rewrite Forall_nth in Hb. apply Hb. lia. }
  done.
Qed.

(** ** The loop over the classes *)

Lemma mapM_result_ok {A B} (f : A → result B) (l : list A) :
  (∀ x, x ∈ l → ∃ y, f x = Ok y) →
  ∃ ys, mapM f l = Ok ys ∧ Forall2 (fun x y => f x = Ok y) l ys.
Proof.
  induction l as [|x l IH]; intros Hf; [by exists []|].
  destruct (Hf x) as [y Hy]; [by left|].
  destruct IH as (ys & Hys & Hall); [intros; apply Hf; by right|].
  exists (y :: ys). cbn. rewrite Hy. cbn. rewrite Hys. cbn. by split; [|constructor].
Qed.

Lemma column_length {A} (d : A) (a : matrix A) k : length (column d a k) = length a.
Proof. apply length_map. Qed.

Lemma column_nth {A} (d : A) (a : matrix A) k i :
  nth i (column d a k) d = at2 d a i k.
Proof.
  unfold column, at2. rewrite !nth_lookup, list_lookup_fmap.
  destruct (a !! i) as [row|]; cbn; [by rewrite nth_lookup|by destruct k].
Qed.

Lemma column_binary (a : matrix Z) k :
  binary a → Forall (fun x => x = 0 ∨ x = 1) (column 0 a k).
Proof.
  intros Ha. apply Forall_fmap, Forall_forall. intros row Hrow. cbn.
  unfold binary in Ha. rewrite Forall_forall in Ha. specialize (Ha row Hrow).
  rewrite nth_lookup. destruct (row !! k) as [x|] eqn:Hx; cbn; [|by left].
  by eapply Forall_lookup_1 in Ha.
Qed.

Local Arguments auc_class : simpl never.

Lemma compute_auc_classes R C (L : matrix Z) (S : matrix Qc) :
  (0 < R)%nat → has_shape R C L → has_shape R C S →
  ∃ per_class,
    _compute_auc L S
    = Ok (mean_ignoring_nan per_class.*1, mean_ignoring_nan per_class.*2,
          per_class.*1, per_class.*2)
    ∧ Forall2 (fun k r => auc_class (column 0 L k) (column 0%Qc S k) = Ok r)
              (seq 0 C) per_class.
Proof.
  intros HR HL HS. unfold _compute_auc. rewrite (shape_has_shape R C) by done.
  destruct (mapM_result_ok
              (fun k => auc_class (column 0 L k) (column 0%Qc S k)) (seq 0 C))
    as (per_class & -> & Hall).
  { intros k _. unfold auc_class.
    destruct (auc_class_with_closed np_argsort (column 0 L k) (column 0%Qc S k))
      as (thresholds & _ & ->); [apply np_argsort_descending| | |by eexists].
    - rewrite !column_length. by destruct HL as [-> _], HS as [-> _].
    - intros Hnil%(f_equal length). rewrite column_length in Hnil.
      destruct HS as [HS _]. cbn in Hnil. lia. }
  exists per_class. cbn. by rewrite !guarded_nanmean.
Qed.

Lemma counts_spec_sentinel labels_k outputs_k m :
  length outputs_k = length labels_k →
  (∀ x, x ∈ outputs_k → (x ≤ m)%Qc) →
  counts_spec labels_k outputs_k (m + 1)%Qc
  = {| tp := 0; fp := 0;
       fn := count_where (fun i => nth i labels_k 0 = 1) (length labels_k);
       tn := count_where (fun i => nth i labels_k 0 = 0) (length labels_k) |}.
Proof.
  intros Hlen Hmax.
  assert (∀ (Q : nat → Prop) `{!∀ i, Decision (Q i)},
            count_where (fun i => (m + 1 ≤ nth i outputs_k 0)%Qc ∧ Q i)
                        (length labels_k) = 0) as Hnone.
  { intros Q ?. unfold count_where. rewrite filter_none; [done|].
    apply Forall_forall. intros i Hi%elem_of_seq [Hle _].
    destruct (lookup_lt_is_Some_2 outputs_k i) as [x Hx]; [lia|].
    rewrite (nth_lookup_Some _ _ _ _ Hx) in Hle.
    apply list_elem_of_lookup_2, Hmax in Hx.
    eapply Qclt_not_le; [apply (Qclt_succ m)|]. by eapply Qcle_trans. }
  unfold counts_spec. rewrite !Hnone. apply counts_eq; cbn; lia.
Qed.

(** C2.  For a class [k] of 0/1 labels, the thresholds of [_compute_auc] are
    one more than the largest score of the column followed by its distinct
    scores in strictly descending order.  The counters start at TP = FP = 0,
    FN = the number of positive and TN = the number of negative recordings;
    at each threshold they are those obtained when exactly the recordings
    whose score is at least the threshold are absorbed, the positive ones
    moved from FN to TP and the negative ones from TN to FP.  The function
    returns, for class [k], the sum over the consecutive thresholds of
    [0.5 * (TPR[j+1] - TPR[j]) * (TNR[j+1] + TNR[j])] as AUROC and of
    [(TPR[j+1] - TPR[j]) * PPV[j+1]] as AUPRC, where TPR = TP/(TP+FN),
    TNR = TN/(FP+TN) and PPV = TP/(TP+FP), each NaN when its denominator
    is 0. *)
Theorem auc_threshold_sweep R C (L : matrix Z) (S : matrix Qc) k :
  (0 < R)%nat → has_shape R C L → has_shape R C S → binary L → (k < C)%nat →
  let labels_k := column 0 L k in
  let outputs_k := column 0%Qc S k in
  ∃ m ds macro_auroc macro_auprc auroc auprc,
    thresholds_of outputs_k = Ok ((m + 1)%Qc :: ds)
    ∧ StronglySorted (flip Qclt) ds
    ∧ (∀ x, x ∈ ds ↔ x ∈ outputs_k)
    ∧ m ∈ outputs_k ∧ (∀ x, x ∈ outputs_k → (x ≤ m)%Qc)
    ∧ counts_spec labels_k outputs_k (m + 1)%Qc
      = {| tp := 0; fp := 0;
           fn := count_where (fun i => nth i labels_k 0 = 1) R;
           tn := count_where (fun i => nth i labels_k 0 = 0) R |}
    ∧ (sweep_table labels_k outputs_k (reverse (np_argsort outputs_k))
         ((m + 1)%Qc :: ds)).*2
      = map (counts_spec labels_k outputs_k) ((m + 1)%Qc :: ds)
    ∧ _compute_auc L S = Ok (macro_auroc, macro_auprc, auroc, auprc)
    ∧ nth k auroc NaN
      = auroc_spec (map (counts_spec labels_k outputs_k) ((m + 1)%Qc :: ds))
    ∧ nth k auprc NaN
      = auprc_spec (map (counts_spec labels_k outputs_k) ((m + 1)%Qc :: ds)).
Proof.
  intros HR HL HS HbL Hk labels_k outputs_k.
  assert (length outputs_k = length labels_k) as Hlen.
  { unfold outputs_k, labels_k. rewrite !column_length.
    by destruct HL as [-> _], HS as [-> _]. }
  assert (length labels_k = R) as HlenR.
  { unfold labels_k. rewrite column_length. by destruct HL. }
  assert (outputs_k ≠ []) as Hne.
  { intros Hnil%(f_equal length). cbn in Hnil. lia. }
  assert (Forall (fun x => x = 0 ∨ x = 1) labels_k) as Hbin by by apply column_binary.
  destruct (sweep_table_counts labels_k outputs_k _
              (np_argsort_descending outputs_k) Hlen Hne)
    as (m & ds & Hthr & Hds & Helem & Hm & Hmax & Htable & _ & _).
  destruct (compute_auc_classes R C L S HR HL HS) as (per_class & Hauc & Hall).
  destruct (Forall2_lookup_l _ _ _ k k Hall) as ([a p] & Hkth & Hclass).
  { apply lookup_seq. lia. }
  fold labels_k outputs_k in Hclass.
  destruct (auc_class_with_closed np_argsort labels_k outputs_k
              (np_argsort_descending outputs_k) Hlen Hne)
    as (thresholds & Hthr' & Hclosed).
  rewrite Hthr in Hthr'. injection Hthr' as <-. cbv zeta in Hclosed.
  assert (map (counts_at labels_k outputs_k) ((m + 1)%Qc :: ds)
          = map (counts_spec labels_k outputs_k) ((m + 1)%Qc :: ds)) as Hcs.
  { apply map_ext. intros thr. by apply counts_at_spec. }
  apply Forall2_counts_fmap in Htable.
  set (cs := map (counts_at labels_k outputs_k) ((m + 1)%Qc :: ds)) in *.
  assert (a = auroc_sum (map tpr_of cs) (map tnr_of cs)
          ∧ p = auprc_sum (map tpr_of cs) (map ppv_of cs)) as [Ha Hp].
  { unfold auc_class in Hclass. rewrite Hclosed in Hclass.
    by injection Hclass as <- <-. }
  exists m, ds. eexists _, _, _, _. split_and!; try done.
  - rewrite <- HlenR. by apply counts_spec_sentinel.
  - by rewrite <- Hcs.
  - rewrite nth_lookup, list_lookup_fmap, Hkth. cbn.
    by rewrite Ha, auroc_sum_spec, Hcs.
  - rewrite nth_lookup, list_lookup_fmap, Hkth. cbn.
    by rewrite Hp, auprc_sum_spec, Hcs.
Qed.

Lemma auc_threshold_sweep_witness :
  let L := [[1; 0]; [0; 1]; [1; 1]] in
  let S := [[Q2Qc (9 # 10); Q2Qc (1 # 10)]; [Q2Qc (6 # 10); Q2Qc (4 # 10)];
            [Q2Qc (6 # 10); Q2Qc (7 # 10)]] in
  ∃ m ds, thresholds_of (column 0%Qc S 0) = Ok ((m + 1)%Qc :: ds)
          ∧ ∃ auroc, (∃ x y z, _compute_auc L S = Ok (x, y, auroc, z))
            ∧ nth 0 auroc NaN
              = auroc_spec (map (counts_spec (column 0 L 0) (column 0%Qc S 0))
                              ((m + 1)%Qc :: ds)).
Proof.
  intros L S.
  destruct (auc_threshold_sweep 3 2 L S 0)
    as (m & ds & x & y & auroc & z & Hthr & _ & _ & _ & _ & _ & _ & Hauc & Hk & _);
    [lia | unfold has_shape; by_compute | unfold has_shape; by_compute
     | unfold binary; by_compute | lia |].
  exists m, ds. split; [done|]. exists auroc. split; [|done]. by exists x, y, z.
Defined.

(** ** Invariants of the sweep *)

Lemma binary_count (l : list Z) :
  Forall (fun x => x = 0 ∨ x = 1) l →
  (length (filter (fun x => x = 1%Z) l) + length (filter (fun x => x = 0%Z) l)
   = length l)%nat.
Proof.
  induction 1 as [|x l [-> | ->] _ IH]; [done|..].
  - rewrite filter_cons_False, filter_cons_True by done. cbn. lia.
  - rewrite filter_cons_True, filter_cons_False by done. cbn. lia.
Qed.

Lemma absorb_one_monotone labels_k idx p c :
  let c' := absorb_one labels_k idx p c in
  tp c ≤ tp c' ∧ fp c ≤ fp c' ∧ fn c' ≤ fn c ∧ tn c' ≤ tn c
  ∧ tp c' + fn c' = tp c + fn c ∧ fp c' + tn c' = fp c + tn c.
Proof. unfold absorb_one. destruct (truth _); cbn; lia. Qed.

Lemma absorb_steps_monotone labels_k idx c ps :
  let c' := foldl (fun c p => absorb_one labels_k idx p c) c ps in
  tp c ≤ tp c' ∧ fp c ≤ fp c' ∧ fn c' ≤ fn c ∧ tn c' ≤ tn c
  ∧ tp c' + fn c' = tp c + fn c ∧ fp c' + tn c' = fp c + tn c.
Proof.
  revert c. induction ps as [|p ps IH]; intros c; [cbn; lia|].
  cbn [foldl]. pose proof (absorb_one_monotone labels_k idx p c) as H1.
  pose proof (IH (absorb_one labels_k idx p c)) as H2. cbv zeta in *. lia.
Qed.

Lemma Sorted_le_lookup (l : list nat) j i i' :
  Sorted le l → l !! j = Some i → l !! (S j) = Some i' → (i ≤ i')%nat.
Proof.
  intros Hl%Sorted_StronglySorted Hj HSj; [|apply _].
  eapply (StronglySorted_lookup le l j (S j)); [done|lia|done..].
Qed.

Lemma sweep_invariants_class labels_k outputs_k :
  Forall (fun x => x = 0 ∨ x = 1) labels_k →
  length outputs_k = length labels_k → outputs_k ≠ [] →
  let R := length labels_k in
  let idx := reverse (np_argsort outputs_k) in
  ∃ thresholds,
    thresholds_of outputs_k = Ok thresholds
    ∧ let table := sweep_table labels_k outputs_k idx thresholds in
      length table = length thresholds
      ∧ idx ≡ₚ seq 0 R
      ∧ (∀ j i c, table !! j = Some (i, c) →
           tp c + fp c + fn c + tn c = Z.of_nat R ∧ (i ≤ R)%nat)
      ∧ (∀ j i c i' c',
           table !! j = Some (i, c) → table !! (j + 1)%nat = Some (i', c') →
           (i ≤ i')%nat
           ∧ tp c ≤ tp c' ∧ fp c ≤ fp c' ∧ fn c' ≤ fn c ∧ tn c' ≤ tn c
           ∧ c' = foldl (fun c p => absorb_one labels_k idx p c) c (seq i (i' - i)))
      ∧ (∃ c, table !! 0%nat = Some (0%nat, c))
      ∧ (∃ c, last table = Some (R, c)).
Proof.
  intros Hbin Hlen Hne R idx.
  destruct (sweep_table_counts labels_k outputs_k idx
              (np_argsort_descending outputs_k) Hlen Hne)
    as (m & ds & Hthr & Hds & Helem & Hm & Hmax & Htable & Hcursor & Hupto).
  exists ((m + 1)%Qc :: ds). split; [done|]. cbv zeta.
  set (table := sweep_table labels_k outputs_k idx ((m + 1)%Qc :: ds)) in *.
  pose proof (Forall2_length _ _ _ Htable) as Hlength.
  rewrite Forall_lookup in Hupto.
  split_and!.
  - done.
  - destruct (np_argsort_descending outputs_k) as [Hperm _]. by rewrite Hlen in Hperm.
  - intros j i c Hj. split; [|by apply (Hupto j (i, c))].
    destruct (Forall2_lookup_r _ _ _ _ _ Htable Hj) as (thr & _ & Hc & _).
    cbn in Hc. subst c. unfold counts_at. cbn [tp fp fn tn].
    pose proof (binary_count labels_k Hbin). unfold R. lia.
  - intros j i c i' c' Hj HSj. rewrite Nat.add_1_r in HSj.
    assert (i ≤ i')%nat as Hii'.
    { eapply (Sorted_le_lookup _ j); [exact Hcursor|..];
        rewrite list_lookup_fmap; [by rewrite Hj|by rewrite HSj]. }
    destruct (Hupto j (i, c) Hj) as [_ Hc]. destruct (Hupto (S j) (i', c') HSj) as [_ Hc'].
    cbn in Hc, Hc'.
    assert (c' = foldl (fun c p => absorb_one labels_k idx p c) c (seq i (i' - i)))
      as Hstep.
    { rewrite Hc', Hc. replace i' with (i + (i' - i))%nat at 1 by lia.
      by rewrite seq_app, foldl_app. }
    pose proof (absorb_steps_monotone labels_k idx c (seq i (i' - i))) as Hmono.
    cbv zeta in Hmono. rewrite <- Hstep in Hmono. split_and!; [done|lia..|done].
  - by eexists.
  - destruct (last table) as [[i c]|] eqn:Hlast.
    2:{ apply last_None in Hlast. by rewrite Hlast in Hlength. }
    exists c. do 2 f_equal. rewrite last_lookup in Hlast.
    destruct (Forall2_lookup_r _ _ _ _ _ Htable Hlast) as (thr & Hthr_last & _ & Hi).
    cbn in Hi. rewrite <- Hlength, <- last_lookup in Hthr_last.
    assert (∀ x, x ∈ outputs_k → (thr ≤ x)%Qc) as Hmin.
    { destruct ds as [|d ds'] using rev_ind.
      - destruct outputs_k as [|x ?]; [done|].
        assert (x ∈ @nil Qc) as []%elem_of_nil. apply Helem. by left.
      - rewrite app_comm_cons, last_snoc in Hthr_last. injection Hthr_last as ->.
        intros x Hx%Helem. apply elem_of_app in Hx as [Hx|Hx].
        + apply Qclt_le_weak. by eapply (StronglySorted_app_1_elem_of _ _ _ x thr Hds);
            [|apply list_elem_of_singleton].
        + apply list_elem_of_singleton in Hx as ->. apply Qcle_refl. }
    unfold count_where in Hi. rewrite filter_all, length_seq in Hi; [unfold R; lia|].
    apply Forall_forall. intros r Hr%elem_of_seq.
    destruct (lookup_lt_is_Some_2 outputs_k r) as [x Hx]; [lia|].
    rewrite (nth_lookup_Some _ _ _ _ Hx). by eapply Hmin, list_elem_of_lookup_2.
Qed.

Lemma count_where_ext (P Q : nat → Prop) `{!∀ i, Decision (P i)}
    `{!∀ i, Decision (Q i)} R :
  (∀ i, (i < R)%nat → P i ↔ Q i) → count_where P R = count_where Q R.
Proof.
  intros HPQ. unfold count_where. do 2 f_equal. apply filter_ext_elem.
  intros i Hi%elem_of_seq. apply HPQ. lia.
Qed.

Lemma count_where_none (P : nat → Prop) `{!∀ i, Decision (P i)} R :
  (∀ i, (i < R)%nat → ¬ P i) → count_where P R = 0.
Proof.
  intros HP. unfold count_where. rewrite filter_none; [done|].
  apply Forall_forall. intros i Hi%elem_of_seq. apply HP. lia.
Qed.

Lemma count_where_pos (P : nat → Prop) `{!∀ i, Decision (P i)} R :
  0 < count_where P R → ∃ i, (i < R)%nat ∧ P i.
Proof.
  unfold count_where. intros Hpos.
  destruct (filter P (seq 0 R)) as [|i l] eqn:Hf; [cbn in Hpos; lia|].
  assert (i ∈ filter P (seq 0 R)) as [HP Hi%elem_of_seq]%list_elem_of_filter
    by (rewrite Hf; by left).
  exists i. split; [lia|done].
Qed.

Lemma count_where_nonneg (P : nat → Prop) `{!∀ i, Decision (P i)} R :
  0 ≤ count_where P R.
Proof. unfold count_where. lia. Qed.

Lemma count_where_split (A Q : nat → Prop) `{!∀ i, Decision (A i)}
    `{!∀ i, Decision (Q i)} R :
  count_where (fun i => A i ∧ Q i) R + count_where (fun i => ¬ A i ∧ Q i) R
  = count_where Q R.
Proof.
  unfold count_where. rewrite <- Nat2Z.inj_add. f_equal.
  induction (seq 0 R) as [|i l IH]; [done|].
  rewrite !filter_cons.
  destruct (decide (A i)), (decide (Q i));
    repeat (first [rewrite decide_True by tauto | rewrite decide_False by tauto]);
    cbn [length]; lia.
Qed.

(** The counters and the cursor in terms of the recordings: at the
    threshold [thr] the cursor has passed the recordings whose score
    reaches [thr]; those with label 1 are counted in TP, those with label 0
    in FP, and the recordings with a smaller score are still counted in FN
    or in TN. *)
Lemma sweep_records_class labels_k outputs_k :
  Forall (fun x => x = 0 ∨ x = 1) labels_k →
  length outputs_k = length labels_k → outputs_k ≠ [] →
  let R := length labels_k in
  let idx := reverse (np_argsort outputs_k) in
  let positives := count_where (fun r => nth r labels_k 0 = 1) R in
  let negatives := count_where (fun r => nth r labels_k 0 = 0) R in
  ∃ thresholds,
    thresholds_of outputs_k = Ok thresholds
    ∧ let table := sweep_table labels_k outputs_k idx thresholds in
      (∀ j i c thr, table !! j = Some (i, c) → thresholds !! j = Some thr →
         Z.of_nat i = count_where (fun r => (thr ≤ nth r outputs_k 0)%Qc) R
         ∧ tp c = count_where (fun r => (thr ≤ nth r outputs_k 0)%Qc
                                        ∧ nth r labels_k 0 = 1) R
         ∧ fp c = count_where (fun r => (thr ≤ nth r outputs_k 0)%Qc
                                        ∧ nth r labels_k 0 = 0) R
         ∧ fn c = count_where (fun r => (nth r outputs_k 0 < thr)%Qc
                                        ∧ nth r labels_k 0 = 1) R
         ∧ tn c = count_where (fun r => (nth r outputs_k 0 < thr)%Qc
                                        ∧ nth r labels_k 0 = 0) R
         ∧ tp c + fp c = Z.of_nat i
         ∧ fn c + tn c = Z.of_nat R - Z.of_nat i
         ∧ tp c + fn c = positives
         ∧ fp c + tn c = negatives)
      ∧ table !! 0%nat = Some (0%nat, Counts 0 0 positives negatives)
      ∧ last table = Some (R, Counts positives negatives 0 0)
      ∧ (∀ r, (r < R)%nat →
           ∃ j, (0 < j < length thresholds)%nat
                ∧ ∀ j' thr thr_prev,
                    (0 < j')%nat → thresholds !! j' = Some thr →
                    thresholds !! (j' - 1)%nat = Some thr_prev →
                    ((thr ≤ nth r outputs_k 0)%Qc
                     ∧ (nth r outputs_k 0 < thr_prev)%Qc) ↔ j' = j).
Proof.
  intros Hbin Hlen Hne R idx positives negatives.
  destruct (sweep_table_counts labels_k outputs_k idx
              (np_argsort_descending outputs_k) Hlen Hne)
    as (m & ds & Hthr & Hds & Helem & Hm & Hmax & Htable & Hcursor & Hupto).
  exists ((m + 1)%Qc :: ds). split; [done|]. cbv zeta.
  set (table := sweep_table labels_k outputs_k idx ((m + 1)%Qc :: ds)) in *.
  pose proof (Forall2_length _ _ _ Htable) as Hlength.
  assert (∀ r, (r < R)%nat → nth r labels_k 0 = 0 ↔ ¬ nth r labels_k 0 = 1)
    as Hlabel.
  { intros r Hr.
    destruct (proj1 (Forall_nth _ 0 labels_k) Hbin r Hr) as [-> | ->];
      split; (done || lia). }
  assert (∀ (Q : nat → Prop) `{!∀ i, Decision (Q i)},
            count_where (fun r => nth r labels_k 0 = 1 ∧ Q r) R
            + count_where (fun r => nth r labels_k 0 = 0 ∧ Q r) R
            = count_where Q R) as Hby_label.
  { intros Q ?.
    rewrite <- (count_where_split (fun r => nth r labels_k 0 = 1) Q R).
    f_equal. apply count_where_ext. intros r Hr. by rewrite (Hlabel r Hr). }
  assert (∀ j i c thr, table !! j = Some (i, c) →
            ((m + 1)%Qc :: ds) !! j = Some thr →
            Z.of_nat i = count_where (fun r => (thr ≤ nth r outputs_k 0)%Qc) R
            ∧ tp c = count_where (fun r => (thr ≤ nth r outputs_k 0)%Qc
                                           ∧ nth r labels_k 0 = 1) R
            ∧ fp c = count_where (fun r => (thr ≤ nth r outputs_k 0)%Qc
                                           ∧ nth r labels_k 0 = 0) R
            ∧ fn c = count_where (fun r => (nth r outputs_k 0 < thr)%Qc
                                           ∧ nth r labels_k 0 = 1) R
            ∧ tn c = count_where (fun r => (nth r outputs_k 0 < thr)%Qc
                                           ∧ nth r labels_k 0 = 0) R
            ∧ tp c + fp c = Z.of_nat i
            ∧ fn c + tn c = Z.of_nat R - Z.of_nat i
            ∧ tp c + fn c = positives
            ∧ fp c + tn c = negatives) as Hrecords.
  { intros j i c thr Hj Hthrj.
    destruct (Forall2_lookup_lr _ _ _ _ _ _ Htable Hthrj Hj) as [Hc Hi].
    cbn in Hc, Hi. rewrite counts_at_spec in Hc by done. subst c.
    unfold counts_spec. cbn [tp fp fn tn]. fold R positives negatives.
    pose proof (count_where_split
                  (fun r => (thr ≤ nth r outputs_k 0)%Qc)
                  (fun r => nth r labels_k 0 = 1) R) as Hpos.
    pose proof (count_where_split
                  (fun r => (thr ≤ nth r outputs_k 0)%Qc)
                  (fun r => nth r labels_k 0 = 0) R) as Hneg.
    fold positives in Hpos. fold negatives in Hneg.
    rewrite (count_where_ext
               (fun r => ¬ (thr ≤ nth r outputs_k 0)%Qc ∧ nth r labels_k 0 = 1)
               (fun r => (nth r outputs_k 0 < thr)%Qc ∧ nth r labels_k 0 = 1))
      in Hpos by (intros; by rewrite Qclt_nge).
    rewrite (count_where_ext
               (fun r => ¬ (thr ≤ nth r outputs_k 0)%Qc ∧ nth r labels_k 0 = 0)
               (fun r => (nth r outputs_k 0 < thr)%Qc ∧ nth r labels_k 0 = 0))
      in Hneg by (intros; by rewrite Qclt_nge).
    pose proof (Hby_label (fun r => (thr ≤ nth r outputs_k 0)%Qc) _) as Hcur.
    rewrite (count_where_ext
               (fun r => nth r labels_k 0 = 1 ∧ (thr ≤ nth r outputs_k 0)%Qc)
               (fun r => (thr ≤ nth r outputs_k 0)%Qc ∧ nth r labels_k 0 = 1))
      in Hcur by (intros; tauto).
    rewrite (count_where_ext
               (fun r => nth r labels_k 0 = 0 ∧ (thr ≤ nth r outputs_k 0)%Qc)
               (fun r => (thr ≤ nth r outputs_k 0)%Qc ∧ nth r labels_k 0 = 0))
      in Hcur by (intros; tauto).
    pose proof (Hby_label (fun _ => True) _) as Hall.
    rewrite (count_where_ext (fun r => nth r labels_k 0 = 1 ∧ True)
               (fun r => nth r labels_k 0 = 1)) in Hall by (intros; tauto).
    rewrite (count_where_ext (fun r => nth r labels_k 0 = 0 ∧ True)
               (fun r => nth r labels_k 0 = 0)) in Hall by (intros; tauto).
    fold positives negatives in Hall.
    assert (count_where (fun _ => True) R = Z.of_nat R) as HR.
    { unfold count_where. rewrite filter_all by (by apply Forall_forall).
      by rewrite length_seq. }
    fold R in Hi. split_and!; lia. }
  assert (table !! 0%nat = Some (0%nat, Counts 0 0 positives negatives)) as Hfirst.
  { unfold table, sweep_table. cbn [lookup list_lookup].
    by rewrite !(length_filter_positions 0 _ labels_k). }
  split_and!; [exact Hrecords|exact Hfirst| |].
  - destruct (last table) as [[i c]|] eqn:Hlast.
    2:{ apply last_None in Hlast. by rewrite Hlast in Hlength. }
    rewrite last_lookup in Hlast.
    destruct (lookup_lt_is_Some_2 ((m + 1)%Qc :: ds) (pred (length table)))
      as [thr Hthr_last].
    { rewrite Hlength. apply lookup_lt_Some in Hlast. lia. }
    destruct (Hrecords _ i c thr Hlast Hthr_last)
      as (Hi & Htp & Hfp & Hfn & Htn & Hsum1 & Hsum2 & Hsum3 & Hsum4).
    rewrite <- Hlength, <- last_lookup in Hthr_last.
    assert (∀ x, x ∈ outputs_k → (thr ≤ x)%Qc) as Hmin.
    { destruct ds as [|d ds'] using rev_ind.
      - destruct outputs_k as [|x ?]; [done|].
        assert (x ∈ @nil Qc) as []%elem_of_nil. apply Helem. by left.
      - rewrite app_comm_cons, last_snoc in Hthr_last. injection Hthr_last as ->.
        intros x Hx%Helem. apply elem_of_app in Hx as [Hx|Hx].
        + apply Qclt_le_weak. by eapply (StronglySorted_app_1_elem_of _ _ _ x thr Hds);
            [|apply list_elem_of_singleton].
        + apply list_elem_of_singleton in Hx as ->. apply Qcle_refl. }
    assert (i = R) as ->.
    { unfold count_where in Hi. rewrite filter_all, length_seq in Hi; [lia|].
      apply Forall_forall. intros r Hr%elem_of_seq.
      destruct (lookup_lt_is_Some_2 outputs_k r) as [x Hx]; [unfold R in *; lia|].
      rewrite (nth_lookup_Some _ _ _ _ Hx). by eapply Hmin, list_elem_of_lookup_2. }
    pose proof (count_where_nonneg
                  (fun r => (nth r outputs_k 0 < thr)%Qc ∧ nth r labels_k 0 = 1) R).
    pose proof (count_where_nonneg
                  (fun r => (nth r outputs_k 0 < thr)%Qc ∧ nth r labels_k 0 = 0) R).
    do 2 f_equal. destruct c as [ctp cfp cfn ctn]. cbn [tp fp fn tn] in *.
    f_equal; lia.
  - intros r Hr.
    assert (nth r outputs_k 0%Qc ∈ ds) as Hin.
    { apply Helem, list_elem_of_In, nth_In. unfold R in Hr. lia. }
    apply list_elem_of_lookup_1 in Hin as [q Hq].
    pose proof (lookup_lt_Some _ _ _ Hq) as Hqlen.
    exists (S q). split; [cbn [length]; lia|].
    intros j' thr thr_prev Hj' Hthrj' Hprev.
    destruct j' as [|j']; [lia|]. cbn in Hthrj'.
    replace (S j' - 1)%nat with j' in Hprev by lia.
    assert (∀ a b x y, (a < b)%nat → ds !! a = Some x → ds !! b = Some y →
              (y < x)%Qc) as Hdesc.
    { intros a b x y Hab Ha Hb.
      exact (StronglySorted_lookup (flip Qclt) ds a b x y Hds Hab Ha Hb). }
    split.
    + intros [Hle Hlt]. f_equal.
      destruct (Nat.lt_trichotomy j' q) as [Hjq|[->|Hjq]]; [|done|].
      * pose proof (Hdesc j' q _ _ Hjq Hthrj' Hq) as Hgt.
        destruct (Qclt_not_le _ _ Hgt Hle).
      * destruct j' as [|j'']; [lia|]. cbn in Hprev.
        destruct (decide (j'' = q)) as [->|Hne'].
        -- assert (thr_prev = nth r outputs_k 0%Qc) as ->.
           { change (ds !! q = Some thr_prev) in Hprev. congruence. }
           destruct (Qclt_not_le _ _ Hlt). apply Qcle_refl.
        -- pose proof (Hdesc q j'' _ _ ltac:(lia) Hq Hprev) as Hgt.
           destruct (Qclt_not_le _ _ Hlt). by apply Qclt_le_weak.
    + intros [= ->]. assert (thr = nth r outputs_k 0%Qc) as ->.
      { change (ds !! q = Some thr) in Hthrj'. congruence. }
      split; [apply Qcle_refl|].
      destruct q as [|q']; cbn in Hprev.
      * injection Hprev as <-. eapply Qcle_lt_trans; [|apply Qclt_succ].
        apply Hmax, list_elem_of_In, nth_In. unfold R in Hr. lia.
      * exact (Hdesc q' (S q') _ _ ltac:(lia) Hprev Hq).
Qed.

(** C10.  For a class [k] of 0/1 labels, with [P] recordings of label 1 and
    [N] of label 0.  At every threshold index the cursor has passed exactly
    the recordings whose score reaches the threshold: those of label 1 are
    counted in TP and those of label 0 in FP, the recordings of a smaller
    score are counted in FN (label 1) or TN (label 0).  Hence TP + FP is
    the cursor, FN + TN is the number of recordings minus the cursor,
    TP + FN = P, FP + TN = N and the four counters add up to the number of
    recordings.  From one index to the next TP and FP do not decrease, FN
    and TN do not increase and the cursor does not decrease, the counters
    changing by one pass of the loop body for each cursor position in
    between.  The sweep starts at cursor 0 with the counters (0, 0, P, N)
    and ends at cursor R with (P, N, 0, 0), and every recording leaves FN
    or TN at one threshold index and at no other: the index whose
    threshold its score reaches while it is below the threshold before. *)
Theorem sweep_invariants R C (L : matrix Z) (S : matrix Qc) k :
  (0 < R)%nat → has_shape R C L → has_shape R C S → binary L → (k < C)%nat →
  let labels_k := column 0 L k in
  let outputs_k := column 0%Qc S k in
  let idx := reverse (np_argsort outputs_k) in
  let positives := count_where (fun r => at2 0 L r k = 1) R in
  let negatives := count_where (fun r => at2 0 L r k = 0) R in
  ∃ thresholds,
    thresholds_of outputs_k = Ok thresholds
    ∧ let table := sweep_table labels_k outputs_k idx thresholds in
      length table = length thresholds
      ∧ idx ≡ₚ seq 0 R
      ∧ (∀ j i c, table !! j = Some (i, c) →
           tp c + fp c + fn c + tn c = Z.of_nat R ∧ (i ≤ R)%nat)
      ∧ (∀ j i c thr, table !! j = Some (i, c) → thresholds !! j = Some thr →
           Z.of_nat i = count_where (fun r => (thr ≤ at2 0%Qc S r k)%Qc) R
           ∧ tp c = count_where (fun r => (thr ≤ at2 0%Qc S r k)%Qc
                                          ∧ at2 0 L r k = 1) R
           ∧ fp c = count_where (fun r => (thr ≤ at2 0%Qc S r k)%Qc
                                          ∧ at2 0 L r k = 0) R
           ∧ fn c = count_where (fun r => (at2 0%Qc S r k < thr)%Qc
                                          ∧ at2 0 L r k = 1) R
           ∧ tn c = count_where (fun r => (at2 0%Qc S r k < thr)%Qc
                                          ∧ at2 0 L r k = 0) R
           ∧ tp c + fp c = Z.of_nat i
           ∧ fn c + tn c = Z.of_nat R - Z.of_nat i
           ∧ tp c + fn c = positives
           ∧ fp c + tn c = negatives)
      ∧ (∀ j i c i' c',
           table !! j = Some (i, c) → table !! (j + 1)%nat = Some (i', c') →
           (i ≤ i')%nat
           ∧ tp c ≤ tp c' ∧ fp c ≤ fp c' ∧ fn c' ≤ fn c ∧ tn c' ≤ tn c
           ∧ c' = foldl (fun c p => absorb_one labels_k idx p c) c (seq i (i' - i)))
      ∧ table !! 0%nat = Some (0%nat, Counts 0 0 positives negatives)
      ∧ last table = Some (R, Counts positives negatives 0 0)
      ∧ (∀ r, (r < R)%nat →
           ∃ j, (0 < j < length thresholds)%nat
                ∧ ∀ j' thr thr_prev,
                    (0 < j')%nat → thresholds !! j' = Some thr →
                    thresholds !! (j' - 1)%nat = Some thr_prev →
                    ((thr ≤ at2 0%Qc S r k)%Qc
                     ∧ (at2 0%Qc S r k < thr_prev)%Qc) ↔ j' = j).
Proof.
  intros HR HL HS HbL Hk labels_k outputs_k idx positives negatives.
  assert (length labels_k = R) as HlenR.
  { unfold labels_k. rewrite column_length. by destruct HL. }
  assert (length outputs_k = length labels_k) as Hlen.
  { unfold outputs_k. rewrite column_length, HlenR. by destruct HS. }
  assert (Forall (fun x => x = 0 ∨ x = 1) labels_k) as Hbin
    by (by apply column_binary).
  assert (outputs_k ≠ []) as Hne.
  { intros Hnil%(f_equal length). cbn in Hnil. lia. }
  destruct (sweep_invariants_class labels_k outputs_k Hbin Hlen Hne)
    as (thresholds & Hthr & Hlength & Hperm & Hsum & Hstep & _ & _).
  destruct (sweep_records_class labels_k outputs_k Hbin Hlen Hne)
    as (thresholds' & Hthr' & Hrecords & Hfirst & Hlast & Honce).
  assert (thresholds' = thresholds) as -> by congruence.
  fold idx in Hlength, Hperm, Hsum, Hstep, Hrecords, Hfirst, Hlast.
  rewrite HlenR in *.
  assert (∀ r, nth r labels_k 0 = at2 0 L r k) as Hl
    by (intros; apply column_nth).
  assert (∀ r, nth r outputs_k 0%Qc = at2 0%Qc S r k) as Ho
    by (intros; apply column_nth).
  exists thresholds. split; [done|]. cbv zeta.
  split_and!; [done|done|done| |done| | |].
  - intros j i c thr Hj Hthrj.
    destruct (Hrecords j i c thr Hj Hthrj)
      as (Hi & Htp & Hfp & Hfn & Htn & H1 & H2 & H3 & H4).
    split_and!;
      [rewrite Hi|rewrite Htp|rewrite Hfp|rewrite Hfn|rewrite Htn|done|done
       |rewrite H3|rewrite H4];
      apply count_where_ext; intros r _; by rewrite ?Hl, ?Ho.
  - rewrite Hfirst. do 3 f_equal;
      apply count_where_ext; intros r _; by rewrite ?Hl.
  - rewrite Hlast. do 3 f_equal;
      apply count_where_ext; intros r _; by rewrite ?Hl.
  - intros r Hr. destruct (Honce r Hr) as (j & Hj & Huniq).
    exists j. split; [done|]. intros j' thr thr_prev Hj' Hthrj' Hprev.
    rewrite <- (Ho r). by apply Huniq.
Qed.

Lemma sweep_invariants_witness :
  let L := [[1; 0]; [0; 1]; [1; 1]] in
  let S := [[Q2Qc (9 # 10); Q2Qc (1 # 10)]; [Q2Qc (6 # 10); Q2Qc (4 # 10)];
            [Q2Qc (6 # 10); Q2Qc (7 # 10)]] in
  let idx := reverse (np_argsort (column 0%Qc S 1)) in
  ∃ thresholds,
    thresholds_of (column 0%Qc S 1) = Ok thresholds
    ∧ idx ≡ₚ seq 0 3
    ∧ last (sweep_table (column 0 L 1) (column 0%Qc S 1) idx thresholds)
      = Some (3%nat, Counts 2 1 0 0).
Proof.
  intros L S idx.
  destruct (sweep_invariants 3 2 L S 1)
    as (thresholds & Hthr & _ & Hperm & _ & _ & _ & _ & Hlast & _);
    [lia | unfold has_shape; by_compute | unfold has_shape; by_compute
     | unfold binary; by_compute | lia |].
  exists thresholds. split_and!; [done..|].
  fold idx in Hlast. rewrite Hlast. do 3 f_equal; by vm_compute.
Defined.

(** ** Independence of the order of the recordings *)

Lemma np_unique_Permutation a a' : a ≡ₚ a' → np_unique a = np_unique a'.
Proof.
  intros Hperm. unfold np_unique.
  apply (StronglySorted_unique Qcle).
  - apply StronglySorted_merge_sort; apply _.
  - apply StronglySorted_merge_sort; apply _.
  - rewrite !merge_sort_Permutation.
    apply NoDup_Permutation; [apply NoDup_remove_dups..|].
    intros x. by rewrite !elem_of_remove_dups, Hperm.
Qed.

Lemma count_where_zip (P : Z → Qc → Prop) `{!∀ l s, Decision (P l s)}
    (labels_k : list Z) (outputs_k : list Qc) :
  length outputs_k = length labels_k →
  count_where (fun i => P (nth i labels_k 0) (nth i outputs_k 0%Qc))
              (length labels_k)
  = Z.of_nat (length (filter (fun ls => P ls.1 ls.2) (zip labels_k outputs_k))).
Proof.
  intros Hlen. unfold count_where. f_equal.
  rewrite (length_filter_positions (0, 0%Qc) _ (zip labels_k outputs_k)).
  rewrite length_zip_with_l_eq by done. f_equal.
  apply filter_ext_elem. intros i Hi%elem_of_seq.
  destruct (lookup_lt_is_Some_2 labels_k i) as [l Hl]; [lia|].
  destruct (lookup_lt_is_Some_2 outputs_k i) as [s Hs]; [lia|].
  rewrite (nth_lookup_Some _ _ _ _ Hl), (nth_lookup_Some _ _ _ _ Hs).
  rewrite (nth_lookup_Some (zip labels_k outputs_k) i _ (l, s)); [done|].
  apply lookup_zip_with_Some. by exists l, s.
Qed.

Lemma counts_at_Permutation labels_k outputs_k labels_k' outputs_k' thr :
  length outputs_k = length labels_k → length outputs_k' = length labels_k' →
  zip labels_k outputs_k ≡ₚ zip labels_k' outputs_k' →
  counts_at labels_k outputs_k thr = counts_at labels_k' outputs_k' thr.
Proof.
  intros Hlen Hlen' Hperm.
  assert (labels_k ≡ₚ labels_k') as Hl.
  { rewrite <- (fst_zip labels_k outputs_k), <- (fst_zip labels_k' outputs_k') by lia.
    by rewrite Hperm. }
  assert (∀ (P : Z → Qc → Prop) `{!∀ l s, Decision (P l s)},
            count_where (fun i => P (nth i labels_k 0) (nth i outputs_k 0%Qc))
                        (length labels_k)
            = count_where (fun i => P (nth i labels_k' 0) (nth i outputs_k' 0%Qc))
                          (length labels_k')) as Hcw.
  { intros P ?. rewrite !count_where_zip by done. by rewrite Hperm. }
  unfold counts_at. apply counts_eq; cbn [tp fp fn tn].
  - exact (Hcw (fun l s => (thr ≤ s)%Qc ∧ truth l = true) _).
  - exact (Hcw (fun l s => (thr ≤ s)%Qc ∧ truth l = false) _).
  - f_equal; [by rewrite Hl|].
    exact (Hcw (fun l s => (thr ≤ s)%Qc ∧ truth l = true) _).
  - f_equal; [by rewrite Hl|].
    exact (Hcw (fun l s => (thr ≤ s)%Qc ∧ truth l = false) _).
Qed.

Lemma auc_class_Permutation labels_k outputs_k labels_k' outputs_k' :
  length outputs_k = length labels_k → length outputs_k' = length labels_k' →
  zip labels_k outputs_k ≡ₚ zip labels_k' outputs_k' →
  auc_class labels_k outputs_k = auc_class labels_k' outputs_k'.
Proof.
  intros Hlen Hlen' Hperm.
  assert (outputs_k ≡ₚ outputs_k') as Ho.
  { rewrite <- (snd_zip labels_k outputs_k), <- (snd_zip labels_k' outputs_k') by lia.
    by rewrite Hperm. }
  destruct (decide (outputs_k = [])) as [->|Hne].
  { apply Permutation_nil_l in Ho as <-.
    destruct labels_k, labels_k'; done. }
  assert (outputs_k' ≠ []) as Hne'.
  { intros ->. by apply Permutation_nil_r in Ho. }
  unfold auc_class.
  destruct (auc_class_with_closed np_argsort labels_k outputs_k
              (np_argsort_descending _) Hlen Hne) as (thrs & Hthr & ->).
  destruct (auc_class_with_closed np_argsort labels_k' outputs_k'
              (np_argsort_descending _) Hlen' Hne') as (thrs' & Hthr' & ->).
  assert (thrs = thrs') as <-.
  { unfold thresholds_of in Hthr, Hthr'.
    rewrite <- (np_unique_Permutation _ _ Ho) in Hthr'. congruence. }
  cbv zeta. do 2 f_equal.
  all: rewrite (map_ext (counts_at labels_k outputs_k)
                        (counts_at labels_k' outputs_k')); [done|].
  all: intros thr; by apply counts_at_Permutation.
Qed.

Lemma permute_rows_shape {A} R C p (a : matrix A) :
  has_shape R C a → p ≡ₚ seq 0 R → has_shape R C (permute_rows p a).
Proof.
  intros Ha Hp. split.
  - unfold permute_rows. by rewrite length_fmap, Hp, length_seq.
  - apply Forall_fmap, Forall_forall. intros i Hi. cbn.
    rewrite Hp in Hi. apply elem_of_seq in Hi.
    apply (has_shape_row R C); [done|lia].
Qed.

Lemma column_permute_rows {A} (d : A) p (a : matrix A) k :
  column d (permute_rows p a) k = (fun i => nth i (column d a k) d) <$> p.
Proof.
  unfold column at 1, permute_rows. rewrite <- list_fmap_compose.
  apply list_fmap_ext. intros _ i _. cbn. by rewrite column_nth.
Qed.

Lemma zip_fmap_same {A B D} (f : D → A) (g : D → B) (p : list D) :
  zip (f <$> p) (g <$> p) = (fun i => (f i, g i)) <$> p.
Proof. induction p as [|i p IH]; [done|]. cbn. by rewrite IH. Qed.

Lemma zip_permuted (labels_k : list Z) (outputs_k : list Qc) R p :
  length labels_k = R → length outputs_k = R → p ≡ₚ seq 0 R →
  zip ((fun i => nth i labels_k 0) <$> p) ((fun i => nth i outputs_k 0%Qc) <$> p)
  ≡ₚ zip labels_k outputs_k.
Proof.
  intros Hl Ho Hp. rewrite zip_fmap_same, Hp.
  by rewrite (zip_with_positions pair 0 0%Qc R labels_k outputs_k).
Qed.

Lemma mapM_result_ext {A B} (f g : A → result B) (l : list A) :
  (∀ x, x ∈ l → f x = g x) → mapM f l = mapM g l.
Proof.
  induction l as [|x l IH]; intros Hfg; [done|].
  cbn. rewrite Hfg by (by left). by rewrite IH by (intros; apply Hfg; by right).
Qed.

(** C8.  Reordering the recordings, the rows of the labels and of the
    scores alike, leaves the result of [_compute_auc] unchanged: the AUROC
    and the AUPRC of every class and the two macro values. *)
Theorem auc_permutation_invariant R C (L : matrix Z) (S : matrix Qc) p :
  has_shape R C L → has_shape R C S → p ≡ₚ seq 0 R →
  _compute_auc (permute_rows p L) (permute_rows p S) = _compute_auc L S.
Proof.
  intros HL HS Hp.
  destruct (decide (R = 0)%nat) as [->|HR].
  { apply Permutation_nil_r in Hp as ->. destruct HL as [HL _].
    by destruct L. }
  unfold _compute_auc.
  rewrite (shape_has_shape R C (permute_rows p L))
    by (lia || by apply permute_rows_shape).
  rewrite (shape_has_shape R C L) by (lia || done).
  rewrite (mapM_result_ext _
             (fun k => auc_class (column 0 L k) (column 0%Qc S k))); [done|].
  intros k _. rewrite !column_permute_rows.
  assert (length (column 0 L k) = R) as Hl by (rewrite column_length; by destruct HL).
  assert (length (column 0%Qc S k) = R) as Ho by (rewrite column_length; by destruct HS).
  apply auc_class_Permutation.
  - by rewrite !length_fmap.
  - by rewrite Ho.
  - by apply (zip_permuted _ _ R).
Qed.

Lemma auc_permutation_invariant_witness :
  let L := [[1; 0]; [0; 1]; [1; 1]] in
  let S := [[Q2Qc (9 # 10); Q2Qc (1 # 10)]; [Q2Qc (6 # 10); Q2Qc (4 # 10)];
            [Q2Qc (6 # 10); Q2Qc (7 # 10)]] in
  _compute_auc (permute_rows [2; 0; 1]%nat L) (permute_rows [2; 0; 1]%nat S)
  = _compute_auc L S.
Proof.
  intros L S.
  apply (auc_permutation_invariant 3 2 L S [2; 0; 1]%nat);
    [unfold has_shape; by_compute | unfold has_shape; by_compute | by_compute].
Defined.

(** ** The per-class values in the specification's terms *)

Lemma auc_class_spec labels_k outputs_k :
  Forall (fun x => x = 0 ∨ x = 1) labels_k →
  length outputs_k = length labels_k → outputs_k ≠ [] →
  ∃ m ds,
    thresholds_of outputs_k = Ok ((m + 1)%Qc :: ds)
    ∧ StronglySorted (flip Qclt) ds
    ∧ (∀ x, x ∈ ds ↔ x ∈ outputs_k)
    ∧ m ∈ outputs_k ∧ (∀ x, x ∈ outputs_k → (x ≤ m)%Qc)
    ∧ auc_class labels_k outputs_k
      = Ok (auroc_spec (map (counts_spec labels_k outputs_k) ((m + 1)%Qc :: ds)),
            auprc_spec (map (counts_spec labels_k outputs_k) ((m + 1)%Qc :: ds))).
Proof.
  intros Hbin Hlen Hne.
  destruct (thresholds_of_spec outputs_k Hne) as (m & ds & Hthr & Hds & Helem & Hm & Hmax).
  destruct (auc_class_with_closed np_argsort labels_k outputs_k
              (np_argsort_descending outputs_k) Hlen Hne)
    as (thresholds & Hthr' & Hclosed).
  rewrite Hthr in Hthr'. injection Hthr' as <-. cbv zeta in Hclosed.
  exists m, ds. split_and!; try done.
  unfold auc_class. rewrite Hclosed, auroc_sum_spec, auprc_sum_spec.
  by rewrite (map_ext (counts_at labels_k outputs_k)
                      (counts_spec labels_k outputs_k))
    by (intros thr; by apply counts_at_spec).
Qed.

Lemma foldl_fadd_nan l : foldl fadd NaN l = NaN.
Proof. induction l as [|x l IH]; [done|]. cbn. apply IH. Qed.

Lemma fsum_cons_nan l : fsum (NaN :: l) = NaN.
Proof. unfold fsum. cbn. apply foldl_fadd_nan. Qed.

Lemma auroc_spec_nan_tpr cs :
  (2 ≤ length cs)%nat → Forall (fun c => TPR c = NaN) cs →
  auroc_spec cs = NaN ∧ auprc_spec cs = NaN.
Proof.
  intros Hlen Hcs. destruct cs as [|c0 [|c1 cs]]; [cbn in Hlen; lia..|].
  apply Forall_cons_1 in Hcs as [H0 [H1 _]%Forall_cons_1].
  unfold auroc_spec, auprc_spec. cbn [length Nat.sub seq map nth Nat.add].
  rewrite H0, H1. split; apply fsum_cons_nan.
Qed.

Lemma auroc_spec_nan_tnr cs :
  (2 ≤ length cs)%nat → Forall (fun c => TNR c = NaN) cs → auroc_spec cs = NaN.
Proof.
  intros Hlen Hcs. destruct cs as [|c0 [|c1 cs]]; [cbn in Hlen; lia..|].
  apply Forall_cons_1 in Hcs as [H0 [H1 _]%Forall_cons_1].
  unfold auroc_spec. cbn [length Nat.sub seq map nth Nat.add].
  rewrite H0, H1.
  replace (fhalf * (TPR c1 - TPR c0) * (NaN + NaN))%F with NaN
    by (by destruct (fhalf * (TPR c1 - TPR c0))%F).
  apply fsum_cons_nan.
Qed.

Lemma TPR_no_positive labels_k outputs_k thr :
  count_where (fun i => nth i labels_k 0 = 1) (length labels_k) = 0 →
  TPR (counts_spec labels_k outputs_k thr) = NaN.
Proof.
  intros Hpos. unfold TPR, counts_spec, ratio. cbn [tp fn].
  rewrite decide_True; [done|lia].
Qed.

Lemma TNR_no_negative labels_k outputs_k thr :
  count_where (fun i => nth i labels_k 0 = 0) (length labels_k) = 0 →
  TNR (counts_spec labels_k outputs_k thr) = NaN.
Proof.
  intros Hneg. unfold TNR, counts_spec, ratio. cbn [fp tn].
  rewrite decide_True; [done|lia].
Qed.

(** A class without positive recordings has NaN for both values, a class
    without negative recordings has NaN for its AUROC. *)
Lemma auc_class_nan labels_k outputs_k :
  Forall (fun x => x = 0 ∨ x = 1) labels_k →
  length outputs_k = length labels_k → outputs_k ≠ [] →
  ∃ auroc_k auprc_k,
    auc_class labels_k outputs_k = Ok (auroc_k, auprc_k)
    ∧ (count_where (fun i => nth i labels_k 0 = 1) (length labels_k) = 0 →
       auroc_k = NaN ∧ auprc_k = NaN)
    ∧ (count_where (fun i => nth i labels_k 0 = 0) (length labels_k) = 0 →
       auroc_k = NaN).
Proof.
  intros Hbin Hlen Hne.
  destruct (auc_class_spec labels_k outputs_k Hbin Hlen Hne)
    as (m & ds & _ & _ & Helem & _ & _ & ->).
  eexists _, _. split; [done|].
  assert (2 ≤ length (map (counts_spec labels_k outputs_k) ((m + 1)%Qc :: ds)))%nat
    as Hlen2.
  { rewrite length_map. destruct ds as [|d ds]; [|cbn; lia].
    destruct outputs_k as [|x ?]; [done|].
    assert (x ∈ @nil Qc) as []%elem_of_nil. apply Helem. by left. }
  split.
  - intros Hpos. apply auroc_spec_nan_tpr; [done|].
    apply Forall_fmap, Forall_forall. intros thr _. by apply TPR_no_positive.
  - intros Hneg. apply auroc_spec_nan_tnr; [done|].
    apply Forall_fmap, Forall_forall. intros thr _. by apply TNR_no_negative.
Qed.

Lemma compute_auc_class_nan R C (L : matrix Z) (S : matrix Qc) k :
  (0 < R)%nat → has_shape R C L → has_shape R C S → binary L → (k < C)%nat →
  ∃ macro_auroc macro_auprc auroc auprc,
    _compute_auc L S = Ok (macro_auroc, macro_auprc, auroc, auprc)
    ∧ (count_where (fun i => at2 0 L i k = 1) R = 0 →
       nth k auroc f0 = NaN ∧ nth k auprc f0 = NaN)
    ∧ (count_where (fun i => at2 0 L i k = 0) R = 0 → nth k auroc f0 = NaN).
Proof.
  intros HR HL HS HbL Hk.
  destruct (compute_auc_classes R C L S HR HL HS) as (per_class & Hauc & Hall).
  destruct (Forall2_lookup_l _ _ _ k k Hall) as ([a p] & Hkth & Hclass).
  { apply lookup_seq. lia. }
  assert (length (column 0 L k) = R) as HlenR by (rewrite column_length; by destruct HL).
  destruct (auc_class_nan (column 0 L k) (column 0%Qc S k))
    as (a' & p' & Hclass' & Hpos & Hneg).
  { by apply column_binary. }
  { rewrite column_length, HlenR. by destruct HS. }
  { intros Hnil%(f_equal length). rewrite column_length in Hnil.
    destruct HS as [HS _]. cbn in Hnil. lia. }
  rewrite Hclass in Hclass'. injection Hclass' as <- <-.
  rewrite HlenR in Hpos, Hneg.
  assert (∀ v, count_where (fun i => nth i (column 0 L k) 0 = v) R
               = count_where (fun i => at2 0 L i k = v) R) as Hcol.
  { intros v. unfold count_where. do 2 f_equal. apply filter_ext_elem.
    intros i _. by rewrite column_nth. }
  rewrite !Hcol in Hpos, Hneg.
  eexists _, _, _, _. split; [exact Hauc|].
  rewrite !nth_lookup, !list_lookup_fmap, Hkth. cbn. by split.
Qed.

Lemma float_truth_zero x : x = f0 → float_truth x = false.
Proof. intros ->. cbn. by rewrite bool_decide_eq_false_2 by (by intros []). Qed.

(** C4.  On arrays of one shape with at least one recording (0/1 labels
    and binary predictions for the F-measures, [beta] in the range of
    [beta_in_range]), the macro AUROC and AUPRC of [_compute_auc], the
    macro F1 of [_compute_f_measure] and the macro F-beta and G-beta of
    [_compute_beta_measures] are the means of the per-class values over the
    entries that are not NaN, and NaN (a value, no error is raised) when
    every entry is NaN.  A per-class F1, F-beta or G-beta is NaN when its
    denominator is zero; the AUROC and AUPRC of a class without positive
    recordings (TP + FN = 0) and the AUROC of a class without negative
    recordings (FP + TN = 0) are NaN. *)
Theorem macro_metrics_ignore_nan :
  (∀ R C (L : matrix Z) (S : matrix Qc),
     (0 < R)%nat → has_shape R C L → has_shape R C S →
     ∃ auroc auprc,
       _compute_auc L S
       = Ok (mean_ignoring_nan auroc, mean_ignoring_nan auprc, auroc, auprc)
       ∧ length auroc = C ∧ length auprc = C)
  ∧ (∀ R C L B,
       (0 < R)%nat → has_shape R C L → has_shape R C B →
       binary L → binary B →
       ∃ A, _compute_confusion_matrices L B false = Ok A
            ∧ let f_measure := map (f_measure_class A) (seq 0 (shape L).2) in
              _compute_f_measure L B = Ok (mean_ignoring_nan f_measure, f_measure))
  ∧ (∀ R C L B beta,
       (0 < R)%nat → has_shape R C L → has_shape R C B →
       binary L → binary B → beta_in_range beta →
       ∃ A, _compute_confusion_matrices L B true = Ok A
            ∧ let f_beta := map (f_beta_class beta A) (seq 0 (shape L).2) in
              let g_beta := map (g_beta_class beta A) (seq 0 (shape L).2) in
              _compute_beta_measures L B beta
              = Ok (mean_ignoring_nan f_beta, mean_ignoring_nan g_beta))
  ∧ (∀ a, Forall (fun x => x = NaN) a → mean_ignoring_nan a = NaN)
  ∧ (∀ A k,
       (k < length A)%nat → has_shape 2 2 (nth k A []) →
       (f2 * at3 A k 1 1 + at3 A k 1 0 + at3 A k 0 1)%F = f0 →
       f_measure_class A k = NaN)
  ∧ (∀ beta A k,
       (k < length A)%nat → has_shape 2 2 (nth k A []) → beta_in_range beta →
       ((f1 + beta * beta) * at3 A k 1 1 + at3 A k 1 0
        + beta * beta * at3 A k 0 1)%F = f0 →
       f_beta_class beta A k = NaN)
  ∧ (∀ beta A k,
       (k < length A)%nat → has_shape 2 2 (nth k A []) → beta_in_range beta →
       (at3 A k 1 1 + at3 A k 1 0 + beta * at3 A k 0 1)%F = f0 →
       g_beta_class beta A k = NaN)
  ∧ (∀ R C (L : matrix Z) (S : matrix Qc) k,
       (0 < R)%nat → has_shape R C L → has_shape R C S → binary L →
       (k < C)%nat →
       ∃ macro_auroc macro_auprc auroc auprc,
         _compute_auc L S = Ok (macro_auroc, macro_auprc, auroc, auprc)
         ∧ (count_where (fun i => at2 0 L i k = 1) R = 0 →
            nth k auroc f0 = NaN ∧ nth k auprc f0 = NaN)
         ∧ (count_where (fun i => at2 0 L i k = 0) R = 0 →
            nth k auroc f0 = NaN)).
Proof.
  split_and!.
  - intros R C L S HR HL HS.
    destruct (compute_auc_classes R C L S HR HL HS) as (per_class & Hauc & Hall).
    exists per_class.*1, per_class.*2. split; [done|].
    apply Forall2_length in Hall. by rewrite !length_fmap, <- Hall, length_seq.
  - intros R C L B _ _ _ HL HB.
    destruct (confusion_matrices_ok L B false HL HB) as [A HA].
    exists A. split; [done|]. unfold _compute_f_measure.
    destruct (shape L) as [R' C']. rewrite HA. cbn [mbind result_bind snd].
    by rewrite guarded_nanmean.
  - intros R C L B beta _ _ _ HL HB _.
    destruct (confusion_matrices_ok L B true HL HB) as [A HA].
    exists A. split; [done|]. unfold _compute_beta_measures, beta_measures_classes.
    destruct (shape L) as [R' C']. rewrite HA. cbn [mbind result_bind snd].
    by rewrite !nanmean_mean_ignoring_nan.
  - apply mean_ignoring_nan_all_nan.
  - intros A k _ _ H. unfold f_measure_class. by rewrite (float_truth_zero _ H).
  - intros beta A k _ _ _ H. unfold f_beta_class.
    by rewrite (float_truth_zero _ H).
  - intros beta A k _ _ _ H. unfold g_beta_class.
    by rewrite (float_truth_zero _ H).
  - apply compute_auc_class_nan.
Qed.

Lemma macro_metrics_ignore_nan_witness :
  let L := [[1; 0]; [0; 0]; [1; 0]] in
  let B := [[1; 0]; [1; 0]; [0; 0]] in
  let S := [[Q2Qc (9 # 10); Q2Qc (1 # 10)]; [Q2Qc (6 # 10); Q2Qc (4 # 10)];
            [Q2Qc (6 # 10); Q2Qc (7 # 10)]] in
  (∃ auroc auprc,
     _compute_auc L S
     = Ok (mean_ignoring_nan auroc, mean_ignoring_nan auprc, auroc, auprc))
  ∧ (∃ f_measure,
       _compute_f_measure L B = Ok (mean_ignoring_nan f_measure, f_measure))
  ∧ (∃ f_beta g_beta,
       _compute_beta_measures L B f2
       = Ok (mean_ignoring_nan f_beta, mean_ignoring_nan g_beta))
  ∧ mean_ignoring_nan [NaN; NaN] = NaN
  ∧ (let A := [[[f1; f0]; [f0; f0]]; [[f1; f0]; [f0; f0]]] in
     f_measure_class A 1 = NaN ∧ f_beta_class f2 A 1 = NaN
     ∧ g_beta_class f2 A 1 = NaN)
  ∧ (∃ macro_auroc macro_auprc auroc auprc,
       _compute_auc L S = Ok (macro_auroc, macro_auprc, auroc, auprc)
       ∧ nth 1 auroc f0 = NaN ∧ nth 1 auprc f0 = NaN).
Proof.
  intros L B S.
  destruct macro_metrics_ignore_nan
    as (Hauc & Hf & Hbeta & Hall & Hf1 & Hfb & Hgb & Hnan).
  assert (has_shape 3 2 L) as HL by (unfold has_shape; by_compute).
  assert (has_shape 3 2 B) as HB by (unfold has_shape; by_compute).
  assert (has_shape 3 2 S) as HS by (unfold has_shape; by_compute).
  assert (binary L) as HbL by (unfold binary; by_compute).
  assert (binary B) as HbB by (unfold binary; by_compute).
  split_and!.
  - destruct (Hauc 3%nat 2%nat L S) as (a & p & H & _); [lia|done..|]. by exists a, p.
  - destruct (Hf 3%nat 2%nat L B) as (A & _ & H); [lia|done..|]. by eexists.
  - destruct (Hbeta 3%nat 2%nat L B f2) as (A & _ & H);
      [lia|done..|right; split; by vm_compute|]. by eexists _, _.
  - apply Hall. by repeat constructor.
  - cbv zeta. split_and!.
    + apply Hf1; [cbn; lia|unfold has_shape; by_compute|by_compute].
    + apply Hfb; [cbn; lia|unfold has_shape; by_compute
                  |right; split; by vm_compute|by_compute].
    + apply Hgb; [cbn; lia|unfold has_shape; by_compute
                  |right; split; by vm_compute|by_compute].
  - destruct (Hnan 3%nat 2%nat L S 1%nat) as (ma & mp & a & p & H & Hpos & _);
      [lia|done..|lia|].
    exists ma, mp, a, p. split; [done|]. apply Hpos. by vm_compute.
Defined.

(** ** A perfect ranking *)

Lemma float_eqb_eq x y : float_eqb x y = true → x = y.
Proof.
  destruct x as [|a], y as [|b]; try done. cbn.
  intros H%Qeq_bool_iff. f_equal. by apply Qc_is_canon.
Qed.

Local Ltac float_compute := apply float_eqb_eq; by vm_compute.

Lemma ratio_same b b' : b ≠ 0 → b' = b → ratio b b' = f1.
Proof.
  intros Hb ->. unfold ratio. rewrite decide_False by done. unfold f1. f_equal.
  apply Qcmult_inv_r. rewrite <- Z2Qc_inj_0. by intros ?%Z2Qc_inj.
Qed.

Lemma ratio_zero b : b ≠ 0 → ratio 0 b = f0.
Proof.
  intros Hb. unfold ratio. rewrite decide_False by done. unfold f0. f_equal.
  rewrite Z2Qc_inj_0. apply Qcmult_0_l.
Qed.

Lemma ratio_fin a b : b ≠ 0 → ∃ q, ratio a b = Fin q.
Proof. intros Hb. unfold ratio. rewrite decide_False by done. by eexists. Qed.

Lemma strictly_descending_NoDup l : StronglySorted (flip Qclt) l → NoDup l.
Proof.
  induction 1 as [|x l _ IH Hx]; constructor; [|done].
  intros Hin. rewrite Forall_forall in Hx. specialize (Hx x Hin).
  by apply Qclt_not_eq in Hx.
Qed.

Lemma strictly_descending_unique l l' :
  StronglySorted (flip Qclt) l → StronglySorted (flip Qclt) l' →
  (∀ x, x ∈ l ↔ x ∈ l') → l = l'.
Proof.
  intros Hl Hl' Helem.
  apply (StronglySorted_unique_strong (flip Qclt)); [|done..|].
  - intros x y _ _ Hxy Hyx. unfold flip in *.
    destruct (Qclt_not_le _ _ Hxy). by apply Qclt_le_weak.
  - by apply NoDup_Permutation; [apply strictly_descending_NoDup..|].
Qed.

Lemma auroc_three c0 c1 c2 :
  TPR c0 = f0 → TPR c1 = f1 → TPR c2 = f1 →
  TNR c0 = f1 → TNR c1 = f1 → TNR c2 = f0 →
  auroc_spec [c0; c1; c2] = f1.
Proof.
  intros Hp0 Hp1 Hp2 Hn0 Hn1 Hn2. unfold auroc_spec.
  cbn [length Nat.sub seq map nth Nat.add].
  rewrite Hp0, Hp1, Hp2, Hn0, Hn1, Hn2. float_compute.
Qed.

Lemma auprc_three c0 c1 c2 q :
  TPR c0 = f0 → TPR c1 = f1 → TPR c2 = f1 → PPV c1 = f1 → PPV c2 = Fin q →
  auprc_spec [c0; c1; c2] = f1.
Proof.
  intros Hp0 Hp1 Hp2 Hv1 Hv2. unfold auprc_spec.
  cbn [length Nat.sub seq map nth Nat.add].
  rewrite Hp0, Hp1, Hp2, Hv1, Hv2. unfold fsum, f0, f1. cbn.
  apply (f_equal Fin). ring.
Qed.

Lemma auprc_two c0 c1 :
  TPR c0 = f0 → TPR c1 = f1 → PPV c1 = f1 → auprc_spec [c0; c1] = f1.
Proof.
  intros Hp0 Hp1 Hv1. unfold auprc_spec.
  cbn [length Nat.sub seq map nth Nat.add].
  rewrite Hp0, Hp1, Hv1. float_compute.
Qed.

Section perfect_class.
Variables (labels_k : list Z) (outputs_k : list Qc) (m : Qc).

Let R : nat := length labels_k.
Let P : Z := count_where (fun i => nth i labels_k 0 = 1) R.
Let N : Z := count_where (fun i => nth i labels_k 0 = 0) R.

Hypothesis labels_binary : Forall (fun x => x = 0 ∨ x = 1) labels_k.
Hypothesis outputs_length : length outputs_k = length labels_k.
Hypothesis m_positive : (0 < m)%Qc.
Hypothesis perfect :
  ∀ i, (i < R)%nat →
       nth i outputs_k 0%Qc = if decide (nth i labels_k 0 = 1) then m else 0%Qc.

Lemma perfect_cases i :
  (i < R)%nat →
  (nth i labels_k 0 = 1 ∧ nth i outputs_k 0%Qc = m)
  ∨ (nth i labels_k 0 = 0 ∧ nth i outputs_k 0%Qc = 0%Qc).
Proof.
  intros Hi. rewrite (perfect i Hi).
  pose proof labels_binary as Hb. rewrite (Forall_nth _ 0) in Hb.
  destruct (Hb i Hi) as [H0|H1]; rewrite ?H0, ?H1; [right|left]; done.
Qed.

Lemma perfect_elem x : x ∈ outputs_k → x = m ∨ x = 0%Qc.
Proof.
  intros (i & Hi)%list_elem_of_lookup.
  pose proof (lookup_lt_Some _ _ _ Hi) as Hlt. rewrite outputs_length in Hlt.
  rewrite <- (nth_lookup_Some _ _ 0%Qc _ Hi).
  destruct (perfect_cases i Hlt) as [[_ ->] | [_ ->]]; [by left|by right].
Qed.

Lemma perfect_nth_elem i : (i < R)%nat → nth i outputs_k 0%Qc ∈ outputs_k.
Proof.
  intros Hi. destruct (lookup_lt_is_Some_2 outputs_k i) as [x Hx].
  { rewrite outputs_length. exact Hi. }
  rewrite (nth_lookup_Some _ _ _ _ Hx). by eapply list_elem_of_lookup_2.
Qed.

Lemma perfect_m_elem : 0 < P → m ∈ outputs_k.
Proof.
  intros (i & Hi & Hl)%count_where_pos.
  destruct (perfect_cases i Hi) as [[_ <-] | [H0 _]]; [|congruence].
  by apply perfect_nth_elem.
Qed.

Lemma perfect_zero_elem : 0 < N → 0%Qc ∈ outputs_k.
Proof.
  intros (i & Hi & Hl)%count_where_pos.
  destruct (perfect_cases i Hi) as [[H1 _] | [_ <-]]; [congruence|].
  by apply perfect_nth_elem.
Qed.

Lemma perfect_counts_top :
  counts_spec labels_k outputs_k m = {| tp := P; fp := 0; fn := 0; tn := N |}.
Proof.
  unfold counts_spec. fold R. fold P N.
  rewrite (count_where_ext
             (fun i => (m ≤ nth i outputs_k 0)%Qc ∧ nth i labels_k 0 = 1)
             (fun i => nth i labels_k 0 = 1)).
  2:{ intros i Hi. destruct (perfect_cases i Hi) as [[Hl ->] | [Hl ->]].
      - split; [by intros [_ ?]|]. split; [apply Qcle_refl|done].
      - split; [by intros [_ ?]|]. intros ?. congruence. }
  rewrite (count_where_none (fun i => (m ≤ nth i outputs_k 0)%Qc ∧ nth i labels_k 0 = 0)).
  2:{ intros i Hi [Hle Hl]. destruct (perfect_cases i Hi) as [[H1 _] | [_ Ho]];
        [congruence|]. rewrite Ho in Hle. by eapply Qclt_not_le. }
  fold P. apply counts_eq; cbn; lia.
Qed.

Lemma perfect_counts_zero :
  counts_spec labels_k outputs_k 0%Qc = {| tp := P; fp := N; fn := 0; tn := 0 |}.
Proof.
  unfold counts_spec. fold R. fold P N.
  assert (∀ i, (i < R)%nat → (0 ≤ nth i outputs_k 0)%Qc) as Hnn.
  { intros i Hi. destruct (perfect_cases i Hi) as [[_ ->] | [_ ->]];
      [by apply Qclt_le_weak|apply Qcle_refl]. }
  rewrite (count_where_ext
             (fun i => (0 ≤ nth i outputs_k 0)%Qc ∧ nth i labels_k 0 = 1)
             (fun i => nth i labels_k 0 = 1))
    by (intros i Hi; split; [by intros [_ ?]|by split; [apply Hnn|]]).
  rewrite (count_where_ext
             (fun i => (0 ≤ nth i outputs_k 0)%Qc ∧ nth i labels_k 0 = 0)
             (fun i => nth i labels_k 0 = 0))
    by (intros i Hi; split; [by intros [_ ?]|by split; [apply Hnn|]]).
  fold P N. apply counts_eq; cbn; lia.
Qed.
End perfect_class.

Lemma count_where_witness (P : nat → Prop) `{!∀ i, Decision (P i)} R i :
  (i < R)%nat → P i → 0 < count_where P R.
Proof.
  intros Hi HP. unfold count_where.
  assert (i ∈ filter P (seq 0 R)) as Hin.
  { apply list_elem_of_filter. split; [done|]. apply elem_of_seq. lia. }
  destruct (filter P (seq 0 R)); [by apply elem_of_nil in Hin|cbn; lia].
Qed.

Lemma perfect_class_auc labels_k outputs_k m :
  Forall (fun x => x = 0 ∨ x = 1) labels_k →
  length outputs_k = length labels_k → outputs_k ≠ [] → (0 < m)%Qc →
  (∀ i, (i < length labels_k)%nat →
        nth i outputs_k 0%Qc = if decide (nth i labels_k 0 = 1) then m else 0%Qc) →
  let P := count_where (fun i => nth i labels_k 0 = 1) (length labels_k) in
  let N := count_where (fun i => nth i labels_k 0 = 0) (length labels_k) in
  ∃ auroc_k auprc_k,
    auc_class labels_k outputs_k = Ok (auroc_k, auprc_k)
    ∧ (0 < P → 0 < N → auroc_k = f1 ∧ auprc_k = f1)
    ∧ (0 < P → N = 0 → auroc_k = NaN ∧ auprc_k = f1)
    ∧ (P = 0 → auroc_k = NaN ∧ auprc_k = NaN).
Proof.
  intros Hbin Hlen Hne Hm Hperfect P N.
  destruct (auc_class_spec labels_k outputs_k Hbin Hlen Hne)
    as (m0 & ds & Hthr & Hds & Helem & Hm0 & Hmax & Hauc).
  destruct (auc_class_nan labels_k outputs_k Hbin Hlen Hne)
    as (a & p & Hauc' & Hpos & Hneg).
  fold P in Hpos. fold N in Hneg.
  set (cs := map (counts_spec labels_k outputs_k) ((m0 + 1)%Qc :: ds)) in *.
  assert (a = auroc_spec cs ∧ p = auprc_spec cs) as [Ha Hp]
    by (split; congruence).
  pose proof (perfect_elem labels_k outputs_k m Hbin Hlen Hperfect) as Hcases.
  assert (0 < P → m0 = m) as Hmax_m.
  { intros HP.
    pose proof (perfect_m_elem labels_k outputs_k m Hbin Hlen Hm Hperfect HP) as Hin.
    destruct (Hcases m0 Hm0) as [?| ->]; [done|].
    apply Hmax in Hin. by destruct (Qclt_not_le _ _ Hm). }
  assert (0 < P → cs = counts_spec labels_k outputs_k (m + 1)%Qc
                       :: map (counts_spec labels_k outputs_k) ds) as Hcs.
  { intros HP. unfold cs. by rewrite (Hmax_m HP). }
  assert (0 < P → ∀ x, x ∈ outputs_k → (x ≤ m)%Qc) as Hmax'.
  { intros HP. by rewrite <- (Hmax_m HP). }
  exists a, p. split; [done|]. split_and!.
  - intros HP HN.
    assert (ds = [m; 0%Qc]) as ->.
    { apply strictly_descending_unique; [done|by repeat constructor|].
      intros x. rewrite Helem. split; [intros [->| ->]%Hcases|].
      - by left.
      - right. by left.
      - intros [->|[->|[]%elem_of_nil]%elem_of_cons]%elem_of_cons.
        + by apply (perfect_m_elem labels_k outputs_k m).
        + by apply (perfect_zero_elem labels_k outputs_k m). }
    rewrite Ha, Hp, (Hcs HP). cbn [map].
    rewrite (counts_spec_sentinel _ _ _ Hlen (Hmax' HP)).
    rewrite (perfect_counts_top labels_k outputs_k m Hbin Hlen Hm Hperfect).
    rewrite (perfect_counts_zero labels_k outputs_k m Hbin Hlen Hm Hperfect).
    fold P N.
    destruct (ratio_fin P (P + N)) as [q Hq]; [lia|].
    split.
    + apply auroc_three; unfold TPR, TNR; cbn [tp fp fn tn];
        first [apply ratio_zero; lia | apply ratio_same; lia].
    + apply (auprc_three _ _ _ q); unfold TPR, PPV; cbn [tp fp fn tn];
        first [exact Hq | apply ratio_zero; lia | apply ratio_same; lia].
  - intros HP HN. split; [by apply Hneg|].
    assert (ds = [m]) as ->.
    { apply strictly_descending_unique; [done|by repeat constructor|].
      intros x. rewrite Helem. split.
      - intros Hx. destruct (Hcases x Hx) as [->| ->]; [by left|].
        apply list_elem_of_lookup in Hx as [i Hi].
        pose proof (lookup_lt_Some _ _ _ Hi) as Hlt. rewrite Hlen in Hlt.
        destruct (perfect_cases labels_k outputs_k m Hbin Hperfect i Hlt)
          as [[_ Ho] | [Hl _]].
        + rewrite (nth_lookup_Some _ _ _ _ Hi) in Ho. subst m. by left.
        + pose proof (count_where_witness
                        (fun i => nth i labels_k 0 = 0) _ i Hlt Hl). fold N in H. lia.
      - intros ->%list_elem_of_singleton.
        by apply (perfect_m_elem labels_k outputs_k m). }
    rewrite Hp, (Hcs HP). cbn [map].
    rewrite (counts_spec_sentinel _ _ _ Hlen (Hmax' HP)).
    rewrite (perfect_counts_top labels_k outputs_k m Hbin Hlen Hm Hperfect).
    fold P N.
    apply auprc_two; unfold TPR, PPV; cbn [tp fp fn tn];
      first [apply ratio_zero; lia | apply ratio_same; lia].
  - done.
Qed.

(** C9, as the code has it.  Let the scores of class [k] be a positive
    value [m] on the recordings that are positive for the class and 0 on the
    others ([_compute_auc] does not take the binary predictions).  If the
    class has a positive and a negative recording, its AUROC and its AUPRC
    are 1.0.  If every recording is positive, the AUPRC is 1.0 and the AUROC
    is NaN (no true negatives: FP + TN = 0); if no recording is positive,
    both are NaN. *)
Theorem perfect_ranking_auc R C (L : matrix Z) (S : matrix Qc) k m :
  (0 < R)%nat → has_shape R C L → has_shape R C S → binary L → (k < C)%nat →
  (0 < m)%Qc →
  (∀ i, (i < R)%nat →
        at2 0%Qc S i k = if decide (at2 0 L i k = 1) then m else 0%Qc) →
  let P := count_where (fun i => at2 0 L i k = 1) R in
  let N := count_where (fun i => at2 0 L i k = 0) R in
  ∃ macro_auroc macro_auprc auroc auprc,
    _compute_auc L S = Ok (macro_auroc, macro_auprc, auroc, auprc)
    ∧ (0 < P → 0 < N → nth k auroc f0 = f1 ∧ nth k auprc f0 = f1)
    ∧ (0 < P → N = 0 → nth k auroc f0 = NaN ∧ nth k auprc f0 = f1)
    ∧ (P = 0 → nth k auroc f0 = NaN ∧ nth k auprc f0 = NaN).
Proof.
  intros HR HL HS HbL Hk Hm Hperfect P N.
  destruct (compute_auc_classes R C L S HR HL HS) as (per_class & Hauc & Hall).
  destruct (Forall2_lookup_l _ _ _ k k Hall) as ([a p] & Hkth & Hclass).
  { apply lookup_seq. lia. }
  assert (length (column 0 L k) = R) as HlenR by (rewrite column_length; by destruct HL).
  destruct (perfect_class_auc (column 0 L k) (column 0%Qc S k) m)
    as (a' & p' & Hclass' & Hboth & Hpos & Hnone).
  { by apply column_binary. }
  { rewrite column_length, HlenR. by destruct HS. }
  { intros Hnil%(f_equal length). rewrite column_length in Hnil.
    destruct HS as [HS _]. cbn in Hnil. lia. }
  { done. }
  { intros i Hi. rewrite !column_nth. apply Hperfect. lia. }
  rewrite Hclass in Hclass'. injection Hclass' as <- <-.
  rewrite HlenR in Hboth, Hpos, Hnone.
  assert (∀ v, count_where (fun i => nth i (column 0 L k) 0 = v) R
               = count_where (fun i => at2 0 L i k = v) R) as Hcol.
  { intros v. apply count_where_ext. intros i _. by rewrite column_nth. }
  rewrite (Hcol 1), (Hcol 0) in Hboth. rewrite (Hcol 1), (Hcol 0) in Hpos.
  rewrite (Hcol 1) in Hnone.
  eexists _, _, _, _. split; [exact Hauc|].
  rewrite !nth_lookup, !list_lookup_fmap, Hkth. cbn. by split_and!.
Qed.

Lemma perfect_ranking_auc_witness :
  let L := [[1; 0]; [0; 0]; [1; 0]] in
  let S := [[Q2Qc (9 # 10); 0%Qc]; [0%Qc; 0%Qc]; [Q2Qc (9 # 10); 0%Qc]] in
  ∃ macro_auroc macro_auprc auroc auprc,
    _compute_auc L S = Ok (macro_auroc, macro_auprc, auroc, auprc)
    ∧ nth 0 auroc f0 = f1 ∧ nth 0 auprc f0 = f1.
Proof.
  intros L S.
  destruct (perfect_ranking_auc 3 2 L S 0 (Q2Qc (9 # 10)))
    as (ma & mp & a & p & Hauc & Hboth & _);
    [lia | unfold has_shape; by_compute | unfold has_shape; by_compute
     | unfold binary; by_compute | lia | done | |].
  { intros [|[|[|i]]] Hi; try lia; by vm_compute. }
  exists ma, mp, a, p. split; [done|]. apply Hboth; by vm_compute.
Defined.

(** The claim of C9 as it is written fails: a class that appears in every
    recording, scored at the maximum, has an AUROC of NaN. *)
Lemma perfect_ranking_all_positive :
  let L := [[1]] in
  let S := [[Q2Qc 1]] in
  (∀ i, (i < 1)%nat →
        at2 0%Qc S i 0 = if decide (at2 0 L i 0 = 1) then Q2Qc 1 else 0%Qc)
  ∧ count_where (fun i => at2 0 L i 0 = 1) 1 = 1
  ∧ _compute_auc L S = Ok (NaN, f1, [NaN], [f1]).
Proof.
  intros L S. split_and!.
  - intros [|i] Hi; [by vm_compute|lia].
  - by vm_compute.
  - by vm_compute.
Qed.

(** * Further properties of the metric functions *)

(** ** The challenge metric at its two reference predictions *)

Lemma challenge_metric_scores W L B classes sr i :
  index_of sr classes = Some i → (i < (shape L).2)%nat →
  (compute_challenge_metric W L B classes sr).2
  = Ok (let observed_score :=
          nansum (mul_entries W (_compute_modified_confusion_matrix L B)) in
        let correct_score :=
          nansum (mul_entries W (_compute_modified_confusion_matrix L L)) in
        let inactive_score :=
          nansum (mul_entries W
                    (_compute_modified_confusion_matrix L
                       (inactive (shape L).1 (shape L).2 i))) in
        if fne correct_score inactive_score
        then ((observed_score - inactive_score)
              / (correct_score - inactive_score))%F
        else f0).
Proof.
  intros Hidx Hi. unfold compute_challenge_metric.
  destruct (shape L) as [R C]. cbn [fst snd] in *. rewrite Hidx. cbn.
  by rewrite decide_True by done.
Qed.

Lemma fdiv_same x y :
  isnan x = false → isnan y = false → fne x y = true →
  ((x - y) / (x - y))%F = f1.
Proof.
  destruct x as [|a], y as [|b]; try done. intros _ _ Hne. cbn in *.
  apply bool_decide_eq_true in Hne.
  rewrite decide_False.
  - unfold f1. f_equal. apply Qcmult_inv_r. intros H. apply Hne.
    rewrite <- (Qcplus_0_l b), <- H. ring.
  - intros H. apply Hne. rewrite <- (Qcplus_0_l b), <- H. ring.
Qed.

Lemma fdiv_zero x y z :
  isnan x = false → isnan y = false → isnan z = false → fne x y = true →
  ((z - z) / (x - y))%F = f0.
Proof.
  destruct x as [|a], y as [|b], z as [|c]; try done. intros _ _ _ Hne. cbn in *.
  apply bool_decide_eq_true in Hne.
  rewrite decide_False.
  - unfold f0. f_equal. unfold Qcdiv.
    replace (c - c)%Qc with 0%Qc by ring. apply Qcmult_0_l.
  - intros H. apply Hne. rewrite <- (Qcplus_0_l b), <- H. ring.
Qed.

Lemma nansum_not_nan a : isnan (nansum a) = false.
Proof. by destruct (nansum_fin a) as [q ->]. Qed.

(** The normalised score when the observed score is the correct score. *)
Lemma normalized_score_of_correct c d :
  isnan c = false → isnan d = false →
  (if fne c d then ((c - d) / (c - d))%F else f0)
  = if decide (c = d) then f0 else f1.
Proof.
  intros Hc Hd. rewrite (fne_decide c d) by done.
  destruct (decide (c = d)) as [Heq|Hne].
  - by rewrite bool_decide_eq_true_2.
  - rewrite bool_decide_eq_false_2 by done. cbn [negb].
    apply fdiv_same; [done..|].
    rewrite fne_decide by done. by rewrite bool_decide_eq_false_2.
Qed.



(** X2.  With the prediction of the sinus rhythm class alone, for every
    recording (labels of shape R×C with at least one recording, a C×C
    weight matrix within [weights_in_range], the sinus rhythm class among
    the classes with an index below C), [compute_challenge_metric] returns
    0.0: the observed score is the inactive score. *)
Theorem challenge_metric_of_sinus_rhythm_only R C W L classes sr i :
  (0 < R)%nat → has_shape R C L → has_shape C C W → weights_in_range W →
  index_of sr classes = Some i → (i < C)%nat →
  (compute_challenge_metric W L (inactive R C i) classes sr).2 = Ok f0.
Proof.
  intros HR HL _ _ Hidx Hi.
  pose proof (shape_has_shape R C L HR HL) as Hshape.
  rewrite (challenge_metric_scores W L _ classes sr i Hidx)
    by (by rewrite Hshape).
  cbv zeta. rewrite Hshape. cbn [fst snd].
  f_equal. destruct (fne _ _) eqn:Hne; [|done].
  by apply fdiv_zero; [apply nansum_not_nan..|].
Qed.

Lemma challenge_metric_of_sinus_rhythm_only_witness :
  (compute_challenge_metric [[f1; fhalf]; [fhalf; f1]]
     [[1; 0]; [0; 1]] [[1; 0]; [1; 0]] ["NSR"; "AF"] "NSR").2 = Ok f0.
Proof.
  apply (challenge_metric_of_sinus_rhythm_only 2 2 [[f1; fhalf]; [fhalf; f1]]
           [[1; 0]; [0; 1]] ["NSR"; "AF"] "NSR" 0);
    [lia | unfold has_shape; by_compute | unfold has_shape; by_compute
     | unfold weights_in_range; by_compute | by vm_compute | lia].
Defined.

(** ** The modified confusion matrix of single-label data *)

Lemma foldl_fadd_ones {A} (l : list A) n :
  foldl fadd (float_of_Z n) (map (fun _ => f1) l)
  = float_of_Z (n + Z.of_nat (length l)).
Proof.
  revert n. induction l as [|x l IH]; intros n.
  { cbn. by rewrite Z.add_0_r. }
  cbn [map foldl length].
  replace (float_of_Z n + f1)%F with (float_of_Z (n + 1)).
  - rewrite IH. f_equal. lia.
  - unfold float_of_Z, f1. cbn. by rewrite Z2Qc_inj_add, Z2Qc_inj_1.
Qed.

Lemma length_filter_at_most_one (P : nat → Prop) `{!∀ i, Decision (P i)} l :
  NoDup l → (∀ i j, P i → P j → i = j) → (length (filter P l) ≤ 1)%nat.
Proof.
  intros Hnd Hone.
  assert (NoDup (filter P l)) as Hnd' by by apply NoDup_filter.
  destruct (filter P l) as [|x [|y l']] eqn:Hf; [cbn; lia..|].
  assert (x ∈ filter P l ∧ y ∈ filter P l) as [Hx Hy].
  { rewrite Hf. split; [by left|right; by left]. }
  apply list_elem_of_filter in Hx as [Hx _], Hy as [Hy _].
  rewrite (Hone x y Hx Hy) in Hnd'. apply NoDup_cons in Hnd' as [Hin _].
  destruct Hin. by left.
Qed.

(** X3.  When no recording has more than one label, the modified confusion
    matrix of the labels against themselves is diagonal, and its diagonal
    entry of a class is the number of recordings of that class. *)
Theorem modified_confusion_single_label R C L j k :
  (0 < R)%nat → has_shape R C L → binary L →
  (∀ i a b, at2 0 L i a = 1 → at2 0 L i b = 1 → a = b) →
  (j < C)%nat → (k < C)%nat →
  at2 f0 (_compute_modified_confusion_matrix L L) j k
  = if decide (j = k)
    then float_of_Z (count_where (fun i => at2 0 L i j = 1) R)
    else f0.
Proof.
  intros HR HL HbL Hone Hj Hk.
  rewrite (modified_confusion_at R C) by done.
  unfold modified_confusion_spec, fsum.
  destruct (decide (j = k)) as [<-|Hjk].
  - rewrite (filter_ext_elem _ (fun i => at2 0 L i j = 1)) by (intros; tauto).
    rewrite (map_ext_in _ (fun _ => f1)).
    { replace f0 with (float_of_Z 0)
        by (unfold f0, float_of_Z; by rewrite Z2Qc_inj_0).
      by rewrite foldl_fadd_ones. }
    intros i [Hi _]%list_elem_of_In%list_elem_of_filter.
    unfold norm_spec. rewrite Z.max_r.
    { unfold f1, float_of_Z. cbn.
      by rewrite decide_False by done. }
    unfold union_size. apply (inj_le _ 1), length_filter_at_most_one;
      [apply NoDup_seq|].
    intros a b Ha Hb. apply (Hone i); unfold at2; tauto.
  - rewrite filter_none; [done|].
    apply Forall_forall. intros i _ [Hij Hik]. by apply Hjk, (Hone i).
Qed.

Lemma modified_confusion_single_label_witness :
  at2 f0 (_compute_modified_confusion_matrix
            [[1; 0]; [0; 1]; [1; 0]] [[1; 0]; [0; 1]; [1; 0]]) 0 0
  = float_of_Z (count_where (fun i => at2 0 [[1; 0]; [0; 1]; [1; 0]] i 0 = 1) 3).
Proof.
  apply (modified_confusion_single_label 3 2 [[1; 0]; [0; 1]; [1; 0]] 0 0);
    try lia; [unfold has_shape; by_compute | unfold binary; by_compute |].
  intros [|[|[|[|i]]]] [|[|[|a]]] [|[|[|b]]]; vm_compute; congruence.
Defined.

(** ** The range of the accuracy *)

Lemma exact_matches_all R C (L B : matrix Z) :
  has_shape R C L → has_shape R C B →
  exact_matches R L B = R ↔ B = L.
Proof.
  intros [HL _] [HB _]. unfold exact_matches. split.
  - intros Hall. apply list_eq_same_length with R; [done..|].
    intros i x y Hi Hx Hy.
    destruct (decide (nth i L [] = nth i B [])) as [Heq|Hne].
    + rewrite (nth_lookup_Some _ _ _ _ Hx), (nth_lookup_Some _ _ _ _ Hy) in Heq.
      congruence.
    + assert (i ∈ seq 0 R) as Hin by (apply elem_of_seq; lia).
      pose proof (length_filter_lt (fun i => nth i L [] = nth i B [])
                    _ i Hin Hne) as Hlt.
      rewrite length_seq in Hlt. lia.
  - intros ->. rewrite filter_all; [apply length_seq|].
    by apply Forall_forall.
Qed.

(** X4.  For arrays of one shape with at least one recording,
    [_compute_accuracy] returns a finite value between 0 and 1, and it
    returns 1.0 exactly when the predictions equal the labels. *)
Theorem accuracy_range R C L B :
  (0 < R)%nat → has_shape R C L → has_shape R C B →
  ∃ q, _compute_accuracy L B = Ok (Fin q)
       ∧ (0 ≤ q)%Qc ∧ (q ≤ 1)%Qc ∧ (q = 1%Qc ↔ B = L).
Proof.
  intros HR HL HB. rewrite (accuracy_exact_matches R C) by done.
  set (n := exact_matches R L B).
  assert (n ≤ R)%nat as Hn.
  { unfold n, exact_matches. etrans; [apply length_filter|]. by rewrite length_seq. }
  assert (Qc_of_Z (Z.of_nat R) ≠ 0%Qc) as HR0.
  { rewrite <- Z2Qc_inj_0. intros ?%Z2Qc_inj. lia. }
  assert (0 < Qc_of_Z (Z.of_nat R))%Qc as HRpos.
  { rewrite <- Z2Qc_inj_0. apply (proj1 (Z2Qc_inj_lt _ _)). lia. }
  exists (Qc_of_Z (Z.of_nat n) / Qc_of_Z (Z.of_nat R))%Qc.
  set (q := (Qc_of_Z (Z.of_nat n) / Qc_of_Z (Z.of_nat R))%Qc).
  assert (q * Qc_of_Z (Z.of_nat R) = Qc_of_Z (Z.of_nat n))%Qc as Hq.
  { unfold q. rewrite Qcmult_comm. by apply Qcmult_div_r. }
  split_and!.
  - unfold fdiv, float_of_Z. by rewrite decide_False.
  - apply (Qcmult_lt_0_le_reg_r _ _ _ HRpos). rewrite Hq, Qcmult_0_l.
    rewrite <- Z2Qc_inj_0. apply (proj1 (Z2Qc_inj_le _ _)). lia.
  - apply (Qcmult_lt_0_le_reg_r _ _ _ HRpos). rewrite Hq, Qcmult_1_l.
    apply (proj1 (Z2Qc_inj_le _ _)). lia.
  - rewrite <- (exact_matches_all R C L B HL HB). fold n. split.
    + intros H1. rewrite H1, Qcmult_1_l in Hq. apply Z2Qc_inj in Hq. lia.
    + intros Hall. unfold q. rewrite Hall. by apply Qcmult_inv_r.
Qed.

Lemma accuracy_range_witness :
  ∃ q, _compute_accuracy [[1; 0]; [0; 1]] [[1; 0]; [1; 0]] = Ok (Fin q)
       ∧ (0 ≤ q)%Qc ∧ (q ≤ 1)%Qc.
Proof.
  destruct (accuracy_range 2 2 [[1; 0]; [0; 1]] [[1; 0]; [1; 0]])
    as (q & Hq & H0 & H1 & _);
    [lia | unfold has_shape; by_compute | unfold has_shape; by_compute |].
  by exists q.
Defined.

(** ** The cells of the confusion matrices *)

Lemma for_each_invariant {A B} (I : list B → A → Prop) (l : list B)
    (body : A → B → result A) a :
  I [] a →
  (∀ before x rest a, l = before ++ x :: rest → I before a →
     ∃ a', body a x = Ok a' ∧ I (before ++ [x]) a') →
  ∃ a', for_each l body a = Ok a' ∧ I l a'.
Proof.
  intros Hstart Hstep.
  cut (∀ rest before a, l = before ++ rest → I before a →
         ∃ a', for_each rest body a = Ok a' ∧ I l a').
  { intros Hgen. by apply (Hgen l []). }
  induction rest as [|x rest IH]; intros before a0 Hl HI.
  - exists a0. split; [done|]. by rewrite Hl, app_nil_r.
  - destruct (Hstep before x rest a0 Hl HI) as (a' & Hbody & HI').
    cbn. rewrite Hbody. cbn. apply (IH (before ++ [x])); [|done].
    by rewrite <- app_assoc.
Qed.

Lemma cells_ok_zeros3 C : cells_ok C (zeros3 C) (fun _ _ _ => f0).
Proof.
  unfold cells_ok, zeros3. split_and!.
  - apply length_replicate.
  - apply Forall_replicate, has_shape_zeros.
  - intros k a b Hk _ _. unfold at3.
    rewrite nth_lookup, lookup_replicate_2 by done. apply at2_zeros.
Qed.

Lemma cells_ok_add_at3 C A val j a b v :
  cells_ok C A val → (j < C)%nat → (a < 2)%nat → (b < 2)%nat →
  cells_ok C (add_at3 A j a b v)
    (fun k a' b' => if decide (k = j ∧ a' = a ∧ b' = b)
                    then (val k a' b' + v)%F else val k a' b').
Proof.
  intros (Hlen & Hshape & Hval) Hj Ha Hb. unfold cells_ok, add_at3. split_and!.
  - by rewrite length_alter.
  - apply Forall_alter; [done|]. intros M _ HM. by apply has_shape_add_at.
  - intros k a' b' Hk Ha' Hb'. rewrite <- (Hval k a' b') by done.
    unfold at3. rewrite !nth_lookup.
    destruct (decide (k = j)) as [->|Hkj].
    + assert (is_Some (A !! j)) as [M HM] by (apply lookup_lt_is_Some; lia).
      rewrite list_lookup_alter, decide_True, HM by done.
      change (at2 f0 (add_at M a b v) a' b'
              = if decide (j = j ∧ a' = a ∧ b' = b)
                then (at2 f0 M a' b' + v)%F else at2 f0 M a' b').
      assert (has_shape 2 2 M) as HMs.
      { rewrite Forall_forall in Hshape. eapply Hshape, list_elem_of_lookup_2, HM. }
      rewrite (at2_add_at 2 2) by done.
      destruct (decide (a' = a ∧ b' = b)) as [[-> ->]|Hne].
      * by rewrite decide_True.
      * rewrite decide_False; [done|]. tauto.
    + rewrite list_lookup_alter_ne by done.
      rewrite decide_False; [done|]. tauto.
Qed.

Lemma cells_ok_ext C A val val' :
  cells_ok C A val →
  (∀ k a b, (k < C)%nat → (a < 2)%nat → (b < 2)%nat → val k a b = val' k a b) →
  cells_ok C A val'.
Proof.
  intros (Hlen & Hshape & Hval) Hext. split_and!; [done..|].
  intros k a b Hk Ha Hb. rewrite <- Hext by done. by apply Hval.
Qed.

Lemma confusion_cell_step l o A j v :
  (l = 0 ∨ l = 1) → (o = 0 ∨ o = 1) →
  confusion_cell l o A j v = Ok (add_at3 A j (Z.to_nat o) (Z.to_nat l) v).
Proof. by intros [-> | ->] [-> | ->]. Qed.

(** One pass of the inner loop over the classes of recording [i]. *)
Lemma confusion_classes_loop C L B i v A val :
  binary L → binary B → cells_ok C A val →
  ∃ A', for_each (seq 0 C) (fun A j =>
          confusion_cell (at2 0 L i j) (at2 0 B i j) A j v) A = Ok A'
        ∧ cells_ok C A' (fun k a b =>
            if decide (at2 0 B i k = Z.of_nat a ∧ at2 0 L i k = Z.of_nat b)
            then (val k a b + v)%F else val k a b).
Proof.
  intros HL HB HA.
  destruct (for_each_invariant
    (fun before A' => cells_ok C A' (fun k a b =>
       if decide (k ∈ before ∧ at2 0 B i k = Z.of_nat a ∧ at2 0 L i k = Z.of_nat b)
       then (val k a b + v)%F else val k a b))
    (seq 0 C)
    (fun A j => confusion_cell (at2 0 L i j) (at2 0 B i j) A j v) A)
    as (A' & Hrun & HA').
  - apply (cells_ok_ext _ _ _ _ HA). intros k a b _ _ _.
    rewrite decide_False; [done|]. intros [[]%elem_of_nil _].
  - intros before j rest A0 Hseq HA0.
    assert (j ∈ seq 0 C) as Hj.
    { rewrite Hseq. apply elem_of_app. right. by left. }
    apply elem_of_seq in Hj.
    assert (j ∉ before) as Hfresh.
    { pose proof (NoDup_seq 0 C) as Hnd. rewrite Hseq in Hnd.
      apply NoDup_app in Hnd as (_ & Hnd & _). intros Hin.
      apply (Hnd j Hin). by left. }
    pose proof (binary_at L i j HL) as Hl. pose proof (binary_at B i j HB) as Ho.
    rewrite confusion_cell_step by done. eexists. split; [done|].
    eapply cells_ok_ext.
    { apply cells_ok_add_at3; [exact HA0|lia| |]; lia. }
    intros k a b Hk Ha Hb. cbn beta.
    destruct (decide (k = j)) as [->|Hkj].
    + rewrite (decide_False (P := j ∈ before ∧ _)) by tauto.
      destruct (decide (at2 0 B i j = Z.of_nat a ∧ at2 0 L i j = Z.of_nat b))
        as [[Hoa Hlb]|Hne].
      * rewrite decide_True, decide_True; [done| |].
        -- split; [|done]. apply elem_of_app. right. by left.
        -- split_and!; [done|lia..].
      * rewrite decide_False, decide_False; [done|tauto|].
        intros (_ & -> & ->). apply Hne. lia.
    + rewrite (decide_False (P := k = j ∧ _)) by tauto.
      destruct (decide (k ∈ before ∧ at2 0 B i k = Z.of_nat a
                        ∧ at2 0 L i k = Z.of_nat b)) as [(Hin & Hoa & Hlb)|Hne].
      * rewrite decide_True; [done|]. split; [|done].
        apply elem_of_app. by left.
      * rewrite decide_False; [done|]. intros (Hin & Hoa & Hlb). apply Hne.
        split; [|done]. apply elem_of_app in Hin as [Hin|Hin%list_elem_of_singleton];
          [done|by destruct Hkj].
  - exists A'. split; [done|]. apply (cells_ok_ext _ _ _ _ HA').
    intros k a b Hk _ _.
    destruct (decide (at2 0 B i k = Z.of_nat a ∧ at2 0 L i k = Z.of_nat b))
      as [Hin|Hne].
    + rewrite decide_True; [done|]. split; [|done]. apply elem_of_seq. lia.
    + rewrite decide_False; [done|]. tauto.
Qed.

Lemma fsum_snoc a x : fsum (a ++ [x]) = (fsum a + x)%F.
Proof. unfold fsum. by rewrite foldl_app. Qed.

(** On 0/1 arrays [_compute_confusion_matrices] returns, and the cell
    [A[k, a, b]] is the sum of the weights of the recordings whose
    prediction of class [k] is [a] and whose label is [b]. *)
Lemma confusion_matrices_closed R C L B normalize :
  (0 < R)%nat → has_shape R C L → binary L → binary B →
  ∃ A, _compute_confusion_matrices L B normalize = Ok A
       ∧ length A = C
       ∧ ∀ k a b, (k < C)%nat → (a < 2)%nat → (b < 2)%nat →
           at3 A k a b
           = fsum (map (recording_weight normalize L)
                       (cell_recordings R L B k (Z.of_nat a) (Z.of_nat b))).
Proof.
  intros HR HLs HL HB.
  set (I := fun before A => cells_ok C A (fun k a b =>
    fsum (map (recording_weight normalize L)
              (filter (fun i => at2 0 B i k = Z.of_nat a ∧ at2 0 L i k = Z.of_nat b)
                      before)))).
  assert (∀ before i (A : list (matrix float)), I before A →
    ∃ A', for_each (seq 0 C) (fun A j =>
            confusion_cell (at2 0 L i j) (at2 0 B i j) A j
              (recording_weight normalize L i)) A = Ok A'
          ∧ I (before ++ [i]) A') as Hstep.
  { intros before i A HA.
    destruct (confusion_classes_loop C L B i (recording_weight normalize L i)
                A _ HL HB HA) as (A' & Hrun & HA').
    exists A'. split; [done|]. apply (cells_ok_ext _ _ _ _ HA').
    intros k a b _ _ _. rewrite filter_app, map_app, filter_cons, filter_nil.
    destruct (decide (at2 0 B i k = Z.of_nat a ∧ at2 0 L i k = Z.of_nat b)).
    - cbn [map]. by rewrite fsum_snoc.
    - cbn [map]. by rewrite app_nil_r. }
  unfold _compute_confusion_matrices. rewrite (shape_has_shape R C) by done.
  destruct normalize; cbn [negb].
  - destruct (for_each_invariant I (seq 0 R)
      (fun A i =>
         let normalization := float_of_Z (Z.max (row_sum (nth i L [])) 1) in
         for_each (seq 0 C) (fun A j =>
           confusion_cell (at2 0 L i j) (at2 0 B i j) A j
             (f1 / normalization)%F) A)
      (zeros3 C)) as (A & Hrun & Hlen & _ & Hval).
    + apply cells_ok_zeros3.
    + intros before i rest A _ HA. apply (Hstep before i A HA).
    + exists A. by split_and!.
  - destruct (for_each_invariant I (seq 0 R)
      (fun A i =>
         for_each (seq 0 C) (fun A j =>
           confusion_cell (at2 0 L i j) (at2 0 B i j) A j f1) A)
      (zeros3 C)) as (A & Hrun & Hlen & _ & Hval).
    + apply cells_ok_zeros3.
    + intros before i rest A _ HA. apply (Hstep before i A HA).
    + exists A. by split_and!.
Qed.

Lemma float_of_Z_add n m : (float_of_Z n + float_of_Z m)%F = float_of_Z (n + m).
Proof. unfold float_of_Z. cbn. by rewrite Z2Qc_inj_add. Qed.

Lemma fsum_ones {A} (l : list A) :
  fsum (map (fun _ => f1) l) = float_of_Z (Z.of_nat (length l)).
Proof.
  unfold fsum. replace f0 with (float_of_Z 0)
    by (unfold f0, float_of_Z; by rewrite Z2Qc_inj_0).
  by rewrite foldl_fadd_ones.
Qed.

(** Every 0/1 pair is in one of the four cases, so the four counts of a
    class add up to the number of recordings. *)
Lemma confusion_cases_partition (l o : nat → Z) (idx : list nat) :
  (∀ i, i ∈ idx → (l i = 0 ∨ l i = 1) ∧ (o i = 0 ∨ o i = 1)) →
  (length (filter (fun i => in_case TN (l i) (o i)) idx)
   + length (filter (fun i => in_case FN (l i) (o i)) idx)
   + length (filter (fun i => in_case FP (l i) (o i)) idx)
   + length (filter (fun i => in_case TP (l i) (o i)) idx)
   = length idx)%nat.
Proof.
  induction idx as [|i idx IH]; intros Hbin; [done|].
  rewrite !filter_cons. cbn [length]. rewrite <- IH by (intros; apply Hbin; by right).
  destruct (Hbin i) as [Hl Ho]; [by left|]. unfold in_case.
  repeat match goal with
         | |- context [decide ?P] => destruct (decide P)
         end; cbn [length]; lia.
Qed.

(** X5.  Without normalisation, on 0/1 arrays of one shape,
    [_compute_confusion_matrices] returns one 2x2 matrix per class whose
    cells [1,1], [1,0], [0,1] and [0,0] are the numbers of recordings that
    are true positives, false positives, false negatives and true
    negatives of the class; the four cells add up to the number of
    recordings. *)
Theorem confusion_matrices_counts R C L B :
  (0 < R)%nat → has_shape R C L → has_shape R C B → binary L → binary B →
  ∃ A, _compute_confusion_matrices L B false = Ok A
       ∧ length A = C
       ∧ ∀ k, (k < C)%nat →
           let cell c :=
             float_of_Z (count_where (fun i => in_case c (at2 0 L i k) (at2 0 B i k)) R) in
           at3 A k 1 1 = cell TP ∧ at3 A k 1 0 = cell FP
           ∧ at3 A k 0 1 = cell FN ∧ at3 A k 0 0 = cell TN
           ∧ (at3 A k 0 0 + at3 A k 0 1 + at3 A k 1 0 + at3 A k 1 1)%F
             = float_of_Z (Z.of_nat R).
Proof.
  intros HR HLs _ HL HB.
  destruct (confusion_matrices_closed R C L B false HR HLs HL HB)
    as (A & Hrun & Hlen & Hval).
  exists A. split_and!; [done..|]. intros k Hk cell.
  assert (∀ a b c, (a < 2)%nat → (b < 2)%nat →
            (∀ l o, in_case c l o ↔ o = Z.of_nat a ∧ l = Z.of_nat b) →
            at3 A k a b = cell c) as Hcell.
  { intros a b c Ha Hb Hc. rewrite Hval by done.
    change (recording_weight false L) with (fun _ : nat => f1).
    rewrite fsum_ones. unfold cell, count_where, cell_recordings.
    do 3 f_equal. apply filter_ext_elem. intros i _. by rewrite Hc. }
  assert (at3 A k 1 1 = cell TP) as HTP by (apply Hcell; [lia..|cbn; intros; lia]).
  assert (at3 A k 1 0 = cell FP) as HFP by (apply Hcell; [lia..|cbn; intros; lia]).
  assert (at3 A k 0 1 = cell FN) as HFN by (apply Hcell; [lia..|cbn; intros; lia]).
  assert (at3 A k 0 0 = cell TN) as HTN by (apply Hcell; [lia..|cbn; intros; lia]).
  split_and!; [done..|]. rewrite HTP, HFP, HFN, HTN. unfold cell, count_where.
  rewrite !float_of_Z_add, <- !Nat2Z.inj_add. do 2 f_equal.
  rewrite (confusion_cases_partition (fun i => at2 0 L i k) (fun i => at2 0 B i k)).
  - apply length_seq.
  - intros i _. split; by apply binary_at.
Qed.

Lemma confusion_matrices_counts_witness :
  ∃ A, _compute_confusion_matrices [[1; 0]; [1; 1]; [0; 0]] [[1; 1]; [0; 1]; [0; 0]] false
       = Ok A
       ∧ at3 A 0 1 1 = f1 ∧ at3 A 0 0 1 = f1 ∧ at3 A 0 0 0 = f1 ∧ at3 A 0 1 0 = f0.
Proof.
  destruct (confusion_matrices_counts 3 2
              [[1; 0]; [1; 1]; [0; 0]] [[1; 1]; [0; 1]; [0; 0]])
    as (A & Hrun & _ & Hval);
    [lia | unfold has_shape; by_compute | unfold has_shape; by_compute
     | unfold binary; by_compute | unfold binary; by_compute |].
  exists A. split; [done|].
  destruct (Hval 0%nat) as (-> & -> & -> & -> & _); [lia|].
  split_and!; by float_compute.
Defined.

(** X6.  With normalisation, on 0/1 arrays of one shape, the cell
    [A[k, a, b]] of [_compute_confusion_matrices] is the sum, over the
    recordings whose prediction of class [k] is [a] and whose label is [b],
    of [1 / max(number of labels of the recording, 1)]. *)
Theorem confusion_matrices_normalized R C L B :
  (0 < R)%nat → has_shape R C L → has_shape R C B → binary L → binary B →
  ∃ A, _compute_confusion_matrices L B true = Ok A
       ∧ length A = C
       ∧ ∀ k a b, (k < C)%nat → (a < 2)%nat → (b < 2)%nat →
           at3 A k a b
           = fsum (map (fun i => (f1 / float_of_Z (Z.max (row_sum (nth i L [])) 1))%F)
                       (filter (fun i => at2 0 B i k = Z.of_nat a
                                         ∧ at2 0 L i k = Z.of_nat b)
                               (seq 0 R))).
Proof.
  intros HR HLs _ HL HB.
  exact (confusion_matrices_closed R C L B true HR HLs HL HB).
Qed.

Lemma confusion_matrices_normalized_witness :
  ∃ A, _compute_confusion_matrices [[1; 1]; [1; 0]] [[1; 0]; [1; 0]] true = Ok A
       ∧ at3 A 0 1 1 = (fhalf + f1)%F.
Proof.
  destruct (confusion_matrices_normalized 2 2 [[1; 1]; [1; 0]] [[1; 0]; [1; 0]])
    as (A & Hrun & _ & Hval);
    [lia | unfold has_shape; by_compute | unfold has_shape; by_compute
     | unfold binary; by_compute | unfold binary; by_compute |].
  exists A. split; [done|]. rewrite (Hval 0 1 1)%nat by lia. by float_compute.
Defined.

(** ** The F-measure *)

Lemma confusion_matrices_case_counts R C L B :
  (0 < R)%nat → has_shape R C L → binary L → binary B →
  ∃ A, _compute_confusion_matrices L B false = Ok A
       ∧ ∀ k, (k < C)%nat →
           at3 A k 1 1 = float_of_Z (case_count R L B k TP)
           ∧ at3 A k 1 0 = float_of_Z (case_count R L B k FP)
           ∧ at3 A k 0 1 = float_of_Z (case_count R L B k FN)
           ∧ at3 A k 0 0 = float_of_Z (case_count R L B k TN).
Proof.
  intros HR HLs HL HB.
  destruct (confusion_matrices_closed R C L B false HR HLs HL HB)
    as (A & Hrun & Hlen & Hval).
  exists A. split; [done|]. intros k Hk.
  assert (∀ a b c, (a < 2)%nat → (b < 2)%nat →
            (∀ l o, in_case c l o ↔ o = Z.of_nat a ∧ l = Z.of_nat b) →
            at3 A k a b = float_of_Z (case_count R L B k c)) as Hcell.
  { intros a b c Ha Hb Hc. rewrite Hval by done.
    change (recording_weight false L) with (fun _ : nat => f1).
    rewrite fsum_ones. unfold case_count, count_where, cell_recordings.
    do 3 f_equal. apply filter_ext_elem. intros i _. by rewrite Hc. }
  split_and!; apply Hcell; try lia; cbn; intros; lia.
Qed.

Lemma float_of_Z_mul n m : (float_of_Z n * float_of_Z m)%F = float_of_Z (n * m).
Proof. unfold float_of_Z. cbn. by rewrite Z2Qc_inj_mul. Qed.

Lemma float_truth_of_Z n : float_truth (float_of_Z n) = truth n.
Proof.
  unfold truth, float_of_Z. cbn. destruct (Z.eqb_spec n 0) as [->|Hn]; cbn.
  - rewrite bool_decide_eq_false_2; [done|]. intros H. apply H.
    by rewrite Z2Qc_inj_0.
  - rewrite bool_decide_eq_true_2; [done|].
    rewrite <- Z2Qc_inj_0. by intros ?%Z2Qc_inj.
Qed.

(** The F-measure of a class from its counts. *)
Lemma f_measure_class_counts A k tp fp fn :
  at3 A k 1 1 = float_of_Z tp → at3 A k 1 0 = float_of_Z fp →
  at3 A k 0 1 = float_of_Z fn →
  f_measure_class A k = ratio (2 * tp) (2 * tp + fp + fn).
Proof.
  intros Htp Hfp Hfn. unfold f_measure_class. rewrite Htp, Hfp, Hfn.
  unfold f2. rewrite float_of_Z_mul, !float_of_Z_add, float_truth_of_Z.
  apply ratio_fdiv.
Qed.

Lemma f_measure_counts R C L B :
  (0 < R)%nat → has_shape R C L → binary L → binary B →
  let f_measure :=
    map (fun k => ratio (2 * case_count R L B k TP)
                        (2 * case_count R L B k TP + case_count R L B k FP
                         + case_count R L B k FN))
        (seq 0 C) in
  _compute_f_measure L B = Ok (mean_ignoring_nan f_measure, f_measure).
Proof.
  intros HR HLs HL HB f_measure.
  destruct (confusion_matrices_case_counts R C L B HR HLs HL HB) as (A & Hrun & Hval).
  unfold _compute_f_measure. rewrite (shape_has_shape R C) by done.
  rewrite Hrun. cbn [mbind result_bind]. rewrite guarded_nanmean.
  assert (map (f_measure_class A) (seq 0 C) = f_measure) as ->; [|done].
  apply map_ext_in. intros k Hk%list_elem_of_In%elem_of_seq.
  destruct (Hval k) as (Htp & Hfp & Hfn & _); [lia|].
  by apply f_measure_class_counts.
Qed.

Lemma ratio_nan a b : ratio a b = NaN ↔ b = 0.
Proof.
  unfold ratio. destruct (decide (b = 0)) as [->|Hb]; [done|].
  split; [done|]. by intros.
Qed.

(** X7.  On 0/1 arrays of one shape, the F-measure of a class is NaN
    exactly when no recording carries the class, neither in the labels nor
    in the predictions; otherwise it is a number. *)
Theorem f_measure_nan_iff_class_absent R C L B k :
  (0 < R)%nat → has_shape R C L → has_shape R C B → binary L → binary B →
  (k < C)%nat →
  ∃ macro_f_measure f_measure,
    _compute_f_measure L B = Ok (macro_f_measure, f_measure)
    ∧ length f_measure = C
    ∧ (nth k f_measure f0 = NaN
       ↔ ∀ i, (i < R)%nat → at2 0 L i k = 0 ∧ at2 0 B i k = 0).
Proof.
  intros HR HLs _ HL HB Hk. eexists _, _. split_and!.
  - by apply (f_measure_counts R C).
  - by rewrite length_map, length_seq.
  - rewrite nth_lookup, list_lookup_fmap, lookup_seq_lt by done. cbn.
    rewrite ratio_nan. unfold case_count.
    pose proof (count_where_nonneg
      (fun i => in_case TP (at2 0 L i k) (at2 0 B i k)) R) as Htp.
    pose proof (count_where_nonneg
      (fun i => in_case FP (at2 0 L i k) (at2 0 B i k)) R) as Hfp.
    pose proof (count_where_nonneg
      (fun i => in_case FN (at2 0 L i k) (at2 0 B i k)) R) as Hfn.
    split.
    + intros Hzero i Hi.
      destruct (binary_at L i k HL) as [Hl|Hl], (binary_at B i k HB) as [Ho|Ho];
        [done|exfalso..].
      * pose proof (count_where_witness
          (fun i => in_case FP (at2 0 L i k) (at2 0 B i k)) R i Hi (conj Hl Ho)). lia.
      * pose proof (count_where_witness
          (fun i => in_case FN (at2 0 L i k) (at2 0 B i k)) R i Hi (conj Hl Ho)). lia.
      * pose proof (count_where_witness
          (fun i => in_case TP (at2 0 L i k) (at2 0 B i k)) R i Hi (conj Hl Ho)). lia.
    + intros Habsent.
      rewrite !count_where_none; [done|..]; intros i Hi;
        destruct (Habsent i Hi) as [Hl Ho]; cbn; lia.
Qed.

Lemma f_measure_nan_iff_class_absent_witness :
  ∃ macro_f_measure f_measure,
    _compute_f_measure [[1; 0]; [1; 0]] [[1; 0]; [0; 0]]
    = Ok (macro_f_measure, f_measure)
    ∧ nth 1 f_measure f0 = NaN.
Proof.
  destruct (f_measure_nan_iff_class_absent 2 2 [[1; 0]; [1; 0]] [[1; 0]; [0; 0]] 1)
    as (m & f & Hrun & _ & Hnan);
    [lia | unfold has_shape; by_compute | unfold has_shape; by_compute
     | unfold binary; by_compute | unfold binary; by_compute | lia |].
  exists m, f. split; [done|]. apply Hnan.
  intros [|[|i]] Hi; [by vm_compute..|lia].
Defined.

Lemma case_count_swap R L B k :
  case_count R L B k TP = case_count R B L k TP
  ∧ case_count R L B k FP = case_count R B L k FN
  ∧ case_count R L B k FN = case_count R B L k FP.
Proof.
  unfold case_count. split_and!; apply count_where_ext; intros i _; cbn; tauto.
Qed.

(** X8.  The F-measure does not change when labels and predictions are
    exchanged: on 0/1 arrays of one shape,
    [_compute_f_measure(labels, outputs)] and
    [_compute_f_measure(outputs, labels)] return the same macro value and
    the same per-class values. *)
Theorem f_measure_symmetric R C L B :
  (0 < R)%nat → has_shape R C L → has_shape R C B → binary L → binary B →
  _compute_f_measure L B = _compute_f_measure B L.
Proof.
  intros HR HLs HBs HL HB.
  rewrite (f_measure_counts R C L B), (f_measure_counts R C B L) by done.
  assert (∀ k, ratio (2 * case_count R L B k TP)
                 (2 * case_count R L B k TP + case_count R L B k FP
                  + case_count R L B k FN)
               = ratio (2 * case_count R B L k TP)
                   (2 * case_count R B L k TP + case_count R B L k FP
                    + case_count R B L k FN)) as Hk.
  { intros k. destruct (case_count_swap R L B k) as (-> & -> & ->).
    f_equal. lia. }
  by rewrite (map_ext _ _ Hk).
Qed.

Lemma f_measure_symmetric_witness :
  _compute_f_measure [[1; 0]; [1; 1]] [[1; 1]; [0; 1]]
  = _compute_f_measure [[1; 1]; [0; 1]] [[1; 0]; [1; 1]].
Proof.
  apply (f_measure_symmetric 2 2);
    [lia | unfold has_shape; by_compute | unfold has_shape; by_compute
     | unfold binary; by_compute | unfold binary; by_compute].
Defined.

(** ** Predictions that equal the labels *)

Lemma mean_ignoring_nan_ones a :
  Forall (fun x => x = NaN ∨ x = f1) a → f1 ∈ a → mean_ignoring_nan a = f1.
Proof.
  intros Hall Hone. unfold mean_ignoring_nan.
  set (present := filter (fun x => x ≠ NaN) a).
  assert (f1 ∈ present) as Hin by (by apply list_elem_of_filter).
  assert (present = map (fun _ => f1) present) as Hones.
  { assert (Forall (fun x => x = f1) present) as Hf.
    { apply Forall_forall. intros x [Hx Hxa]%list_elem_of_filter.
      rewrite Forall_forall in Hall. by destruct (Hall x Hxa). }
    clearbody present. clear Hin.
    induction Hf as [|x l -> _ IH]; [done|]. cbn. by rewrite <- IH. }
  destruct present as [|x l] eqn:Hp; [by apply elem_of_nil in Hin|].
  rewrite Hones, fsum_ones, length_map.
  unfold float_of_Z, fdiv, f1. rewrite decide_False.
  - f_equal. apply Qcmult_inv_r. rewrite <- Z2Qc_inj_0.
    intros ?%Z2Qc_inj. cbn [length] in *. lia.
  - rewrite <- Z2Qc_inj_0. intros ?%Z2Qc_inj. cbn [length] in *. lia.
Qed.

Lemma case_count_of_labels R L k :
  case_count R L L k TP = count_where (fun i => at2 0 L i k = 1) R
  ∧ case_count R L L k FP = 0 ∧ case_count R L L k FN = 0.
Proof.
  unfold case_count. split_and!.
  - apply count_where_ext. intros i _. cbn. tauto.
  - apply count_where_none. intros i _. cbn. lia.
  - apply count_where_none. intros i _. cbn. lia.
Qed.

(** The mean over the classes, when each class has the value 1.0 or
    NaN. *)
Lemma mean_of_present_classes (absent : nat → Prop)
    `{!∀ k, Decision (absent k)} C k :
  (k < C)%nat → ¬ absent k →
  mean_ignoring_nan (map (fun k => if decide (absent k) then NaN else f1)
                         (seq 0 C)) = f1.
Proof.
  intros Hk Hpresent. apply mean_ignoring_nan_ones.
  - apply Forall_forall. intros x (k' & -> & _)%list_elem_of_fmap.
    destruct (decide _); [by left|by right].
  - apply list_elem_of_fmap. exists k. split; [|apply elem_of_seq; lia].
    by rewrite decide_False.
Qed.

(** The F-measure of the classes when the predictions are the labels. *)
Lemma f_measure_labels_classes R C L :
  (0 < R)%nat → has_shape R C L → binary L →
  let f_measure :=
    map (fun k => if decide (count_where (fun i => at2 0 L i k = 1) R = 0)
                  then NaN else f1)
        (seq 0 C) in
  _compute_f_measure L L = Ok (mean_ignoring_nan f_measure, f_measure).
Proof.
  intros HR HLs HL f_measure.
  rewrite (f_measure_counts R C L L) by done.
  assert (∀ k, ratio (2 * case_count R L L k TP)
                 (2 * case_count R L L k TP + case_count R L L k FP
                  + case_count R L L k FN)
               = if decide (count_where (fun i => at2 0 L i k = 1) R = 0)
                 then NaN else f1) as Hclass.
  { intros k'. destruct (case_count_of_labels R L k') as (-> & -> & ->).
    destruct (decide (count_where _ R = 0)) as [->|Hne]; [done|].
    apply ratio_same; lia. }
  by rewrite (map_ext _ _ Hclass).
Qed.

(** X9.  With the labels as predictions (0/1 labels, at least one of them
    1), [_compute_f_measure] returns the macro F-measure 1.0; the
    F-measure of a class is 1.0 when some recording carries the class and
    NaN when none does. *)
Theorem f_measure_of_labels R C L :
  (0 < R)%nat → has_shape R C L → binary L →
  (∃ i k, (i < R)%nat ∧ (k < C)%nat ∧ at2 0 L i k = 1) →
  ∃ f_measure,
    _compute_f_measure L L = Ok (f1, f_measure)
    ∧ ∀ k, (k < C)%nat →
        nth k f_measure f0
        = if decide (count_where (fun i => at2 0 L i k = 1) R = 0)
          then NaN else f1.
Proof.
  intros HR HLs HL (i & k & Hi & Hk & Hik).
  rewrite (f_measure_labels_classes R C L) by done. cbv zeta.
  rewrite (mean_of_present_classes _ C k Hk).
  - eexists. split; [done|]. intros k' Hk'.
    by rewrite nth_lookup, list_lookup_fmap, lookup_seq_lt by done.
  - pose proof (count_where_witness (fun i => at2 0 L i k = 1) R i Hi Hik). lia.
Qed.

Lemma f_measure_of_labels_witness :
  ∃ f_measure,
    _compute_f_measure [[1; 0]; [1; 0]] [[1; 0]; [1; 0]] = Ok (f1, f_measure)
    ∧ nth 0 f_measure f0 = f1 ∧ nth 1 f_measure f0 = NaN.
Proof.
  destruct (f_measure_of_labels 2 2 [[1; 0]; [1; 0]]) as (f & Hrun & Hf);
    [lia | unfold has_shape; by_compute | unfold binary; by_compute
     | exists 0%nat, 0%nat; split_and!; [lia..|done] |].
  exists f. split; [done|]. rewrite (Hf 0%nat), (Hf 1%nat) by lia. done.
Defined.

Lemma recording_weight_pos L i :
  ∃ w, recording_weight true L i = Fin w ∧ (0 < w)%Qc.
Proof.
  unfold recording_weight, f1, float_of_Z, fdiv.
  set (m := Z.max (row_sum (nth i L [])) 1).
  assert (0 < Qc_of_Z m)%Qc as Hm.
  { rewrite <- Z2Qc_inj_0. apply (proj1 (Z2Qc_inj_lt _ _)). lia. }
  rewrite decide_False by (by apply Qclt_not_eq in Hm).
  eexists. split; [done|]. unfold Qcdiv. rewrite Qcmult_1_l. by apply Qcinv_pos.
Qed.

Lemma foldl_fadd_pos l acc :
  Forall (fun x => ∃ q, x = Fin q ∧ (0 < q)%Qc) l →
  ∃ s, foldl fadd (Fin acc) l = Fin s ∧ (acc ≤ s)%Qc ∧ (l ≠ [] → (acc < s)%Qc).
Proof.
  intros Hl. revert acc. induction Hl as [|x l (q & -> & Hq) _ IH]; intros acc.
  { exists acc. by split_and!. }
  cbn [foldl]. change (Fin acc + Fin q)%F with (Fin (acc + q)).
  destruct (IH (acc + q)%Qc) as (s & -> & Hle & _).
  assert (acc < acc + q)%Qc as Hlt.
  { rewrite <- (Qcplus_0_r acc) at 1. by apply Qcplus_lt_mono_l. }
  exists s. split_and!; [done| |intros _].
  - apply Qclt_le_weak. by eapply Qclt_le_trans.
  - by eapply Qclt_le_trans.
Qed.

Lemma Qcsquare_nonneg (x : Qc) : (0 ≤ x * x)%Qc.
Proof.
  destruct (Qclt_le_dec x 0) as [Hneg|Hpos].
  - replace (x * x)%Qc with ((- x) * (- x))%Qc by ring.
    assert (0 ≤ - x)%Qc as H.
    { apply Qclt_le_weak in Hneg. apply Qcopp_le_compat in Hneg.
      by replace (- 0)%Qc with 0%Qc in Hneg by ring. }
    by apply Qcmult_nonneg_nonneg.
  - by apply Qcmult_nonneg_nonneg.
Qed.

(** The F-beta and G-beta measures of a class without false positives and
    false negatives. *)
Lemma beta_classes_without_errors beta A k t :
  at3 A k 1 1 = Fin t → at3 A k 1 0 = f0 → at3 A k 0 1 = f0 →
  f_beta_class (Fin beta) A k = (if decide (t = 0%Qc) then NaN else f1)
  ∧ g_beta_class (Fin beta) A k = (if decide (t = 0%Qc) then NaN else f1).
Proof.
  intros Htp Hfp Hfn. unfold f_beta_class, g_beta_class.
  rewrite Htp, Hfp, Hfn. unfold f1, f0. cbn.
  replace ((1 + beta * beta) * t + 0 + beta * beta * 0)%Qc
    with ((1 + beta * beta) * t)%Qc by ring.
  replace (t + 0 + beta * 0)%Qc with t by ring.
  assert (1 + beta * beta ≠ 0)%Qc as Hb.
  { apply not_eq_sym, Qclt_not_eq, Qcplus_pos_nonneg; [done|].
    apply Qcsquare_nonneg. }
  destruct (decide (t = 0%Qc)) as [->|Ht].
  - rewrite Qcmult_0_r. by rewrite !bool_decide_eq_false_2 by (by intros []).
  - assert ((1 + beta * beta) * t ≠ 0)%Qc as Hden.
    { by intros [|]%Qcmult_integral. }
    rewrite !bool_decide_eq_true_2, !decide_False by done.
    split; f_equal; by apply Qcmult_inv_r.
Qed.

(** The F-beta and G-beta measures of the classes when the predictions
    are the labels: 1.0 for a class that some recording carries, 1.0 or
    NaN for every class. *)
Lemma beta_measures_labels_classes R C L beta :
  (0 < R)%nat → has_shape R C L → binary L →
  ∃ f_beta g_beta,
    beta_measures_classes L L (Fin beta) = Ok (f_beta, g_beta)
    ∧ Forall (fun x => x = NaN ∨ x = f1) f_beta
    ∧ Forall (fun x => x = NaN ∨ x = f1) g_beta
    ∧ ∀ i k, (i < R)%nat → (k < C)%nat → at2 0 L i k = 1 →
        f1 ∈ f_beta ∧ f1 ∈ g_beta.
Proof.
  intros HR HLs HL.
  destruct (confusion_matrices_closed R C L L true HR HLs HL HL)
    as (A & Hrun & Hlen & Hval).
  unfold beta_measures_classes.
  rewrite (shape_has_shape R C) by done. rewrite Hrun.
  cbn [mbind result_bind].
  assert (∀ k, (k < C)%nat →
            ∃ t, (f_beta_class (Fin beta) A k = if decide (t = 0%Qc) then NaN else f1)
                 ∧ (g_beta_class (Fin beta) A k = if decide (t = 0%Qc) then NaN else f1)
                 ∧ (∀ i, (i < R)%nat → at2 0 L i k = 1 → t ≠ 0%Qc)) as Hclass.
  { intros k Hk.
    destruct (foldl_fadd_pos
                (map (recording_weight true L) (cell_recordings R L L k 1 1)) 0)
      as (t & Ht & _ & Hpos).
    { apply Forall_forall. intros x (i' & -> & _)%list_elem_of_fmap.
      apply recording_weight_pos. }
    exists t.
    destruct (beta_classes_without_errors beta A k t) as [Hf Hg].
    - by rewrite (Hval k 1 1)%nat by lia.
    - rewrite (Hval k 1 0)%nat by lia. unfold cell_recordings.
      rewrite filter_none; [done|]. apply Forall_forall. intros i' _. cbn. lia.
    - rewrite (Hval k 0 1)%nat by lia. unfold cell_recordings.
      rewrite filter_none; [done|]. apply Forall_forall. intros i' _. cbn. lia.
    - split_and!; [done..|]. intros i Hi Hik.
      apply not_eq_sym, Qclt_not_eq, Hpos.
      assert (i ∈ cell_recordings R L L k 1 1) as Hin.
      { apply list_elem_of_filter. split; [done|]. apply elem_of_seq. lia. }
      destruct (cell_recordings R L L k 1 1); [by apply elem_of_nil in Hin|done]. }
  eexists _, _. split; [done|]. split_and!.
  - apply Forall_forall. intros x (k & -> & Hk%elem_of_seq)%list_elem_of_fmap.
    destruct (Hclass k) as (t & -> & _); [lia|].
    destruct (decide _); [by left|by right].
  - apply Forall_forall. intros x (k & -> & Hk%elem_of_seq)%list_elem_of_fmap.
    destruct (Hclass k) as (t & _ & -> & _); [lia|].
    destruct (decide _); [by left|by right].
  - intros i k Hi Hk Hik. destruct (Hclass k Hk) as (t & Hf & Hg & Ht).
    split; apply list_elem_of_fmap; exists k;
      (split; [|apply elem_of_seq; lia]).
    + rewrite Hf. rewrite decide_False; [done|]. by apply (Ht i).
    + rewrite Hg. rewrite decide_False; [done|]. by apply (Ht i).
Qed.

(** X10.  With the labels as predictions (0/1 labels, at least one of them
    1), [_compute_beta_measures] returns the macro F-beta and G-beta
    measures 1.0 and 1.0, for every finite [beta] in the range of
    [beta_in_range]. *)
Theorem beta_measures_of_labels R C L beta :
  (0 < R)%nat → has_shape R C L → binary L →
  (∃ i k, (i < R)%nat ∧ (k < C)%nat ∧ at2 0 L i k = 1) →
  beta_in_range (Fin beta) →
  _compute_beta_measures L L (Fin beta) = Ok (f1, f1).
Proof.
  intros HR HLs HL (i & k & Hi & Hk & Hik) _.
  destruct (beta_measures_labels_classes R C L beta HR HLs HL)
    as (f_beta & g_beta & Hrun & Hf & Hg & Hone).
  destruct (Hone i k Hi Hk Hik) as [Hf1 Hg1].
  unfold _compute_beta_measures. rewrite Hrun. cbn [mbind result_bind].
  rewrite !nanmean_mean_ignoring_nan.
  by rewrite !mean_ignoring_nan_ones.
Qed.

Lemma beta_measures_of_labels_witness :
  _compute_beta_measures [[1; 1]; [1; 0]] [[1; 1]; [1; 0]] f2 = Ok (f1, f1).
Proof.
  apply (beta_measures_of_labels 2 2 [[1; 1]; [1; 0]] (Qc_of_Z 2));
    [lia | unfold has_shape; by_compute | unfold binary; by_compute
     | exists 0%nat, 0%nat; split_and!; [lia..|done]
     | right; split; by vm_compute].
Defined.

(** ** Scores enter the areas through their order only *)

Section rank_invariance.
Variable f : Qc → Qc.
Hypothesis f_increasing : ∀ x y, (x < y)%Qc → (f x < f y)%Qc.

Lemma increasing_le x y : (x ≤ y)%Qc ↔ (f x ≤ f y)%Qc.
Proof using f_increasing.
  split.
  - intros [Hlt| ->]%Qcle_lt_or_eq; [|apply Qcle_refl].
    by apply Qclt_le_weak, f_increasing.
  - intros Hle. apply Qcle_ngt. intros Hlt%f_increasing.
    by apply Qclt_not_le in Hlt.
Qed.

Lemma nth_map_scores (outputs_k : list Qc) i :
  (i < length outputs_k)%nat →
  nth i (map f outputs_k) 0%Qc = f (nth i outputs_k 0%Qc).
Proof.
  intros Hi. rewrite !nth_lookup, list_lookup_fmap.
  destruct (outputs_k !! i) eqn:Hx; [done|].
  apply lookup_ge_None in Hx. lia.
Qed.

Lemma counts_at_increasing labels_k outputs_k thr :
  length outputs_k = length labels_k →
  counts_at labels_k (map f outputs_k) (f thr) = counts_at labels_k outputs_k thr.
Proof using f_increasing.
  intros Hlen. unfold counts_at.
  rewrite (count_where_ext
    (fun i => (f thr ≤ nth i (map f outputs_k) 0)%Qc ∧ truth (nth i labels_k 0) = true)
    (fun i => (thr ≤ nth i outputs_k 0)%Qc ∧ truth (nth i labels_k 0) = true)).
  2:{ intros i Hi. rewrite nth_map_scores by lia. by rewrite <- increasing_le. }
  rewrite (count_where_ext
    (fun i => (f thr ≤ nth i (map f outputs_k) 0)%Qc ∧ truth (nth i labels_k 0) = false)
    (fun i => (thr ≤ nth i outputs_k 0)%Qc ∧ truth (nth i labels_k 0) = false)).
  2:{ intros i Hi. rewrite nth_map_scores by lia. by rewrite <- increasing_le. }
  done.
Qed.

(** Above the largest score no recording is absorbed. *)
Lemma counts_at_above labels_k outputs_k outputs_k' thr thr' :
  length outputs_k = length labels_k → length outputs_k' = length labels_k →
  (∀ x, x ∈ outputs_k → (x < thr)%Qc) → (∀ x, x ∈ outputs_k' → (x < thr')%Qc) →
  counts_at labels_k outputs_k thr = counts_at labels_k outputs_k' thr'.
Proof.
  intros Hlen Hlen' Habove Habove'. unfold counts_at.
  assert (∀ (o : list Qc) t b, length o = length labels_k →
            (∀ x, x ∈ o → (x < t)%Qc) →
            count_where (fun i => (t ≤ nth i o 0)%Qc ∧ truth (nth i labels_k 0) = b)
                        (length labels_k) = 0) as Hnone.
  { intros o t b Ho Ht. apply count_where_none. intros i Hi [Hle _].
    apply (Qclt_not_le _ _ (Ht (nth i o 0%Qc) ltac:(apply list_elem_of_In, nth_In; lia))).
    done. }
  by rewrite !Hnone.
Qed.

Lemma thresholds_of_increasing outputs_k m ds :
  outputs_k ≠ [] →
  thresholds_of outputs_k = Ok ((m + 1)%Qc :: ds) →
  StronglySorted (flip Qclt) ds → (∀ x, x ∈ ds ↔ x ∈ outputs_k) →
  m ∈ outputs_k → (∀ x, x ∈ outputs_k → (x ≤ m)%Qc) →
  thresholds_of (map f outputs_k) = Ok ((f m + 1)%Qc :: map f ds).
Proof using f_increasing.
  intros Hne _ Hds Helem Hm Hmax.
  destruct (thresholds_of_spec (map f outputs_k)) as (m' & ds' & -> & Hds' & Helem' & Hm' & Hmax').
  { by destruct outputs_k. }
  assert (m' = f m) as ->.
  { apply Qcle_antisym.
    - apply list_elem_of_fmap in Hm' as (x & -> & Hx).
      by apply (proj1 (increasing_le _ _)), Hmax.
    - apply Hmax', list_elem_of_fmap. by exists m. }
  do 3 f_equal. apply strictly_descending_unique; [done| |].
  - clear Helem. induction Hds as [|d ds Hsorted IH Hd]; [constructor|].
    cbn. constructor; [done|]. apply Forall_forall.
    intros y (x & -> & Hx)%list_elem_of_fmap. unfold flip.
    rewrite Forall_forall in Hd. by apply f_increasing, Hd.
  - intros y. rewrite Helem', !list_elem_of_fmap.
    split; intros (x & -> & Hx); exists x; (split; [done|]); by apply Helem.
Qed.

Lemma auc_class_increasing labels_k outputs_k :
  length outputs_k = length labels_k →
  auc_class labels_k (map f outputs_k) = auc_class labels_k outputs_k.
Proof using f_increasing.
  intros Hlen. destruct (decide (outputs_k = [])) as [->|Hne]; [done|].
  destruct (thresholds_of_spec outputs_k Hne) as (m & ds & Hthr & Hds & Helem & Hm & Hmax).
  pose proof (thresholds_of_increasing outputs_k m ds Hne Hthr Hds Helem Hm Hmax)
    as Hthr'.
  destruct (auc_class_with_closed np_argsort labels_k outputs_k
              (np_argsort_descending _) Hlen Hne) as (thrs & Hthrs & Hclosed).
  destruct (auc_class_with_closed np_argsort labels_k (map f outputs_k)
              (np_argsort_descending _)) as (thrs' & Hthrs' & Hclosed');
    [by rewrite length_map|by destruct outputs_k|].
  unfold auc_class. rewrite Hclosed, Hclosed'.
  assert (thrs = (m + 1)%Qc :: ds) as -> by congruence.
  assert (thrs' = (f m + 1)%Qc :: map f ds) as -> by congruence.
  assert (map (counts_at labels_k (map f outputs_k)) ((f m + 1)%Qc :: map f ds)
          = map (counts_at labels_k outputs_k) ((m + 1)%Qc :: ds)) as ->; [|done].
  cbn [map]. f_equal.
  - apply counts_at_above; [by rewrite length_map|done| |].
    + intros y (x & -> & Hx)%list_elem_of_fmap.
      eapply Qcle_lt_trans; [|apply Qclt_succ]. by apply (proj1 (increasing_le _ _)), Hmax.
    + intros x Hx. eapply Qcle_lt_trans; [|apply Qclt_succ]. by apply Hmax.
  - rewrite map_map. apply map_ext. intros d. by apply counts_at_increasing.
Qed.

Lemma column_map_scores R C (S : matrix Qc) k :
  has_shape R C S → (k < C)%nat →
  column 0%Qc (map (map f) S) k = map f (column 0%Qc S k).
Proof.
  intros [_ Hrows] Hk. unfold column. rewrite !map_map.
  apply map_ext_in. intros row Hrow%list_elem_of_In.
  rewrite Forall_forall in Hrows. apply nth_map_scores.
  by rewrite (Hrows row Hrow).
Qed.

(** X11.  [_compute_auc] depends on the scores through their order only:
    applying one strictly increasing function to every score leaves the
    AUROC and the AUPRC of every class and the two macro values
    unchanged. *)
Theorem auc_rank_invariant R C (L : matrix Z) (S : matrix Qc) :
  has_shape R C L → has_shape R C S →
  _compute_auc L (map (map f) S) = _compute_auc L S.
Proof using f_increasing.
  intros HL HS.
  destruct (decide (R = 0)%nat) as [->|HR].
  { destruct HL as [HL _]. by destruct L. }
  unfold _compute_auc. rewrite (shape_has_shape R C L) by (lia || done).
  rewrite (mapM_result_ext _
             (fun k => auc_class (column 0 L k) (column 0%Qc S k))); [done|].
  intros k Hk%elem_of_seq. rewrite (column_map_scores R C) by (done || lia).
  apply auc_class_increasing. rewrite !column_length.
  destruct HL as [-> _]. by destruct HS as [-> _].
Qed.

End rank_invariance.

Lemma auc_rank_invariant_witness :
  _compute_auc [[1]; [0]; [1]]
    (map (map (fun x => x + x)%Qc) [[Qc_of_Z 3]; [Qc_of_Z 1]; [Qc_of_Z 2]])
  = _compute_auc [[1]; [0]; [1]] [[Qc_of_Z 3]; [Qc_of_Z 1]; [Qc_of_Z 2]].
Proof.
  apply (auc_rank_invariant (fun x => x + x)%Qc) with (R := 3%nat) (C := 1%nat);
    [|unfold has_shape; by_compute..].
  intros x y Hxy.
  apply Qclt_trans with (x + y)%Qc;
    [by apply Qcplus_lt_mono_l|by apply Qcplus_lt_mono_r].
Defined.

(** ** All metrics at once *)

Lemma accuracy_of_labels R C L :
  (0 < R)%nat → has_shape R C L → _compute_accuracy L L = Ok f1.
Proof.
  intros HR HL. rewrite (accuracy_exact_matches R C) by done.
  rewrite (proj2 (exact_matches_all R C L L HL HL) eq_refl).
  unfold float_of_Z, fdiv, f1.
  assert (Qc_of_Z (Z.of_nat R) ≠ 0%Qc) as HR0.
  { rewrite <- Z2Qc_inj_0. intros ?%Z2Qc_inj. lia. }
  rewrite decide_False by done. do 2 f_equal. by apply Qcmult_inv_r.
Qed.

Lemma f_measure_ok L B :
  binary L → binary B → ∃ r, _compute_f_measure L B = Ok r.
Proof.
  intros HL HB. destruct (confusion_matrices_ok L B false HL HB) as [A HA].
  unfold _compute_f_measure. destruct (shape L) as [R C]. rewrite HA.
  by eexists.
Qed.

Lemma beta_measures_ok L B beta :
  binary L → binary B → ∃ r, _compute_beta_measures L B beta = Ok r.
Proof.
  intros HL HB. destruct (confusion_matrices_ok L B true HL HB) as [A HA].
  unfold _compute_beta_measures, beta_measures_classes.
  destruct (shape L) as [R C]. rewrite HA. by eexists.
Qed.

Lemma f_measure_raise R C L B i j :
  (0 < R)%nat → has_shape R C L → (i < R)%nat → (j < C)%nat →
  ¬ (at2 0 L i j = 0 ∨ at2 0 L i j = 1) ∨ ¬ (at2 0 B i j = 0 ∨ at2 0 B i j = 1) →
  _compute_f_measure L B
  = Raise (ValueError "Error in computing the confusion matrix.").
Proof.
  intros HR HL Hi Hj Hbad. unfold _compute_f_measure.
  rewrite (confusion_matrices_raise R C L B false i j) by done.
  by destruct (shape L).
Qed.

Section all_metrics_properties.
Variable load_weights : list string → result (matrix float).

(** X12.  On 0/1 arrays of one shape with at least one recording, when
    the weights load but ["NSR"] is not among the classes,
    [compute_all_metrics_detailed] and [compute_all_metrics] raise the
    [ValueError] of the sinus rhythm class: the other metrics are computed
    first and none of them raises. *)
Theorem all_metrics_without_sinus_rhythm R C classes W
    (truth binary_pred : matrix Z) (scalar_pred : matrix Qc) :
  load_weights classes = Ok W →
  (0 < R)%nat → has_shape R C truth → has_shape R C binary_pred →
  has_shape R C scalar_pred → binary truth → binary binary_pred →
  "NSR" ∉ classes →
  compute_all_metrics_detailed load_weights classes truth binary_pred scalar_pred
  = Raise (ValueError "The sinus rhythm class is not available.")
  ∧ compute_all_metrics load_weights classes truth binary_pred scalar_pred
    = Raise (ValueError "The sinus rhythm class is not available.").
Proof.
  intros Hload HR HL HB HS HbL HbB Hsr.
  assert (compute_all_metrics_detailed load_weights classes truth binary_pred
            scalar_pred
          = Raise (ValueError "The sinus rhythm class is not available.")) as Hd.
  { unfold compute_all_metrics_detailed. rewrite Hload. cbn [mbind result_bind].
    destruct (compute_auc_classes R C truth scalar_pred HR HL HS) as (pc & -> & _).
    cbn [mbind result_bind].
    rewrite (accuracy_exact_matches R C) by done. cbn [mbind result_bind].
    destruct (f_measure_ok truth binary_pred HbL HbB) as [[fm fc] ->].
    cbn [mbind result_bind].
    destruct (beta_measures_ok truth binary_pred f2 HbL HbB) as [[fb gb] ->].
    cbn [mbind result_bind].
    unfold compute_challenge_metric. destruct (shape truth) as [R' C'].
    by rewrite (index_of_None _ _ Hsr). }
  split; [done|]. unfold compute_all_metrics. by rewrite Hd.
Qed.

(** X13.  When an entry of the labels or of the binary predictions is
    neither 0 nor 1 (the weights load, the arrays have one shape and at
    least one recording), [compute_all_metrics_detailed] and
    [compute_all_metrics] raise the [ValueError] of the confusion
    matrices, whatever the classes are: the AUC and the accuracy are
    computed without a test of the values, and the F-measure comes before
    the challenge metric. *)
Theorem all_metrics_value_error R C classes W
    (truth binary_pred : matrix Z) (scalar_pred : matrix Qc) i j :
  load_weights classes = Ok W →
  (0 < R)%nat → has_shape R C truth → has_shape R C binary_pred →
  has_shape R C scalar_pred → (i < R)%nat → (j < C)%nat →
  ¬ (at2 0 truth i j = 0 ∨ at2 0 truth i j = 1)
  ∨ ¬ (at2 0 binary_pred i j = 0 ∨ at2 0 binary_pred i j = 1) →
  compute_all_metrics_detailed load_weights classes truth binary_pred scalar_pred
  = Raise (ValueError "Error in computing the confusion matrix.")
  ∧ compute_all_metrics load_weights classes truth binary_pred scalar_pred
    = Raise (ValueError "Error in computing the confusion matrix.").
Proof.
  intros Hload HR HL HB HS Hi Hj Hbad.
  assert (compute_all_metrics_detailed load_weights classes truth binary_pred
            scalar_pred
          = Raise (ValueError "Error in computing the confusion matrix.")) as Hd.
  { unfold compute_all_metrics_detailed. rewrite Hload. cbn [mbind result_bind].
    destruct (compute_auc_classes R C truth scalar_pred HR HL HS) as (pc & -> & _).
    cbn [mbind result_bind].
    rewrite (accuracy_exact_matches R C) by done. cbn [mbind result_bind].
    by rewrite (f_measure_raise R C truth binary_pred i j). }
  split; [done|]. unfold compute_all_metrics. by rewrite Hd.
Qed.

(** X14.  With the labels as binary predictions (0/1 labels of which at
    least one is 1, at least one recording, the weights load as a C×C
    matrix within [weights_in_range], ["NSR"] is a class with an index
    below the number of classes), [compute_all_metrics] returns the
    accuracy, the F-measure, the F-beta and the G-beta measures 1.0, and a
    challenge metric that is 1.0 or 0.0. *)
Theorem all_metrics_of_labels R C classes W (truth : matrix Z)
    (scalar_pred : matrix Qc) isr :
  load_weights classes = Ok W → has_shape C C W → weights_in_range W →
  (0 < R)%nat → has_shape R C truth → has_shape R C scalar_pred →
  binary truth → (∃ i k, (i < R)%nat ∧ (k < C)%nat ∧ at2 0 truth i k = 1) →
  index_of "NSR" classes = Some isr → (isr < C)%nat →
  ∃ auroc auprc challenge_metric,
    compute_all_metrics load_weights classes truth truth scalar_pred
    = Ok (auroc, auprc, f1, f1, f1, f1, challenge_metric)
    ∧ (challenge_metric = f1 ∨ challenge_metric = f0).
Proof.
  intros Hload _ _ HR HL HS HbL Hpos Hidx Hisr.
  pose proof (shape_has_shape R C truth HR HL) as Hshape.
  unfold compute_all_metrics, compute_all_metrics_detailed.
  rewrite Hload. cbn [mbind result_bind].
  destruct (compute_auc_classes R C truth scalar_pred HR HL HS) as (pc & -> & _).
  cbn [mbind result_bind].
  rewrite (accuracy_of_labels R C) by done. cbn [mbind result_bind].
  destruct Hpos as (i & k & Hi & Hk & Hik).
  rewrite (f_measure_labels_classes R C truth) by done. cbv zeta.
  rewrite (mean_of_present_classes _ C k Hk).
  2:{ pose proof (count_where_witness (fun i => at2 0 truth i k = 1) R i Hi Hik).
      lia. }
  cbn [mbind result_bind].
  destruct (beta_measures_labels_classes R C truth (Qc_of_Z 2) HR HL HbL)
    as (f_beta & g_beta & Hbeta & Hf & Hg & Hone).
  destruct (Hone i k Hi Hk Hik) as [Hf1 Hg1].
  change (Fin (Qc_of_Z 2)) with f2 in Hbeta.
  unfold _compute_beta_measures. rewrite Hbeta. cbn [mbind result_bind].
  rewrite !nanmean_mean_ignoring_nan.
  rewrite (mean_ignoring_nan_ones f_beta), (mean_ignoring_nan_ones g_beta) by done.
  rewrite (challenge_metric_scores W truth truth classes "NSR" isr Hidx)
    by (by rewrite Hshape).
  cbn [mbind result_bind]. cbv zeta.
  rewrite normalized_score_of_correct by apply nansum_not_nan.
  eexists _, _, _. split; [done|].
  destruct (decide _); [by right|by left].
Qed.

End all_metrics_properties.

Lemma all_metrics_without_sinus_rhythm_witness :
  compute_all_metrics (fun _ => Ok [[f1; fhalf]; [fhalf; f1]]) ["AF"; "PVC"]
    [[1; 0]; [0; 1]] [[1; 0]; [1; 1]] [[Qc_of_Z 1; 0%Qc]; [0%Qc; Qc_of_Z 1]]
  = Raise (ValueError "The sinus rhythm class is not available.").
Proof.
  apply (all_metrics_without_sinus_rhythm (fun _ => Ok [[f1; fhalf]; [fhalf; f1]])
           2 2 ["AF"; "PVC"] [[f1; fhalf]; [fhalf; f1]]);
    [done | lia | unfold has_shape; by_compute.. | unfold binary; by_compute
     | unfold binary; by_compute | by_compute].
Defined.

Lemma all_metrics_value_error_witness :
  compute_all_metrics (fun _ => Ok [[f1; fhalf]; [fhalf; f1]]) ["NSR"; "AF"]
    [[1; 0]; [0; 1]] [[1; 0]; [2; 1]] [[Qc_of_Z 1; 0%Qc]; [0%Qc; Qc_of_Z 1]]
  = Raise (ValueError "Error in computing the confusion matrix.").
Proof.
  apply (all_metrics_value_error (fun _ => Ok [[f1; fhalf]; [fhalf; f1]])
           2 2 ["NSR"; "AF"] [[f1; fhalf]; [fhalf; f1]] _ _ _ 1 0);
    [done | lia | unfold has_shape; by_compute.. | lia | lia |].
  right. vm_compute. intros [|]; discriminate.
Defined.

Lemma all_metrics_of_labels_witness :
  ∃ auroc auprc challenge_metric,
    compute_all_metrics (fun _ => Ok [[f1; fhalf]; [fhalf; f1]]) ["NSR"; "AF"]
      [[1; 0]; [0; 1]] [[1; 0]; [0; 1]] [[Qc_of_Z 1; 0%Qc]; [0%Qc; Qc_of_Z 1]]
    = Ok (auroc, auprc, f1, f1, f1, f1, challenge_metric)
    ∧ (challenge_metric = f1 ∨ challenge_metric = f0).
Proof.
  apply (all_metrics_of_labels (fun _ => Ok [[f1; fhalf]; [fhalf; f1]])
           2 2 ["NSR"; "AF"] [[f1; fhalf]; [fhalf; f1]] [[1; 0]; [0; 1]]
           [[Qc_of_Z 1; 0%Qc]; [0%Qc; Qc_of_Z 1]] 0);
    [done | unfold has_shape; by_compute | unfold weights_in_range; by_compute
     | lia | unfold has_shape; by_compute.. | unfold binary; by_compute
     | exists 0%nat, 0%nat; split_and!; [lia..|done] | done | lia].
Defined.

(** * Properties of the diagnoses of a record *)

Lemma mapM_result_map {A B} (f : A → result B) (g : A → B) (l : list A) :
  (∀ x, x ∈ l → f x = Ok (g x)) → mapM f l = Ok (map g l).
Proof.
  induction l as [|x l IH]; intros Hf; [done|].
  cbn. rewrite Hf by (by left). cbn.
  rewrite IH by (intros; apply Hf; by right). done.
Qed.

Lemma select_scored_from {A} (flags : list bool) (l : list A) n :
  (n + length l ≤ length flags)%nat →
  mapM (fun '(idx, item) =>
          match flags !! idx with
          | Some b => Ok (if b : bool then [item] else [])
          | None => Raise IndexError
          end)
       (imap (fun i x => ((n + i)%nat, x)) l)
  = Ok (map (fun p => if p.2 : bool then [p.1] else []) (zip l (drop n flags))).
Proof.
  revert n. induction l as [|x l IH]; intros n Hlen; [done|].
  cbn [imap length] in *.
  assert (is_Some (flags !! n)) as [b Hb] by (apply lookup_lt_is_Some; lia).
  rewrite (drop_S _ _ _ Hb). cbn. rewrite Nat.add_0_r, Hb. cbn.
  rewrite (imap_ext _ (fun i x => ((S n + i)%nat, x))).
  2:{ intros i y _. cbn. f_equal. lia. }
  rewrite IH by (cbn; lia). done.
Qed.

Lemma select_scored_pick {A} (flags : list bool) (l : list A) :
  length flags = length l → select_scored flags l = Ok (pick flags l).
Proof.
  intros Hlen. unfold select_scored.
  rewrite (imap_ext _ (fun i x => ((0 + i)%nat, x))) by done.
  rewrite select_scored_from by (cbn; lia). cbn [mbind result_bind drop].
  f_equal. unfold pick. rewrite drop_0. clear Hlen.
  induction (zip l flags) as [|[x [|]] z IH]; [done|..].
  - cbn [map concat]. rewrite filter_cons_True by done. cbn. by rewrite IH.
  - cbn [map concat]. rewrite filter_cons_False by done. cbn. by rewrite IH.
Qed.

Lemma pick_filter {A} (P : A → Prop) `{!∀ x, Decision (P x)} (l : list A) :
  pick (map (fun c => bool_decide (P c)) l) l = filter P l.
Proof.
  unfold pick. induction l as [|x l IH]; [done|]. cbn [map zip zip_with].
  rewrite !filter_cons. cbn [snd].
  destruct (decide (P x)) as [HP|HP].
  - rewrite bool_decide_eq_true_2 by done. rewrite decide_True by done.
    cbn. by rewrite IH.
  - rewrite bool_decide_eq_false_2 by done. rewrite decide_False by done.
    exact IH.
Qed.

Lemma pick_zip {A B} (flags : list bool) (l : list A) (k : list B) :
  length l = length flags → length k = length flags →
  zip (pick flags l) (pick flags k) = pick flags (zip l k).
Proof.
  unfold pick. revert l k. induction flags as [|b flags IH]; intros l k Hl Hk.
  { destruct l, k; done. }
  destruct l as [|x l], k as [|y k]; try done. cbn [zip zip_with].
  rewrite !filter_cons. cbn [snd]. destruct b.
  - rewrite !decide_True by done. cbn. f_equal. apply IH; cbn in *; lia.
  - rewrite !decide_False by done. apply IH; cbn in *; lia.
Qed.

Section diagnoses_properties.
Variable dx_mapping_all : list dx_row.
Variable dx_mapping_scored : list dx_row.

Lemma row_of_known dc :
  dc ∈ map SNOMEDCTCode dx_mapping_all →
  ∃ r, row_of dx_mapping_all dc = Some r ∧ r ∈ dx_mapping_all
       ∧ SNOMEDCTCode r = dc.
Proof.
  intros (r & -> & Hr)%list_elem_of_fmap. unfold row_of.
  destruct (filter _ dx_mapping_all) as [|r' rows] eqn:Hf.
  - assert (r ∈ filter (fun r' => SNOMEDCTCode r' = SNOMEDCTCode r) dx_mapping_all)
      as Hin by (by apply list_elem_of_filter).
    rewrite Hf in Hin. by apply elem_of_nil in Hin.
  - exists r'. split; [done|].
    assert (r' ∈ filter (fun r' => SNOMEDCTCode r' = SNOMEDCTCode r) dx_mapping_all)
      as [? ?]%list_elem_of_filter by (rewrite Hf; by left).
    done.
Qed.

Lemma first_values_known column (l_Dx : list string) :
  mapM (first_value dx_mapping_all column)
       (filter (fun item => item ∈ map SNOMEDCTCode dx_mapping_all) l_Dx)
  = Ok (map (value_of dx_mapping_all column)
            (filter (fun item => item ∈ map SNOMEDCTCode dx_mapping_all) l_Dx)).
Proof.
  apply mapM_result_map. intros dc [Hdc _]%list_elem_of_filter.
  destruct (row_of_known dc Hdc) as (r & Hr & _).
  unfold first_value, value_of. by rewrite Hr.
Qed.

(** [_parse_diagnosis] in closed form. *)
Lemma parse_diagnosis_closed (l_Dx : list string) :
  let all_codes := map SNOMEDCTCode dx_mapping_all in
  let code := filter (fun item => item ∈ all_codes) l_Dx in
  let left := filter (fun item => item ∉ all_codes) l_Dx in
  let diag :=
    {| diagnosis_code := code ++ left;
       diagnosis_abbr := map (value_of dx_mapping_all Abbreviation) code ++ left;
       diagnosis_fullname := map (value_of dx_mapping_all Dx) code ++ left |} in
  let flags :=
    map (fun c => bool_decide (c ∈ map SNOMEDCTCode dx_mapping_scored))
        (code ++ left) in
  _parse_diagnosis dx_mapping_all dx_mapping_scored l_Dx
  = Ok (diag,
        {| diagnosis_code := pick flags (diagnosis_code diag);
           diagnosis_abbr := pick flags (diagnosis_abbr diag);
           diagnosis_fullname := pick flags (diagnosis_fullname diag) |}).
Proof.
  intros all_codes code left diag flags. unfold _parse_diagnosis.
  rewrite !first_values_known. cbn [mbind result_bind].
  fold all_codes code left. cbn [diagnosis_code diagnosis_abbr diagnosis_fullname].
  fold flags.
  rewrite !select_scored_pick;
    [done|unfold flags; by rewrite ?length_map, ?length_app, ?length_map..].
Qed.

(** X15.  [_parse_diagnosis] returns for every list of codes (the lookups
    in the table never fail).  The three lists of the first dictionary
    have the length of the input; its codes are the codes of the input
    that the table knows, in their order, followed by the others in their
    order, so a rearrangement of the input; the codes that the table does
    not know stand for themselves as abbreviation and as full name, and a
    known code has the abbreviation and the full name of a row of the
    table with that code. *)
Theorem parse_diagnosis_all (l_Dx : list string) :
  let all_codes := map SNOMEDCTCode dx_mapping_all in
  let code := filter (fun item => item ∈ all_codes) l_Dx in
  let left := filter (fun item => item ∉ all_codes) l_Dx in
  ∃ diag diag_scored abbr fullname,
    _parse_diagnosis dx_mapping_all dx_mapping_scored l_Dx
    = Ok (diag, diag_scored)
    ∧ diagnosis_code diag = code ++ left
    ∧ diagnosis_code diag ≡ₚ l_Dx
    ∧ diagnosis_abbr diag = abbr ++ left
    ∧ diagnosis_fullname diag = fullname ++ left
    ∧ length (diagnosis_abbr diag) = length l_Dx
    ∧ length (diagnosis_fullname diag) = length l_Dx
    ∧ Forall2 (fun dc a => ∃ r, r ∈ dx_mapping_all ∧ SNOMEDCTCode r = dc
                                ∧ a = Abbreviation r) code abbr
    ∧ Forall2 (fun dc a => ∃ r, r ∈ dx_mapping_all ∧ SNOMEDCTCode r = dc
                                ∧ a = Dx r) code fullname.
Proof.
  intros all_codes code left.
  assert (code ++ left ≡ₚ l_Dx) as Hperm.
  { unfold code, left. clear. induction l_Dx as [|x l IH]; [done|].
    rewrite !filter_cons. destruct (decide (x ∈ all_codes)) as [Hx|Hx].
    - rewrite decide_False by (by intros ?). cbn. by rewrite IH.
    - rewrite decide_True by done. rewrite <- Permutation_middle. by rewrite IH. }
  assert (∀ column,
            Forall2 (fun dc a => ∃ r, r ∈ dx_mapping_all ∧ SNOMEDCTCode r = dc
                                      ∧ a = column r)
                    code (map (value_of dx_mapping_all column) code)) as Hrows.
  { intros column. apply Forall2_fmap_r, Forall_Forall2_diag, Forall_forall.
    intros dc [Hdc _]%list_elem_of_filter.
    destruct (row_of_known dc Hdc) as (r & Hr & Hin & Hcode).
    exists r. unfold value_of. by rewrite Hr. }
  eexists _, _, (map (value_of dx_mapping_all Abbreviation) code), (map (value_of dx_mapping_all Dx) code).
  split; [apply parse_diagnosis_closed|].
  cbn [diagnosis_code diagnosis_abbr diagnosis_fullname].
  fold all_codes code left.
  split_and!; try done.
  - by rewrite length_app, length_map, <- length_app, Hperm.
  - by rewrite length_app, length_map, <- length_app, Hperm.
Qed.

(** X16.  The second dictionary of [_parse_diagnosis] holds the entries of
    the first one whose code is a code of the scored table, in their
    order: its codes are the scored codes of the first dictionary, and its
    abbreviations and full names are those that stand at the same
    positions as these codes in the first dictionary. *)
Theorem parse_diagnosis_scored (l_Dx : list string) :
  let scored c := c ∈ map SNOMEDCTCode dx_mapping_scored in
  ∃ diag diag_scored,
    _parse_diagnosis dx_mapping_all dx_mapping_scored l_Dx
    = Ok (diag, diag_scored)
    ∧ diagnosis_code diag_scored = filter scored (diagnosis_code diag)
    ∧ zip (diagnosis_code diag_scored) (diagnosis_abbr diag_scored)
      = filter (fun p => scored p.1)
               (zip (diagnosis_code diag) (diagnosis_abbr diag))
    ∧ zip (diagnosis_code diag_scored) (diagnosis_fullname diag_scored)
      = filter (fun p => scored p.1)
               (zip (diagnosis_code diag) (diagnosis_fullname diag)).
Proof.
  intros scored. eexists _, _. split; [apply parse_diagnosis_closed|].
  cbn [diagnosis_code diagnosis_abbr diagnosis_fullname].
  set (code := filter _ l_Dx). set (left := filter _ l_Dx).
  assert (∀ (k : list string), length k = length (code ++ left) →
            zip (pick (map (fun c => bool_decide (scored c)) (code ++ left))
                      (code ++ left))
                (pick (map (fun c => bool_decide (scored c)) (code ++ left)) k)
            = filter (fun p => scored p.1) (zip (code ++ left) k)) as Hzip.
  { intros k Hk. rewrite pick_zip by (by rewrite length_map).
    unfold pick. generalize (code ++ left) k. clear.
    induction l as [|c l IH]; intros [|y k]; try done.
    cbn [map zip zip_with]. rewrite !filter_cons. cbn [fst snd].
    destruct (decide (scored c)) as [Hc|Hc].
    - rewrite bool_decide_eq_true_2 by done. rewrite decide_True by done.
      cbn. f_equal. apply IH.
    - rewrite bool_decide_eq_false_2 by done. rewrite decide_False by done.
      apply IH. }
  split_and!.
  - apply (pick_filter scored).
  - apply Hzip. by rewrite !length_app, length_map.
  - apply Hzip. by rewrite !length_app, length_map.
Qed.

End diagnoses_properties.

(** ** The labels of a record *)

Section get_labels_properties.
Variable load_ann : string → result ann_dict.
Variable label_trans_dict : gmap string string.

(** X17.  When the annotations of the record load, [get_labels] returns
    a list if [fmt] is one of [a], [f], [s] up to the case of the letter,
    and raises the [ValueError] that names [fmt] otherwise; two values of
    [fmt] that differ in case only give the same result. *)
Theorem get_labels_fmt rec scored_only fmt normalize ann :
  load_ann rec = Ok ann →
  (lower fmt ∈ ["a"; "f"; "s"] →
   ∃ labels,
     get_labels load_ann label_trans_dict rec scored_only fmt normalize
     = Ok labels)
  ∧ (lower fmt ∉ ["a"; "f"; "s"] →
     get_labels load_ann label_trans_dict rec scored_only fmt normalize
     = Raise (ValueError ("`fmt` should be one of `a`, `f`, `s`, but got `"
                          +:+ fmt +:+ "`")))
  ∧ (∀ fmt', lower fmt' = lower fmt → lower fmt ∈ ["a"; "f"; "s"] →
     get_labels load_ann label_trans_dict rec scored_only fmt' normalize
     = get_labels load_ann label_trans_dict rec scored_only fmt normalize).
Proof.
  intros Hload. unfold get_labels. rewrite Hload. cbn [mbind result_bind].
  split_and!.
  - intros Hfmt. repeat apply elem_of_cons in Hfmt as [->|Hfmt];
      [..|by apply elem_of_nil in Hfmt]; cbn; destruct normalize; by eexists.
  - intros Hfmt. rewrite !decide_False; [done|..]; intros Heq; apply Hfmt;
      rewrite Heq; repeat constructor.
  - intros fmt' -> Hfmt. repeat apply elem_of_cons in Hfmt as [->|Hfmt];
      [..|by apply elem_of_nil in Hfmt]; done.
Qed.

Lemma normalize_labels_from (acc _labels : list string) :
  NoDup acc →
  ∃ added,
    foldl (fun labels item =>
             let new_item := default item (label_trans_dict !! item) in
             if decide (new_item ∈ labels) then labels else labels ++ [new_item])
          acc _labels
    = acc ++ added
    ∧ NoDup (acc ++ added)
    ∧ added `sublist_of`
        map (fun item => default item (label_trans_dict !! item)) _labels
    ∧ (∀ x, x ∈ acc ++ added
            ↔ x ∈ acc
              ∨ x ∈ map (fun item => default item (label_trans_dict !! item))
                        _labels)
    ∧ (NoDup (acc ++ map (fun item => default item (label_trans_dict !! item))
                         _labels) →
       added = map (fun item => default item (label_trans_dict !! item)) _labels)
    ∧ added
      = filter (fun y => y ∉ acc)
          (first_occurrences
             (map (fun item => default item (label_trans_dict !! item))
                  _labels)).
Proof.
  set (step := fun (labels : list string) item =>
                 let new_item := default item (label_trans_dict !! item) in
                 if decide (new_item ∈ labels) then labels
                 else labels ++ [new_item]).
  revert acc. induction _labels as [|item l IH]; intros acc Hacc.
  { exists []. rewrite !app_nil_r. split_and!; try done.
    intros x. split; [by left|]. by intros [?|?%elem_of_nil]. }
  cbn [foldl map].
  set (new_item := default item (label_trans_dict !! item)).
  change (step acc item)
    with (if decide (new_item ∈ acc) then acc else acc ++ [new_item]).
  destruct (decide (new_item ∈ acc)) as [Hin|Hnew].
  - destruct (IH acc Hacc) as (added & -> & Hnd & Hsub & Helem & Hfix & Hfirst).
    exists added. split_and!; [done|done|by apply sublist_cons| | |].
    + intros x. rewrite Helem, elem_of_cons. split; [tauto|].
      intros [?|[->|?]]; tauto.
    + intros Hdup. apply NoDup_app in Hdup as (_ & Hdisj & _).
      destruct (Hdisj new_item Hin). by left.
    + cbn [first_occurrences]. rewrite filter_cons_False by tauto.
      rewrite list_filter_filter, Hfirst. apply filter_ext_elem.
      intros y _. split; [|tauto]. intros Hy. split; [done|]. by intros ->.
  - destruct (IH (acc ++ [new_item]))
      as (added & -> & Hnd & Hsub & Helem & Hfix & Hfirst).
    { apply NoDup_app. split_and!; [done| |apply NoDup_singleton].
      by intros x Hx ->%list_elem_of_singleton. }
    exists (new_item :: added). rewrite <- !app_assoc in *. cbn [app] in *.
    split_and!; [done|done|by apply sublist_skip| | |].
    + intros x. rewrite Helem, elem_of_app, list_elem_of_singleton, elem_of_cons.
      tauto.
    + intros Hdup. f_equal. by apply Hfix.
    + cbn [first_occurrences]. rewrite filter_cons_True by done. f_equal.
      rewrite list_filter_filter, Hfirst. apply filter_ext_elem.
      intros y _. rewrite elem_of_app, list_elem_of_singleton. tauto.
Qed.

(** X18.  With [normalize], [get_labels] returns the translations of the
    labels that it returns without [normalize] (a label that the
    dictionary of equivalent classes does not hold stands for itself),
    each one once, in the order of their first occurrences: the result is
    [first_occurrences] of the translations, which keeps the leftmost
    copy of every entry and drops the later ones.  Hence the result has no
    repetition, holds the same entries as the translations, is a
    subsequence of them, and is their list when they are distinct. *)
Theorem get_labels_normalize rec scored_only fmt raw :
  get_labels load_ann label_trans_dict rec scored_only fmt false = Ok raw →
  let translated :=
    map (fun item => default item (label_trans_dict !! item)) raw in
  ∃ labels,
    get_labels load_ann label_trans_dict rec scored_only fmt true = Ok labels
    ∧ labels = first_occurrences translated
    ∧ NoDup labels
    ∧ (∀ x, x ∈ labels ↔ x ∈ translated)
    ∧ labels `sublist_of` translated
    ∧ (NoDup translated → labels = translated).
Proof.
  unfold get_labels. destruct (load_ann rec) as [ann|e]; [|done].
  cbn [mbind result_bind].
  destruct (normalize_labels_from [] raw (NoDup_nil_2))
    as (added & Hrun & Hnd & Hsub & Helem & Hfix & Hfirst). cbn [app] in *.
  rewrite filter_all in Hfirst
    by (apply Forall_forall; intros y _; apply not_elem_of_nil).
  intros Hraw. exists added.
  match type of Hraw with
  | (?m ≫= _) = _ => destruct m as [sel|e] eqn:Hsel; [|done]
  end.
  cbn [mbind result_bind] in *. injection Hraw as ->.
  unfold normalize_labels. rewrite Hrun.
  split_and!; [done|done|done| |done|done].
  intros x. rewrite Helem. split; [|by right]. by intros [?%elem_of_nil|?].
Qed.

End get_labels_properties.

Lemma get_labels_fmt_witness :
  get_labels (fun _ => Ok (AnnDict (DiagDict ["1"] ["AF"] ["atrial fibrillation"])
                                   (DiagDict ["1"] ["AF"] ["atrial fibrillation"])))
             ∅ "A0001" true "x" true
  = Raise (ValueError "`fmt` should be one of `a`, `f`, `s`, but got `x`").
Proof.
  apply (get_labels_fmt _ ∅ "A0001" true "x" true
           (AnnDict (DiagDict ["1"] ["AF"] ["atrial fibrillation"])
                    (DiagDict ["1"] ["AF"] ["atrial fibrillation"])));
    [done|]. by_compute.
Defined.

Lemma get_labels_normalize_witness :
  get_labels (fun _ => Ok (AnnDict (DiagDict ["1"; "2"; "1"; "3"] ["a"; "b"; "a"; "c"] [])
                                   (DiagDict ["1"; "2"; "1"; "3"] ["a"; "b"; "a"; "c"] [])))
             {["3" := "2"]} "A0001" true "S" true
  = Ok ["1"; "2"].
Proof.
  destruct (get_labels_normalize
              (fun _ => Ok (AnnDict (DiagDict ["1"; "2"; "1"; "3"] ["a"; "b"; "a"; "c"] [])
                                    (DiagDict ["1"; "2"; "1"; "3"] ["a"; "b"; "a"; "c"] [])))
              {["3" := "2"]} "A0001" true "S" ["1"; "2"; "1"; "3"])
    as (labels & Hrun & Hfirst & _); [done|].
  rewrite Hrun, Hfirst. by vm_compute.
Defined.
